(** * Riitimus embeddable audio player

    A shallow embedding of [riitimus-embeddable-audio-player.js] and the
    properties of its two classes:

    - [RiitimusEmbeddableAudioPlayerElement], the element composer;
    - [RiitimusEmbeddableAudioPlayer], the player controller.

    The repository holds three versions of the player.  The one embedded
    here is the complete one, with options, volume, seeking and track
    skipping; the two earlier ones have the same composer and a subset of
    the controller's methods, embedded in [Earlier] where they differ.

    JavaScript numbers are IEEE 754 binary64 values; they are embedded
    as Rocq's primitive floats, so [volume / 100] and [volume * 100]
    round exactly as they do in the browser.  Objects that are shared
    (audio elements, composed elements) live in stores and are named
    by their position in the store.  A method that can throw returns
    the exception together with the state reached when it was thrown:
    JavaScript does not roll back the assignments made before a throw. *)

From Stdlib Require Import ZArith String Floats Uint63 Lia.
From stdpp Require Import base list strings.

Open Scope Z_scope.

(** ** JavaScript values *)

Module Js.

(** The two exceptions the code can meet: reading a property of
    [null] or [undefined], and the media element's range check. *)
Inductive exn : Set := TypeError | IndexSizeError.

(** [number | null], the type of [_lastAudioVolume] and of the argument
    [_unmute] hands to [_setAudioVolume]. *)
Inductive value : Set := Null | Num (x : float).

(** ToNumber: [null] is [+0] in arithmetic. *)
Definition ToNumber (v : value) : float :=
  match v with Null => 0%float | Num x => x end.

(** The number a whole decimal numeral denotes; the value of a range
    input is such a numeral, and arithmetic coerces it to this number. *)
Definition of_Z (k : Z) : float := PrimFloat.of_uint63 (Uint63.of_Z k).

Definition is_finite (x : float) : bool :=
  negb (is_nan x) && negb (is_infinity x).

(** What [setAttribute] stores: a string given literally, or the
    decimal rendering [x.toString()] of a number, kept as the number. *)
Inductive domstring : Set := Text (s : string) | NumeralOf (x : float).

(** A JavaScript object used as a record of named properties, in
    insertion order ([for ... in] enumerates in that order).  Assigning
    an existing property keeps its place. *)
Fixpoint assign {A : Type} (k : string) (v : A) (o : list (string * A)) : list (string * A) :=
  match o with
  | [] => [(k, v)]
  | (k', v') :: o' => if decide (k = k') then (k, v) :: o' else (k', v') :: assign k v o'
  end.

Fixpoint get {A : Type} (k : string) (o : list (string * A)) : option A :=
  match o with
  | [] => None
  | (k', v') :: o' => if decide (k = k') then Some v' else get k o'
  end.

End Js.
Import Js.

(** ** Functions used as listeners

    Listener identity matters to [removeEventListener].  The closures
    [_mount] creates are named after the control and event they are bound
    to; [Fn n] is any other function object. *)
Inductive callback : Set :=
| mute_click          (* () => this._toggleAudioVolume() *)
| volume_input        (* event => this._setAudioVolume(event.target.value) *)
| progress_input      (* event => this._setAudioCurrentTime(event.target.value) *)
| previous_click      (* event => this._skipPrevious() *)
| next_click          (* event => this._skipNext() *)
| toggle_click        (* () => this._toggleAudioPlayback() *)
| next_input          (* event => this._skipNext(), bound to 'input' *)
| Fn (n : nat).

#[global] Instance callback_eq_dec : EqDecision callback.
Proof. solve_decision. Defined.

(** A reference to a composed element: its position in the store. *)
Abbreviation ref := nat (only parsing).

(** ** The DOM element behind a composed element *)

Module HTMLElement.

Record t : Type := mk {
  tagName : string;
  attributes : list (string * domstring);
  innerText : string;
  childNodes : list ref;
  listeners : list (string * callback)
}.

(** [document.createElement(htmlTag)], for a tag name the browser
    accepts. *)
Definition createElement (htmlTag : string) : t :=
  mk htmlTag [] EmptyString [] [].

Definition setAttribute (name : string) (v : domstring) (h : t) : t :=
  mk (tagName h) (assign name v (attributes h)) (innerText h) (childNodes h) (listeners h).

(** Assigning [innerText] replaces the element's children by the text. *)
Definition set_innerText (text : string) (h : t) : t :=
  mk (tagName h) (attributes h) text [] (listeners h).

Definition set_childNodes (c : list ref) (h : t) : t :=
  mk (tagName h) (attributes h) (innerText h) c (listeners h).

Definition set_listeners (l : list (string * callback)) (h : t) : t :=
  mk (tagName h) (attributes h) (innerText h) (childNodes h) l.

(** EventTarget: a listener is appended unless the same type and
    callback are already registered; removal drops the matching one. *)
Definition addEventListener (event : string) (cb : callback) (h : t) : t :=
  if decide ((event, cb) ∈ listeners h) then h
  else set_listeners (listeners h ++ [(event, cb)]) h.

Definition removeEventListener (event : string) (cb : callback) (h : t) : t :=
  set_listeners (filter (λ l, l ≠ (event, cb)) (listeners h)) h.

(** The callbacks an event of type [event] invokes, in order. *)
Definition dispatchEvent (event : string) (h : t) : list callback :=
  (filter (λ l, l.1 = event) (listeners h)).*2.

End HTMLElement.

(** ** class RiitimusEmbeddableAudioPlayerElement *)

Module Element.

Record t : Type := mk {
  htmlElement : HTMLElement.t;
  children : list (string * ref);
  _eventListeners : list (string * callback)
}.

Definition set_htmlElement (h : HTMLElement.t) (e : t) : t :=
  mk h (children e) (_eventListeners e).

(** [constructor(htmlTag, attributes)] *)
Definition new (htmlTag : string) (attributes : list (string * string)) : t :=
  mk (foldl (λ h a, HTMLElement.setAttribute a.1 (Text a.2) h)
            (HTMLElement.createElement htmlTag) attributes)
     [] [].

Definition removeEventListeners (e : t) : t :=
  set_htmlElement
    (foldl (λ h l, HTMLElement.removeEventListener l.1 l.2 h)
           (htmlElement e) (_eventListeners e))
    e.

Definition setText (text : string) (e : t) : t :=
  set_htmlElement (HTMLElement.set_innerText text (htmlElement e)) e.

Definition setAttribute (attributeName : string) (attributeValue : domstring) (e : t) : t :=
  set_htmlElement (HTMLElement.setAttribute attributeName attributeValue (htmlElement e)) e.

(** [addChild(name, child)] on the element itself: the entry in
    [children] and the new last DOM child.  (Detaching [child] from a
    previous parent is done on the store, see [Player.addChild].) *)
Definition addChild (name : string) (child : ref) (e : t) : t :=
  mk (HTMLElement.set_childNodes
        (filter (λ c, c ≠ child) (HTMLElement.childNodes (htmlElement e)) ++ [child])
        (htmlElement e))
     (assign name child (children e))
     (_eventListeners e).

Definition on (event : string) (cb : callback) (e : t) : t :=
  mk (HTMLElement.addEventListener event cb (htmlElement e))
     (children e)
     (_eventListeners e ++ [(event, cb)]).

(** A run of [on] calls, first to last. *)
Definition on_all (regs : list (string * callback)) (e : t) : t :=
  foldl (λ e r, on r.1 r.2 e) e regs.

End Element.

(** ** The audio element

    [new Audio(src)] is the browser's HTMLAudioElement; its behaviour
    is that of the HTML standard.  Only what the player reads or writes
    is kept: the source, the volume (a number in [0, 1]), the paused
    flag, the playback position, the duration, and the listeners the
    player attaches. *)

(** The three closures [setCurrentAudio] attaches to a new audio element. *)
Inductive audio_callback : Set :=
| audio_timeupdate
| audio_loadeddata
| audio_loadedmetadata.

#[global] Instance audio_callback_eq_dec : EqDecision audio_callback.
Proof. solve_decision. Defined.

Module Audio.

Record t : Type := mk {
  src : string;
  volume : float;
  paused : bool;
  currentTime : float;
  duration : float;
  listeners : list (string * audio_callback)
}.

(** A new media element is paused, at full volume, at position 0, and
    its duration is NaN until metadata arrives. *)
Definition new (src : string) : t := mk src 1%float true 0%float nan [].

Definition set_volume (x : float) (a : t) : t :=
  mk (src a) x (paused a) (currentTime a) (duration a) (listeners a).

Definition set_paused (b : bool) (a : t) : t :=
  mk (src a) (volume a) b (currentTime a) (duration a) (listeners a).

Definition set_currentTime (x : float) (a : t) : t :=
  mk (src a) (volume a) (paused a) x (duration a) (listeners a).

(** [play()], when the browser lets the page start playback. *)
Definition play (a : t) : t := set_paused false a.

Definition pause (a : t) : t := set_paused true a.

Definition addEventListener (event : string) (cb : audio_callback) (a : t) : t :=
  if decide ((event, cb) ∈ listeners a) then a
  else mk (src a) (volume a) (paused a) (currentTime a) (duration a)
          (listeners a ++ [(event, cb)]).

(** The [volume] setter: a non-finite number is refused with a
    TypeError, a number outside [0, 1] with an IndexSizeError. *)
Definition assign_volume (x : float) (a : t) : exn + t :=
  if negb (is_finite x) then inl TypeError
  else if PrimFloat.leb 0 x && PrimFloat.leb x 1 then inr (set_volume x a)
  else inl IndexSizeError.

(** The [currentTime] setter: a non-finite number is refused. *)
Definition assign_currentTime (x : float) (a : t) : exn + t :=
  if negb (is_finite x) then inl TypeError else inr (set_currentTime x a).

End Audio.

(** A reference to an audio element: its position in the store. *)
Abbreviation handle := nat (only parsing).

(** ** Tracks and options *)

Record SrcStructure : Type := mkSrc {
  audio : string;
  coverImage : option string
}.

(** An entry of [options.srcs]: a string, or a structure. *)
Inductive track : Type :=
| SrcString (s : string)
| SrcObject (o : SrcStructure).

Record Options : Type := mkOptions {
  autoplay : option bool;
  srcs : list track
}.

(** [srcs[index]]: [None] is [undefined].  Indices are whole numbers. *)
Definition entry (l : list track) (index : Z) : option track :=
  if index <? 0 then None else l !! Z.to_nat index.

(** The truth value [if (...)] gives an entry: [undefined] and the
    empty string are falsy, every other string and every object truthy. *)
Definition truthy (e : option track) : bool :=
  match e with
  | None => false
  | Some (SrcString s) => negb (String.eqb s EmptyString)
  | Some (SrcObject _) => true
  end.

(** [typeof x === 'string' ? x : x.audio] on an entry that exists. *)
Definition resolve (t : track) : string :=
  match t with SrcString s => s | SrcObject o => audio o end.

(** ** The state *)

(** The fields of a [RiitimusEmbeddableAudioPlayer].  The two fields
    [_currentAudioCoverImage] and [_currentAudioTitle] are set to [null]
    by the constructor and never read or written again; they are left
    out. *)
Record Player : Type := mkPlayer {
  _options : Options;
  _currentAudio : option handle;
  _elements : list (string * ref);
  _currentAudioIndex : option Z;
  _lastAudioVolume : value
}.

(** A line of [console.log], with its arguments. *)
Inductive log : Type :=
| CurrentPlayingAudioOfIndex (i : option Z)
| AudioVolumeChangedTo (volume : float)
| AudioPlaybackProgressChangedTo (second : float)
| AudioIsNowPlaying
| AudioIsNowPaused
| SkipNext
| Uncaught (e : exn).

(** The player, the audio elements created so far, the composed
    elements created so far, the children of the page's container
    element ([None] when the page has no element with the container
    id), and the console. *)
Record World : Type := mkWorld {
  this : Player;
  audios : list Audio.t;
  elements : list Element.t;
  container : option (list ref);
  console : list log
}.

Definition with_this (f : Player → Player) (w : World) : World :=
  mkWorld (f (this w)) (audios w) (elements w) (container w) (console w).

Definition with_audios (f : list Audio.t → list Audio.t) (w : World) : World :=
  mkWorld (this w) (f (audios w)) (elements w) (container w) (console w).

Definition with_elements (f : list Element.t → list Element.t) (w : World) : World :=
  mkWorld (this w) (audios w) (f (elements w)) (container w) (console w).

Definition with_container (f : option (list ref) → option (list ref)) (w : World) : World :=
  mkWorld (this w) (audios w) (elements w) (f (container w)) (console w).

Definition with_console (f : list log → list log) (w : World) : World :=
  mkWorld (this w) (audios w) (elements w) (container w) (f (console w)).

Definition set_currentAudio (h : option handle) (p : Player) : Player :=
  mkPlayer (_options p) h (_elements p) (_currentAudioIndex p) (_lastAudioVolume p).

Definition set_elements (e : list (string * ref)) (p : Player) : Player :=
  mkPlayer (_options p) (_currentAudio p) e (_currentAudioIndex p) (_lastAudioVolume p).

Definition set_currentAudioIndex (i : option Z) (p : Player) : Player :=
  mkPlayer (_options p) (_currentAudio p) (_elements p) i (_lastAudioVolume p).

Definition set_lastAudioVolume (v : value) (p : Player) : Player :=
  mkPlayer (_options p) (_currentAudio p) (_elements p) (_currentAudioIndex p) v.

(** ** Methods as state transformers that may throw *)

Inductive completion (A : Type) : Type :=
| Normal (a : A)
| Throw (e : exn).
Arguments Normal {A} a.
Arguments Throw {A} e.

Definition M (A : Type) : Type := World → completion A * World.

#[global] Instance M_ret : MRet M := λ A a w, (Normal a, w).

#[global] Instance M_bind : MBind M := λ A B f m w,
  match m w with
  | (Normal a, w') => f a w'
  | (Throw e, w') => (Throw e, w')
  end.

Definition throw {A : Type} (e : exn) : M A := λ w, (Throw e, w).

Definition gets {A : Type} (f : World → A) : M A := λ w, (Normal (f w), w).

Definition modify (f : World → World) : M unit := λ w, (Normal tt, f w).

Definition console_log (l : log) : M unit :=
  modify (with_console (λ c, c ++ [l])).

(** The state a method leaves behind, and how it completed. *)
Definition after {A : Type} (m : M A) (w : World) : World := (m w).2.

Definition outcome {A : Type} (m : M A) (w : World) : completion A := (m w).1.

(** *** Access to the stores *)

(** [this._currentAudio], about to be dereferenced: [null] has no
    properties. *)
Definition currentAudio : M handle := λ w,
  match _currentAudio (this w) with
  | Some h => (Normal h, w)
  | None => (Throw TypeError, w)
  end.

Definition audio_get {A : Type} (h : handle) (f : Audio.t → A) : M A := λ w,
  match audios w !! h with
  | Some a => (Normal (f a), w)
  | None => (Throw TypeError, w)
  end.

Definition audio_update (h : handle) (f : Audio.t → Audio.t) : M unit := λ w,
  match audios w !! h with
  | Some a => (Normal tt, with_audios (λ l, <[h := f a]> l) w)
  | None => (Throw TypeError, w)
  end.

Definition audio_assign (h : handle) (f : Audio.t → exn + Audio.t) : M unit := λ w,
  match audios w !! h with
  | Some a =>
      match f a with
      | inr a' => (Normal tt, with_audios (λ l, <[h := a']> l) w)
      | inl e => (Throw e, w)
      end
  | None => (Throw TypeError, w)
  end.

(** [new Audio(src)]: a new object, distinct from every earlier one. *)
Definition new_Audio (src : string) : M handle := λ w,
  (Normal (length (audios w)), with_audios (λ l, l ++ [Audio.new src]) w).

Definition element_get {A : Type} (r : ref) (f : Element.t → A) : M A := λ w,
  match elements w !! r with
  | Some e => (Normal (f e), w)
  | None => (Throw TypeError, w)
  end.

Definition element_update (r : ref) (f : Element.t → Element.t) : M unit := λ w,
  match elements w !! r with
  | Some e => (Normal tt, with_elements (λ l, <[r := f e]> l) w)
  | None => (Throw TypeError, w)
  end.

Definition new_Element (htmlTag : string) (attributes : list (string * string))
  : M ref := λ w,
  (Normal (length (elements w)),
   with_elements (λ l, l ++ [Element.new htmlTag attributes]) w).

(** [o.name] when the result is dereferenced next: a missing property
    is [undefined], and dereferencing it throws. *)
Definition property {A : Type} (name : string) (o : list (string * A)) : M A :=
  match get name o with
  | Some v => mret v
  | None => throw TypeError
  end.

Fixpoint each {A : Type} (f : A → M unit) (l : list A) : M unit :=
  match l with
  | [] => mret tt
  | x :: l' => f x;; each f l'
  end.

(** *** class RiitimusEmbeddableAudioPlayer *)

Definition _playAudio : M unit :=
  h ← currentAudio;
  audio_update h Audio.play;;
  console_log AudioIsNowPlaying.

Definition _pauseAudio : M unit :=
  h ← currentAudio;
  audio_update h Audio.pause;;
  console_log AudioIsNowPaused.

Definition _setAudioVolume (volume : value) : M unit :=
  h ← currentAudio;
  audio_assign h (Audio.assign_volume (ToNumber volume / 100)%float);;
  match volume with
  | Null => throw TypeError                        (* null.toString() *)
  | Num x => console_log (AudioVolumeChangedTo x)
  end.

Definition _setAudioCurrentTime (second : float) : M unit :=
  h ← currentAudio;
  audio_assign h (Audio.assign_currentTime second);;
  console_log (AudioPlaybackProgressChangedTo second).

Definition setCurrentAudio (index : Z) : M unit :=
  audioSrcFromSrcs ← gets (λ w, entry (srcs (_options (this w))) index);
  current ← gets (λ w, _currentAudio (this w));
  (if current is Some _ then _pauseAudio else mret tt);;
  audioSrc ← match audioSrcFromSrcs with
             | Some (SrcString s) => mret s
             | Some (SrcObject o) => mret (audio o)
             | None => throw TypeError             (* undefined.audio *)
             end;
  h ← new_Audio audioSrc;
  modify (with_this (set_currentAudio (Some h)));;
  modify (with_this (set_currentAudioIndex (Some index)));;
  audio_update h (Audio.addEventListener "timeupdate" audio_timeupdate);;
  audio_update h (Audio.addEventListener "loadeddata" audio_loadeddata);;
  audio_update h (Audio.addEventListener "loadedmetadata" audio_loadedmetadata);;
  _setAudioVolume (Num 75);;
  i ← gets (λ w, _currentAudioIndex (this w));
  console_log (CurrentPlayingAudioOfIndex i).

Definition _mute : M unit :=
  h ← currentAudio;
  v ← audio_get h Audio.volume;
  modify (with_this (set_lastAudioVolume (Num (v * 100)%float)));;
  _setAudioVolume (Num 0).

Definition _unmute : M unit :=
  last ← gets (λ w, _lastAudioVolume (this w));
  _setAudioVolume last.

Definition _toggleAudioVolume : M unit :=
  h ← currentAudio;
  v ← audio_get h Audio.volume;
  if PrimFloat.ltb 0 v then _mute else _unmute.

(** [this._currentAudioIndex] in arithmetic: [null] counts as 0. *)
Definition index_number (i : option Z) : Z := default 0 i.

Definition _skipPrevious : M unit :=
  i ← gets (λ w, _currentAudioIndex (this w));
  let previousAudioIndex := index_number i - 1 in
  e ← gets (λ w, entry (srcs (_options (this w))) previousAudioIndex);
  if truthy e then setCurrentAudio previousAudioIndex else mret tt.

Definition _skipNext : M unit :=
  i ← gets (λ w, _currentAudioIndex (this w));
  let nextAudioIndex := index_number i + 1 in
  e ← gets (λ w, entry (srcs (_options (this w))) nextAudioIndex);
  (if truthy e then setCurrentAudio nextAudioIndex else mret tt);;
  console_log SkipNext.

Definition _toggleAudioPlayback : M unit :=
  h ← currentAudio;
  currentAudioIsPaused ← audio_get h Audio.paused;
  if (currentAudioIsPaused : bool) then _playAudio else _pauseAudio.

(** *** The listeners [setCurrentAudio] attaches *)

(** [this._elements.audioControls.children.audioPlaybackProgressControl] *)
Definition audioPlaybackProgressControl : M ref :=
  els ← gets (λ w, _elements (this w));
  audioControls ← property "audioControls" els;
  children ← element_get audioControls Element.children;
  property "audioPlaybackProgressControl" children.

(** The body of each closure; [target] is [event.target]. *)
Definition audio_listener (cb : audio_callback) (target : handle) : M unit :=
  match cb with
  | audio_timeupdate =>
      control ← audioPlaybackProgressControl;
      t ← audio_get target Audio.currentTime;
      element_update control (Element.setAttribute "value" (NumeralOf t))
  | audio_loadeddata =>
      a ← gets (λ w, autoplay (_options (this w)));
      if a is Some true then _playAudio else mret tt
  | audio_loadedmetadata =>
      control ← audioPlaybackProgressControl;
      element_update control (Element.setAttribute "value" (Text "0"));;
      h ← currentAudio;
      d ← audio_get h Audio.duration;
      element_update control (Element.setAttribute "max" (NumeralOf d))
  end.

(** An exception a listener throws is reported and does not reach the
    code that fired the event; the listeners after it still run. *)
Definition reported (m : M unit) : M unit := λ w,
  match m w with
  | (Throw e, w') => (Normal tt, with_console (λ c, c ++ [Uncaught e]) w')
  | r => r
  end.

(** The browser fires [event] at audio element [h]. *)
Definition fire (h : handle) (event : string) : M unit :=
  ls ← gets (λ w, default [] (Audio.listeners <$> audios w !! h));
  each (λ l : string * audio_callback, reported (audio_listener l.2 h))
       (filter (λ l, l.1 = event) ls).

(** *** The listeners [_mount] attaches

    [value] is the number [event.target.value] denotes.  A function of
    the page ([Fn]) is taken to leave the player alone. *)
Definition ui_listener (cb : callback) (value : float) : M unit :=
  match cb with
  | mute_click => _toggleAudioVolume
  | volume_input => _setAudioVolume (Num value)
  | progress_input => _setAudioCurrentTime value
  | previous_click => _skipPrevious
  | next_click => _skipNext
  | toggle_click => _toggleAudioPlayback
  | next_input => _skipNext
  | Fn _ => mret tt
  end.

(** The callbacks an event of type [event] at element [r] invokes. *)
Definition callbacks (w : World) (r : ref) (event : string) : list callback :=
  default [] ((λ e, HTMLElement.dispatchEvent event (Element.htmlElement e))
                <$> elements w !! r).

(** The browser fires [event] at composed element [r]. *)
Definition dispatch (r : ref) (event : string) (value : float) : M unit :=
  cbs ← gets (λ w, callbacks w r event);
  each (λ cb, reported (ui_listener cb value)) cbs.

(** *** Composing elements *)

(** The argument of [_createElement]: [{ name, tag, attributes,
    children }].  The descriptions [_mount] writes for top-level
    elements have no [name]. *)
#[local] Unset Elimination Schemes.
Inductive ElementOptions : Type :=
| element_options (name : option string) (tag : string)
                  (attributes : list (string * string))
                  (children : list ElementOptions).
#[local] Set Elimination Schemes.

Definition options_name (o : ElementOptions) : option string :=
  match o with element_options name _ _ _ => name end.

(** [parent.addChild(name, child)] on the store, [parent] being the
    object the method is called on.  [appendChild] moves a node: it
    leaves the child list it was in before. *)
Definition addChild (parent : ref) (name : string) (child : ref) : M unit :=
  let detach (e : Element.t) :=
    Element.set_htmlElement
      (HTMLElement.set_childNodes
         (filter (λ c, c ≠ child) (HTMLElement.childNodes (Element.htmlElement e)))
         (Element.htmlElement e)) e in
  _ ← element_get parent id;
  modify (with_elements (fmap detach));;
  modify (with_container (fmap (filter (λ c, c ≠ child))));;
  element_update parent (Element.addChild name child).

(** A property key made from [undefined] is the string "undefined". *)
Definition property_key (name : option string) : string := default "undefined" name.

Fixpoint _createElement (options : ElementOptions) : M ref :=
  match options with
  | element_options _ tag attributes children =>
      element ← new_Element tag attributes;
      (fix for_of (cs : list ElementOptions) : M unit :=
         match cs with
         | [] => mret tt
         | childElementOption :: cs' =>
             childElement ← _createElement childElementOption;
             addChild element (property_key (options_name childElementOption))
               childElement;;
             for_of cs'
         end) children;;
      mret element
  end.

(** [this._elements.group.children.name], about to be dereferenced. *)
Definition control (group name : string) : M ref :=
  els ← gets (λ w, _elements (this w));
  g ← property group els;
  children ← element_get g Element.children;
  property name children.

Definition createIcon (iconName : string) : M ref :=
  icon ← _createElement
    (element_options None "span" [("class", "material-symbols-rounded")] []);
  element_update icon (Element.setText iconName);;
  mret icon.

(** [container.appendChild(element.htmlElement)] *)
Definition container_appendChild (r : ref) : M unit := λ w,
  match container w with
  | None => (Throw TypeError, w)
  | Some _ =>
      (Normal tt,
       with_container (fmap (λ l, filter (λ c, c ≠ r) l ++ [r]))
         (with_elements (fmap (λ e,
            Element.set_htmlElement
              (HTMLElement.set_childNodes
                 (filter (λ c, c ≠ r) (HTMLElement.childNodes (Element.htmlElement e)))
                 (Element.htmlElement e)) e)) w))
  end.

Definition declare (name : string) (options : ElementOptions) : M unit :=
  element ← _createElement options;
  modify (with_this (λ p, set_elements (assign name element (_elements p)) p)).

Definition _mount : M unit :=
  declare "audioCoverImageContainer"
    (element_options None "div" [("class", "audio-cover-image-container")]
       [(element_options (Some "audioCoverImage") "img"
           [("class", "audio-cover-image")] [])]);;
  declare "audioTitle"
    (element_options None "span" [("class", "audio-title")] []);;
  declare "audioVolumeControls"
    (element_options None "div" [("class", "audio-volume-controls")]
       [(element_options (Some "audioVolumeBar") "input"
           [("class", "audio-volume-bar"); ("type", "range");
            ("min", "0"); ("max", "100"); ("value", "75")] []);
        (element_options (Some "audioVolumeMuteControl") "button"
           [("class", "audio-volume-mute-control")] [])]);;
  declare "audioControls"
    (element_options None "div" [("class", "audio-controls")]
       [(element_options (Some "audioPlaybackProgressControl") "input"
           [("class", "audio-playback-progress-control"); ("type", "range");
            ("min", "0"); ("value", "0")] []);
        (element_options (Some "audioSkipPreviousControl") "button"
           [("class", "audio-skip-previous-control")] []);
        (element_options (Some "audioTogglePlaybackControl") "button"
           [("class", "audio-toggle-playback-control")] []);
        (element_options (Some "audioSkipNextControl") "button"
           [("class", "audio-skip-next-control")] [])]);;
  (* Adding event listeners *)
  c ← control "audioVolumeControls" "audioVolumeMuteControl";
  element_update c (Element.on "click" mute_click);;
  c ← control "audioVolumeControls" "audioVolumeBar";
  element_update c (Element.on "input" volume_input);;
  c ← control "audioControls" "audioPlaybackProgressControl";
  element_update c (Element.on "input" progress_input);;
  c ← control "audioControls" "audioSkipPreviousControl";
  element_update c (Element.on "click" previous_click);;
  c ← control "audioControls" "audioSkipNextControl";
  element_update c (Element.on "click" next_click);;
  c ← control "audioControls" "audioTogglePlaybackControl";
  element_update c (Element.on "click" toggle_click);;
  c ← control "audioControls" "audioSkipNextControl";
  element_update c (Element.on "input" next_input);;
  (* Mounting elements *)
  els ← gets (λ w, _elements (this w));
  each (λ ie : string * ref,
          let (index, element) := ie in
          children ← element_get element Element.children;
          (if decide (index = "audioVolumeControls") then
             c ← property "audioVolumeMuteControl" children;
             icon ← createIcon "volume_up";
             addChild c "icon" icon
           else if decide (index = "audioControls") then
             c ← property "audioSkipPreviousControl" children;
             icon ← createIcon "skip_previous";
             addChild c "icon" icon;;
             c ← property "audioTogglePlaybackControl" children;
             icon ← createIcon "play_arrow";
             addChild c "playIcon" icon;;
             c ← property "audioTogglePlaybackControl" children;
             icon ← createIcon "pause";
             addChild c "pauseIcon" icon;;
             c ← property "audioSkipNextControl" children;
             icon ← createIcon "skip_next";
             addChild c "icon" icon
           else mret tt);;
          container_appendChild element)
       els.

(** [new RiitimusEmbeddableAudioPlayer(options)] in a page whose
    container element, if there is one, has the children [page]. *)
Definition constructor (options : Options) (page : option (list ref))
  : completion unit * World :=
  _mount (mkWorld (mkPlayer options None [] None Null) [] [] page []).

(** ** Everything that can happen to a mounted player *)

Inductive op : Type :=
| call_setCurrentAudio (index : Z)
| call_setAudioVolume (volume : value)
| call_setAudioCurrentTime (second : float)
| call_mute
| call_unmute
| call_toggleAudioVolume
| call_playAudio
| call_pauseAudio
| call_skipPrevious
| call_skipNext
| call_toggleAudioPlayback
| audio_event (h : handle) (event : string)
| ui_event (r : ref) (event : string) (value : float).

Definition run (o : op) : M unit :=
  match o with
  | call_setCurrentAudio index => setCurrentAudio index
  | call_setAudioVolume volume => _setAudioVolume volume
  | call_setAudioCurrentTime second => _setAudioCurrentTime second
  | call_mute => _mute
  | call_unmute => _unmute
  | call_toggleAudioVolume => _toggleAudioVolume
  | call_playAudio => _playAudio
  | call_pauseAudio => _pauseAudio
  | call_skipPrevious => _skipPrevious
  | call_skipNext => _skipNext
  | call_toggleAudioPlayback => _toggleAudioPlayback
  | audio_event h event => fire h event
  | ui_event r event value => dispatch r event value
  end.

Definition run_all (os : list op) : M unit := each (λ o, reported (run o)) os.

(** ** Vocabulary of the properties *)

(** *** The composer *)

(** Every listener on the DOM element is recorded in [_eventListeners]:
    true of an element that only [on] has attached listeners to. *)
Definition all_recorded (e : Element.t) : Prop :=
  HTMLElement.listeners (Element.htmlElement e) ⊆ Element._eventListeners e.

(** *** The current handle *)

(** The current handle names an audio element that exists. *)
Definition handle_exists (w : World) : Prop :=
  ∀ h, _currentAudio (this w) = Some h → is_Some (audios w !! h).

(** The audio element behind the current handle. *)
Definition current (w : World) : option Audio.t :=
  h ← _currentAudio (this w); audios w !! h.

(** The volume of the current handle, as the media element holds it:
    a number in [0, 1]. *)
Definition handle_volume (w : World) : option float :=
  Audio.volume <$> current w.

(** Audible or muted, as [_toggleAudioVolume] tells them apart. *)
Definition audible (w : World) : bool :=
  match handle_volume w with
  | Some v => PrimFloat.ltb 0 v
  | None => false
  end.

(** *** Selecting a track *)

(** The audio element [setCurrentAudio] leaves behind for source [s]. *)
Definition selected_audio (s : string) : Audio.t :=
  Audio.mk s (75 / 100)%float true 0%float nan
    [("timeupdate", audio_timeupdate);
     ("loadeddata", audio_loadeddata);
     ("loadedmetadata", audio_loadedmetadata)].

(** What [if (this._currentAudio) this._pauseAudio()] does to the state. *)
Definition paused_current (w : World) : World :=
  match _currentAudio (this w) with
  | Some h =>
      match audios w !! h with
      | Some a =>
          with_console (λ c, c ++ [AudioIsNowPaused])
            (with_audios (λ l, <[h := Audio.pause a]> l) w)
      | None => w
      end
  | None => w
  end.

(** The state [setCurrentAudio(index)] reaches for an entry with source
    [s]: the old handle paused, a new audio element at the end of the
    store, and the two fields pointing at it. *)
Definition selected (index : Z) (s : string) (w : World) : World :=
  with_console
    (λ c, c ++ [AudioVolumeChangedTo 75; CurrentPlayingAudioOfIndex (Some index)])
    (with_this
       (λ p, set_currentAudioIndex (Some index)
               (set_currentAudio (Some (length (audios w))) p))
       (with_audios (λ l, l ++ [selected_audio s]) (paused_current w))).

(** *** The index invariant *)

(** Whenever there is a current handle, [_currentAudioIndex] is a valid
    index into the track list. *)
Definition index_valid (w : World) : Prop :=
  ∀ h, _currentAudio (this w) = Some h →
       ∃ i, _currentAudioIndex (this w) = Some i
            ∧ 0 ≤ i < Z.of_nat (length (srcs (_options (this w)))).

(** What [index_valid] depends on. *)
Definition key (w : World) : Options * option handle * option Z :=
  (_options (this w), _currentAudio (this w), _currentAudioIndex (this w)).

(** A method that leaves the options, the current handle and the
    current index alone, however it completes. *)
Definition keeps_key {A : Type} (m : M A) : Prop :=
  ∀ w, key (after m w) = key w.

(** A method that preserves [index_valid], however it completes. *)
Definition preserves {A : Type} (m : M A) : Prop :=
  ∀ w, index_valid w → index_valid (after m w).

(** *** Volumes *)

(** The volume a whole percentage gives: [_setAudioVolume(k)] assigns
    [k / 100]. *)
Definition percent (k : Z) : float := (of_Z k / 100)%float.

(** The volumes the volume bar (a range input from 0 to 100 in unit
    steps), the default 75 and the mute button can set. *)
Definition percent_volume (v : float) : Prop :=
  ∃ k, 0 ≤ k ≤ 100 ∧ v = percent k.

(** Whether the media element takes the volume [x]: the two checks of
    [Audio.assign_volume] together. *)
Definition accepted (x : float) : bool :=
  is_finite x && (PrimFloat.leb 0 x && PrimFloat.leb x 1).

(** What binary64 arithmetic gives for a whole percentage [k]: the
    volume [k / 100] is one the media element takes, multiplying it by
    100 and dividing by 100 again gives it back, and it is positive
    exactly when [k] is. *)
Definition percent_facts (k : Z) : Prop :=
  let v := percent k in
  is_finite v = true
  ∧ PrimFloat.leb 0 v = true
  ∧ PrimFloat.leb v 1 = true
  ∧ (v * 100 / 100)%float = v
  ∧ PrimFloat.ltb 0 v = (0 <? k).

(** A volume argument that denotes a whole percentage: a numeral from
    the volume bar, the literals 75 and 0, [null] (which counts as 0), or
    a percentage [_mute] stored. *)
Definition whole (v : value) : Prop :=
  percent_volume (ToNumber v / 100)%float.

(** What [_lastAudioVolume] can hold: [null], or the percentage [_mute]
    computed from a volume the controls had set. *)
Definition stored_by_mute (v : value) : Prop :=
  v = Null ∨ ∃ k, 0 ≤ k ≤ 100 ∧ v = Num (percent k * 100)%float.

(** The volumes in a well-formed state: the current handle exists, every
    audio element has a volume the controls can set, and
    [_lastAudioVolume] is [null] or was stored by [_mute]. *)
Definition volumes_wf (w : World) : Prop :=
  handle_exists w
  ∧ (∀ h a, audios w !! h = Some a → percent_volume (Audio.volume a))
  ∧ stored_by_mute (_lastAudioVolume (this w)).

(** What [volumes_wf] depends on. *)
Definition vkey (w : World) : option handle * list float * value :=
  (_currentAudio (this w), Audio.volume <$> audios w, _lastAudioVolume (this w)).

(** A method that leaves the current handle, every volume and
    [_lastAudioVolume] alone, however it completes. *)
Definition keeps_vkey {A : Type} (m : M A) : Prop :=
  ∀ w, vkey (after m w) = vkey w.

(** A method that preserves [volumes_wf], however it completes. *)
Definition vpreserves {A : Type} (m : M A) : Prop :=
  ∀ w, volumes_wf w → volumes_wf (after m w).

(** *** Binary64 arithmetic

    What the proofs about [volume / 100] and [volume * 100] need of the
    specification of binary64 ([SpecFloat]): a quotient of integers as
    the truncated mantissa and the location that the rounding works on,
    and the rounding itself as a function on integers. *)

(** Where a quotient with remainder [R] and divisor [T] lies between its
    floor and the next integer. *)
Definition loc_of (R T : Z) : location :=
  if R =? 0 then loc_Exact else loc_Inexact (2 * R ?= T).

(** The mantissa [m] and the location [l] stand for the quotient
    [N / D]. *)
Definition located (N D m : Z) (l : location) : Prop :=
  0 < D ∧ 0 ≤ N ∧ m = N / D ∧ l = loc_of (N mod D) D.

(** [N / T] rounded to the nearest integer, ties to even. *)
Definition rne (N T : Z) : Z := round_nearest_even (N / T) (loc_of (N mod T) T).

(** The number 100 in binary64: [7036874417766400 * 2 ^ -46]. *)
Definition c100 : Z := 7036874417766400.
Definition C100 : spec_float := S754_finite false 7036874417766400 (-46).

(** A number from 0 to 1, as the specification of binary64 has it. *)
Definition SF_unit (s : spec_float) : Prop :=
  match s with
  | S754_zero _ => True
  | S754_finite false m e => e ≤ -52 ∧ (e = -52 → Z.pos m ≤ 4503599627370496)
  | _ => False
  end.

(** A finite number above 0. *)
Definition SF_positive (s : spec_float) : Prop :=
  match s with
  | S754_finite false _ _ => True
  | _ => False
  end.

(** Every audio element holds a volume the media element takes: the
    range check of the [volume] setter keeps it so. *)
Definition volumes_accepted (w : World) : Prop :=
  ∀ h a, audios w !! h = Some a → accepted (Audio.volume a) = true.

(** *** The states a player reaches *)

(** The operations the page can cause: a direct volume call passes a
    whole percentage from 0 to 100, and so does the volume bar, whose
    value reaches [_setAudioVolume] through the [volume_input] listener. *)
Definition admissible (w : World) (o : op) : Prop :=
  match o with
  | call_setAudioVolume volume =>
      ∃ k, 0 ≤ k ≤ 100 ∧ volume = Num (of_Z k)
  | ui_event r event value =>
      volume_input ∈ callbacks w r event → ∃ k, 0 ≤ k ≤ 100 ∧ value = of_Z k
  | _ => True
  end.

(** The states of a player constructed with [options] in a page with
    container [page]. *)
Inductive reachable (options : Options) (page : option (list ref)) : World → Prop :=
| reachable_new : reachable options page (constructor options page).2
| reachable_step (w : World) (o : op) :
    reachable options page w → admissible w o →
    reachable options page (after (run o) w).

(** ** Concrete players, for the instances of the theorems *)

Definition abc : Options :=
  mkOptions (Some true) [SrcString "a.mp3"; SrcString "b.mp3"; SrcString "c.mp3"].

(** A track list whose second entry is the empty string. *)
Definition with_blank : Options :=
  mkOptions None [SrcString "a.mp3"; SrcString EmptyString; SrcString "c.mp3"].

(** A player mounted in a page whose container is empty. *)
Definition mounted (o : Options) : World := (constructor o (Some [])).2.

(** The same after [setCurrentAudio(0)]. *)
Definition playing_first (o : Options) : World := after (setCurrentAudio 0) (mounted o).

(** The same after the volume bar is moved to 40. *)
Definition at_40 (o : Options) : World :=
  after (_setAudioVolume (Num 40)) (playing_first o).

(** * The earlier revisions

    The repository keeps two earlier revisions of the class.  They have
    no options, no index and no volume: the constructor takes the track
    list itself.  [setCurrentAudio], [_playAudio], [_pauseAudio] and
    [_toggleAudioPlayback] are the same in both; the revisions differ in
    what [_currentAudio] is before a track is selected, [null] in the
    first and a composed element in the second. *)

Module Earlier.

(** An audio element: its source, the paused flag, and the event types
    the closure [() => this._playAudio()] is attached for. *)
Record audio : Type := mk_audio {
  src : string;
  paused : bool;
  listeners : list string
}.

(** What [_currentAudio] holds.  A composed element has no [play], no
    [pause] and no [paused]. *)
Inductive target : Type :=
| null
| composed
| element (h : nat).

Record state : Type := mk {
  _srcs : list track;
  _currentAudio : target;
  audios : list audio
}.

(** The first revision starts from [null], the second from a composed
    [audio] element. *)
Definition constructor (composing : bool) (srcs : list track) : state :=
  mk srcs (if composing then composed else null) [].

Definition set_paused (b : bool) (h : nat) (s : state) : state :=
  mk (_srcs s) (_currentAudio s)
     (alter (λ a, mk_audio (src a) b (listeners a)) h (audios s)).

Definition setCurrentAudio (index : Z) (s : state) : completion unit * state :=
  match entry (_srcs s) index with
  | Some t =>
      (Normal tt,
       mk (_srcs s) (element (length (audios s)))
          (audios s ++ [mk_audio (resolve t) true ["canplay"]]))
  | None => (Throw TypeError, s)                     (* undefined.audio *)
  end.

Definition _playAudio (s : state) : completion unit * state :=
  match _currentAudio s with
  | element h => (Normal tt, set_paused false h s)
  | _ => (Throw TypeError, s)
  end.

Definition _pauseAudio (s : state) : completion unit * state :=
  match _currentAudio s with
  | element h => (Normal tt, set_paused true h s)
  | _ => (Throw TypeError, s)
  end.

Definition _toggleAudioPlayback (s : state) : completion unit * state :=
  match _currentAudio s with
  | null => (Throw TypeError, s)
  | composed => _pauseAudio s                        (* undefined is falsy *)
  | element h =>
      match audios s !! h with
      | Some a => if paused a then _playAudio s else _pauseAudio s
      | None => (Throw TypeError, s)
      end
  end.

(** The browser fires [event] at audio element [h]: each listener for
    it runs [_playAudio] on the player; an exception it throws is
    reported and changes nothing. *)
Definition fire (h : nat) (event : string) (s : state) : state :=
  match audios s !! h with
  | Some a => foldl (λ s _, (_playAudio s).2) s (filter (λ l, l = event) (listeners a))
  | None => s
  end.

End Earlier.

(** ** Vocabulary of the further properties *)

(** A method under which [w] and the state it leaves are always
    related by [R], however it completes. *)
Definition respects {A : Type} (R : World → World → Prop) (m : M A) : Prop :=
  ∀ w, R w (after m w).

(** A method that preserves the state property [P], however it
    completes. *)
Definition maintains {A : Type} (P : World → Prop) (m : M A) : Prop :=
  ∀ w, P w → P (after m w).

(** The options, and with them the track list, are the same. *)
Definition same_options (w w' : World) : Prop :=
  _options (this w') = _options (this w).

(** The sources of the audio elements, by handle. *)
Definition sources (w : World) : list string := Audio.src <$> audios w.

(** Every audio element of [w] is still there in [w'], under the same
    handle and with the same source. *)
Definition sources_kept (w w' : World) : Prop := sources w `prefix_of` sources w'.

(** The attributes of an element other than [value] and [max]. *)
Definition other_attributes (e : Element.t) : list (string * domstring) :=
  filter (λ a, a.1 ≠ "value" ∧ a.1 ≠ "max")
         (HTMLElement.attributes (Element.htmlElement e)).

(** What a composed element is, apart from its [value] and [max]
    attributes: tag, the other attributes, text, DOM children, DOM
    listeners, named children and recorded listeners. *)
Definition fixed (e : Element.t)
  : string * list (string * domstring) * string * list ref
    * list (string * callback) * list (string * ref) * list (string * callback) :=
  (HTMLElement.tagName (Element.htmlElement e),
   other_attributes e,
   HTMLElement.innerText (Element.htmlElement e),
   HTMLElement.childNodes (Element.htmlElement e),
   HTMLElement.listeners (Element.htmlElement e),
   Element.children e,
   Element._eventListeners e).

(** The structure of the mounted player: the named groups, the children
    of the container, and what each composed element is apart from its
    [value] and [max] attributes. *)
Definition structure (w : World)
  : list (string * ref) * option (list ref)
    * list (string * list (string * domstring) * string * list ref
            * list (string * callback) * list (string * ref)
            * list (string * callback)) :=
  (_elements (this w), container w, fixed <$> elements w).

Definition same_structure (w w' : World) : Prop := structure w' = structure w.

(** The current handle, and for each audio element whether it is
    paused and which listeners it has. *)
Definition playback (w : World)
  : option handle * list (bool * list (string * audio_callback)) :=
  (_currentAudio (this w), (λ a, (Audio.paused a, Audio.listeners a)) <$> audios w).

Definition same_playback (w w' : World) : Prop := playback w' = playback w.

(** The volumes stay in the range the media element takes. *)
Definition accepted_kept (w w' : World) : Prop :=
  volumes_accepted w → volumes_accepted w'.

(** No audio element other than the current one is playing. *)
Definition no_overlap (w : World) : Prop :=
  ∀ h a, audios w !! h = Some a → Audio.paused a = false →
         _currentAudio (this w) = Some h.

(** The listeners [setCurrentAudio] attaches, in the order it attaches
    them. *)
Definition attached : list (string * audio_callback) :=
  [("timeupdate", audio_timeupdate);
   ("loadeddata", audio_loadeddata);
   ("loadedmetadata", audio_loadedmetadata)].

(** Every audio element has the three listeners of [setCurrentAudio],
    each once. *)
Definition listening (w : World) : Prop :=
  ∀ h a, audios w !! h = Some a → Audio.listeners a = attached.

(** The playback state of a player is sound. *)
Definition playback_wf (w : World) : Prop :=
  handle_exists w ∧ no_overlap w ∧ listening w.

(** The callbacks the control [this._elements.group.children.name]
    invokes for [event]; [None] when the path does not lead to an
    element. *)
Definition wired (w : World) (group name event : string) : option (list callback) :=
  match outcome (control group name) w with
  | Normal r => Some (callbacks w r event)
  | Throw _ => None
  end.

(** *** Composing *)

(** The number of elements a description stands for. *)
Fixpoint size (options : ElementOptions) : nat :=
  match options with
  | element_options _ _ _ children =>
      S ((fix sum (cs : list ElementOptions) : nat :=
            match cs with
            | [] => 0%nat
            | c :: cs' => (size c + sum cs')%nat
            end) children)
  end.













(** The first two tracks selected one after the other, the metadata of
    both loaded since: the first lasts 180 seconds, the second, which is
    current, 240. *)
Definition two_loaded : World :=
  with_audios
    (λ _, [Audio.mk "a.mp3" (75 / 100)%float true 0%float 180%float attached;
           Audio.mk "b.mp3" (75 / 100)%float true 0%float 240%float attached])
    (after (run_all [call_setCurrentAudio 0; call_setCurrentAudio 1]) (mounted abc)).

(** * The element composer *)

Section Composer.

Implicit Types (h : HTMLElement.t) (e : Element.t).
Implicit Types (L regs : list (string * callback)).

Lemma filter_all {A : Type} (P : A → Prop) `{!∀ x, Decision (P x)} (l : list A) :
  (∀ x, x ∈ l → P x) → filter P l = l.
Proof.
  induction l as [|a l IH]; intros Hall; [done|].
  rewrite filter_cons_True by (apply Hall; left).
  f_equal. apply IH. intros x Hx. apply Hall. by right.
Qed.

Lemma filter_none {A : Type} (P : A → Prop) `{!∀ x, Decision (P x)} (l : list A) :
  (∀ x, x ∈ l → ¬ P x) → filter P l = [].
Proof.
  induction l as [|a l IH]; intros Hnone; [done|].
  rewrite filter_cons_False by (apply Hnone; left).
  apply IH. intros x Hx. apply Hnone. by right.
Qed.

Lemma set_listeners_same h : HTMLElement.set_listeners (HTMLElement.listeners h) h = h.
Proof. by destruct h. Qed.

(** Removing every listener of [L] keeps exactly the listeners that
    are not in [L], and touches nothing else. *)
Lemma remove_each_listener L h :
  foldl (λ h l, HTMLElement.removeEventListener l.1 l.2 h) h L
  = HTMLElement.set_listeners (filter (λ l, l ∉ L) (HTMLElement.listeners h)) h.
Proof.
  revert h; induction L as [|[event cb] L IH]; intros h; simpl.
  - rewrite <- (set_listeners_same h) at 1. f_equal.
    symmetry. apply filter_all. intros x _. apply not_elem_of_nil.
  - rewrite IH. unfold HTMLElement.removeEventListener, HTMLElement.set_listeners; simpl.
    f_equal. rewrite list_filter_filter. apply list_filter_iff.
    intros x. rewrite not_elem_of_cons. tauto.
Qed.

Lemma removeEventListeners_listeners e :
  HTMLElement.listeners (Element.htmlElement (Element.removeEventListeners e))
  = filter (λ l, l ∉ Element._eventListeners e)
           (HTMLElement.listeners (Element.htmlElement e)).
Proof. unfold Element.removeEventListeners. simpl. by rewrite remove_each_listener. Qed.

Lemma removeEventListeners_idempotent e :
  Element.removeEventListeners (Element.removeEventListeners e)
  = Element.removeEventListeners e.
Proof.
  unfold Element.removeEventListeners; simpl. rewrite !remove_each_listener.
  unfold Element.set_htmlElement, HTMLElement.set_listeners; simpl.
  do 2 f_equal. rewrite list_filter_filter. apply list_filter_iff. tauto.
Qed.

Lemma on_all_eventListeners regs e :
  Element._eventListeners (Element.on_all regs e) = Element._eventListeners e ++ regs.
Proof.
  unfold Element.on_all.
  revert e; induction regs as [|r regs IH]; intros e; simpl.
  - by rewrite app_nil_r.
  - rewrite IH. simpl. destruct r. by rewrite <- (assoc_L (++)).
Qed.

Lemma new_all_recorded htmlTag attributes : all_recorded (Element.new htmlTag attributes).
Proof.
  unfold all_recorded, Element.new; simpl.
  assert (H : ∀ (l : list (string * string)) h,
             HTMLElement.listeners
               (foldl (λ h a, HTMLElement.setAttribute a.1 (Text a.2) h) h l)
             = HTMLElement.listeners h).
  { induction l as [|a l IH]; intros h; simpl; [done|]. by rewrite IH. }
  rewrite H. simpl. apply list_subseteq_nil.
Qed.

Lemma on_all_recorded event cb e : all_recorded e → all_recorded (Element.on event cb e).
Proof.
  unfold all_recorded, Element.on, HTMLElement.addEventListener; simpl.
  intros Hrec. case_decide; simpl; intros x Hx; apply elem_of_app.
  - left. by apply Hrec.
  - apply elem_of_app in Hx as [Hx|Hx]; [left; by apply Hrec|by right].
Qed.

Lemma on_all_all_recorded regs e : all_recorded e → all_recorded (Element.on_all regs e).
Proof.
  revert e; induction regs as [|r regs IH]; intros e H; simpl; [done|].
  apply IH. by apply on_all_recorded.
Qed.

Lemma dispatchEvent_elem event cb h :
  cb ∈ HTMLElement.dispatchEvent event h → (event, cb) ∈ HTMLElement.listeners h.
Proof.
  unfold HTMLElement.dispatchEvent. rewrite list_elem_of_fmap.
  intros [[ev c] [-> Hin]]. apply list_elem_of_filter in Hin as [Hev Hin].
  simpl in *. by subst.
Qed.

(** C8.  For every node and every run of [on(event, callback)] calls,
    one call of [removeEventListeners()] detaches every listener
    registered through [on]: an event fired afterwards invokes none of
    those callbacks, and on a node created by the constructor, whose
    listeners all came through [on], it invokes no callback at all.  A
    second call of [removeEventListeners()] changes nothing. *)
Theorem removeEventListeners_detaches_every_listener e regs :
  let e' := Element.removeEventListeners (Element.on_all regs e) in
  (∀ event cb, (event, cb) ∈ regs →
     cb ∉ HTMLElement.dispatchEvent event (Element.htmlElement e'))
  ∧ (∀ htmlTag attributes event,
       e = Element.new htmlTag attributes →
       HTMLElement.dispatchEvent event (Element.htmlElement e') = [])
  ∧ Element.removeEventListeners e' = e'.
Proof.
  intros e'. split; [|split].
  - intros event cb Hin Hcb. apply dispatchEvent_elem in Hcb.
    subst e'. rewrite removeEventListeners_listeners in Hcb.
    apply list_elem_of_filter in Hcb as [Hnot _]. apply Hnot.
    rewrite on_all_eventListeners. apply elem_of_app. by right.
  - intros htmlTag attributes event ->.
    assert (Hrec := on_all_all_recorded regs _ (new_all_recorded htmlTag attributes)).
    unfold HTMLElement.dispatchEvent. subst e'.
    rewrite removeEventListeners_listeners.
    rewrite filter_none; [done|].
    intros x Hx. apply list_elem_of_filter in Hx as [Hnot Hx].
    destruct Hnot. by apply Hrec.
  - apply removeEventListeners_idempotent.
Qed.

(** An instance: two listeners on a new button, one of them registered
    twice. *)
Lemma removeEventListeners_detaches_every_listener_witness :
  let regs := [("click", Fn 1); ("input", Fn 2); ("click", Fn 1)] in
  let e' := Element.removeEventListeners
              (Element.on_all regs (Element.new "button" [("class", "c")])) in
  (("click", Fn 1) ∈ regs)
  ∧ (Fn 1 ∉ HTMLElement.dispatchEvent "click" (Element.htmlElement e'))
  ∧ (HTMLElement.dispatchEvent "click" (Element.htmlElement e') = [])
  ∧ (Element.removeEventListeners e' = e').
Proof.
  intros regs e'.
  destruct (removeEventListeners_detaches_every_listener
              (Element.new "button" [("class", "c")]) regs) as (H1 & H2 & H3).
  assert (Hin : ("click", Fn 1) ∈ regs) by (apply list_elem_of_here).
  split; [exact Hin|]. split; [exact (H1 "click"%string (Fn 1) Hin)|].
  split; [|exact H3].
  exact (H2 "button"%string [("class"%string, "c"%string)] "click"%string eq_refl).
Defined.

End Composer.

(** * Binary64: dividing and multiplying by 100

    [_setAudioVolume] divides by 100 and [_mute] multiplies by 100.
    Neither is exact in binary64, but for every [v] from 0 to 100 the
    quotient [v / 100] survives the round trip: [v / 100 * 100 / 100] is
    [v / 100] again.  The proof follows the specification of division
    and multiplication ([SFdiv], [SFmul]) through its rounding. *)

(** ** Rounding *)

Section Rounding.

Lemma digits2_pos_size p : digits2_pos p = Pos.size p.
Proof. induction p as [p IH|p IH|]; cbn; by rewrite ?IH. Qed.

Lemma Zdigits2_log2 m : 0 < m → Zdigits2 m = Z.log2 m + 1.
Proof.
  destruct m as [|p|p]; [lia| |lia]. intros _. cbn [Zdigits2].
  rewrite digits2_pos_size. destruct p as [p|p|]; cbn; lia.
Qed.

Lemma Zdigits2_bounds m d : 0 < d → 2 ^ (d - 1) ≤ m < 2 ^ d → Zdigits2 m = d.
Proof.
  intros Hd [H1 H2].
  assert (0 < m) by (pose proof (Z.pow_pos_nonneg 2 (d - 1)); lia).
  rewrite Zdigits2_log2 by done.
  rewrite (Z.log2_unique m (d - 1)); [lia|lia|].
  replace (Z.succ (d - 1)) with d by lia. done.
Qed.

Lemma Zdigits2_le m d : 0 ≤ d → 0 ≤ m < 2 ^ d → 0 ≤ Zdigits2 m ≤ d.
Proof.
  intros Hd [H1 H2]. destruct (decide (m = 0)) as [->|Hm]; [cbn; lia|].
  rewrite Zdigits2_log2 by lia.
  pose proof (Z.log2_nonneg m).
  assert (Z.log2 m < d); [|lia].
  apply Z.log2_lt_pow2; lia.
Qed.

Lemma loc_round_trip mrs :
  shr_record_of_loc (shr_m mrs) (loc_of_shr_record mrs) = mrs.
Proof. by destruct mrs as [m [|] [|]]. Qed.

Lemma loc_of_record m l : loc_of_shr_record (shr_record_of_loc m l) = l.
Proof. by destruct l as [|[| |]]. Qed.

Lemma shr_m_record m l : shr_m (shr_record_of_loc m l) = m.
Proof. by destruct l as [|[| |]]. Qed.

Lemma shr_1_m mrs : 0 ≤ shr_m mrs → shr_m (shr_1 mrs) = shr_m mrs / 2.
Proof.
  destruct mrs as [m r s]. cbn [shr_m]. intros Hm.
  destruct m as [|[p|p|]|p]; try lia; cbn [shr_1 shr_m]; try reflexivity.
  - rewrite Pos2Z.inj_xI. apply (Z.div_unique _ 2 _ 1); lia.
  - rewrite Pos2Z.inj_xO. apply (Z.div_unique _ 2 _ 0); lia.
Qed.

Lemma shr_1_located N D mrs :
  located N D (shr_m mrs) (loc_of_shr_record mrs) →
  located N (2 * D) (shr_m (shr_1 mrs)) (loc_of_shr_record (shr_1 mrs)).
Proof.
  intros (HD & HN & Hm & Hl).
  assert (Hm0 : 0 ≤ shr_m mrs) by (rewrite Hm; apply Z.div_pos; lia).
  split; [lia|]. split; [done|]. split.
  { rewrite shr_1_m by done. rewrite Hm, Z.div_div by lia. f_equal. lia. }
  pose proof (Z.mod_pos_bound N D HD) as HR.
  pose proof (Z.div_mod N D ltac:(lia)) as HND.
  assert (Hmod : N mod (2 * D) = (shr_m mrs mod 2) * D + N mod D).
  { rewrite (Z.mul_comm 2 D), Z.rem_mul_r by lia. rewrite <- Hm. lia. }
  rewrite Hmod. clear Hmod.
  destruct mrs as [m r s]. cbn [shr_m] in *.
  unfold loc_of in Hl |- *.
  assert (Hodd : m mod 2 = 0 ∨ m mod 2 = 1) by (pose proof (Z.mod_pos_bound m 2); lia).
  assert (Hsh : shr_1 {| shr_m := m; shr_r := r; shr_s := s |}
                = {| shr_m := m / 2; shr_r := bool_decide (m mod 2 = 1); shr_s := r || s |}).
  { destruct m as [|[p|p|]|p]; try lia; cbn [shr_1]; f_equal.
    - rewrite Pos2Z.inj_xI. apply (Z.div_unique _ 2 _ 1); lia.
    - rewrite Pos2Z.inj_xI. rewrite bool_decide_eq_true_2; [done|].
      symmetry. apply (Z.mod_unique _ 2 (Z.pos p) 1); lia.
    - rewrite Pos2Z.inj_xO. apply (Z.div_unique _ 2 _ 0); lia.
    - rewrite Pos2Z.inj_xO. rewrite bool_decide_eq_false_2; [done|].
      rewrite (Z.mul_comm 2), Z.mod_mul by lia. lia. }
  rewrite Hsh. cbn [loc_of_shr_record].
  destruct (Z.eqb_spec (N mod D) 0) as [HR0|HR0].
  - assert (r = false ∧ s = false) as [-> ->] by (destruct r, s; done).
    rewrite HR0. destruct Hodd as [-> | ->]; cbn.
    + done.
    + rewrite bool_decide_eq_true_2 by done.
      replace (1 * D + 0) with D by lia.
      destruct (Z.eqb_spec D 0); [lia|]. by rewrite Z.compare_refl.
  - assert (r || s = true) as -> by (destruct r, s; done).
    destruct Hodd as [-> | ->].
    + rewrite bool_decide_eq_false_2 by done.
      destruct (Z.eqb_spec (0 * D + N mod D) 0); [lia|].
      f_equal. symmetry. apply Z.compare_lt_iff. lia.
    + rewrite bool_decide_eq_true_2 by done.
      destruct (Z.eqb_spec (1 * D + N mod D) 0); [lia|].
      f_equal. symmetry. apply Z.compare_gt_iff. lia.
Qed.

Lemma iter_pos_located p : ∀ N D mrs,
  located N D (shr_m mrs) (loc_of_shr_record mrs) →
  located N (D * 2 ^ Z.pos p) (shr_m (SpecFloat.iter_pos shr_1 p mrs))
    (loc_of_shr_record (SpecFloat.iter_pos shr_1 p mrs)).
Proof.
  induction p as [p IH|p IH|]; intros N D mrs H; cbn [SpecFloat.iter_pos].
  - apply shr_1_located, IH, IH in H.
    replace (D * 2 ^ Z.pos p~1) with (2 * D * 2 ^ Z.pos p * 2 ^ Z.pos p); [done|].
    replace (Z.pos p~1) with (Z.pos p + Z.pos p + 1) by lia.
    rewrite !Z.pow_add_r by lia. lia.
  - apply IH, IH in H.
    replace (D * 2 ^ Z.pos p~0) with (D * 2 ^ Z.pos p * 2 ^ Z.pos p); [done|].
    replace (Z.pos p~0) with (Z.pos p + Z.pos p) by lia.
    rewrite Z.pow_add_r by lia. lia.
  - apply shr_1_located in H. by replace (D * 2 ^ 1) with (2 * D) by lia.
Qed.

Lemma rne_near N T : 0 < T → - T ≤ 2 * (rne N T * T - N) ≤ T.
Proof.
  intros HT. unfold rne, loc_of, round_nearest_even.
  pose proof (Z.mod_pos_bound N T HT) as HR.
  pose proof (Z.div_mod N T ltac:(lia)) as HN.
  destruct (Z.eqb_spec (N mod T) 0); [lia|].
  destruct (Z.compare_spec (2 * (N mod T)) T); [destruct (Z.even (N / T))|..]; lia.
Qed.

Lemma rne_unique N T M : 0 < T → - T < 2 * (M * T - N) < T → rne N T = M.
Proof.
  intros HT HM. pose proof (rne_near N T HT) as Hn.
  destruct (Z.lt_trichotomy (rne N T) M) as [Hlt|[Heq|Hgt]]; [|done|]; nia.
Qed.

Lemma rne_scale k N T : 0 < k → 0 < T → rne (k * N) (k * T) = rne N T.
Proof.
  intros Hk HT. unfold rne, loc_of.
  rewrite Z.div_mul_cancel_l, Z.mul_mod_distr_l by lia.
  pose proof (Z.mod_pos_bound N T HT) as HR.
  destruct (Z.eqb_spec (N mod T) 0) as [->|HR0].
  - by rewrite Z.mul_0_r.
  - destruct (Z.eqb_spec (k * (N mod T)) 0); [nia|].
    do 2 f_equal.
    destruct (Z.compare_spec (2 * (N mod T)) T).
    + apply Z.compare_eq_iff. nia.
    + apply Z.compare_lt_iff. nia.
    + apply Z.compare_gt_iff. nia.
Qed.

Lemma rne_nonneg N T : 0 ≤ N → 0 < T → 0 ≤ rne N T.
Proof. intros HN HT. pose proof (rne_near N T HT). nia. Qed.

Lemma located_rne N D m l : located N D m l → round_nearest_even m l = rne N D.
Proof. intros (_ & _ & -> & ->). reflexivity. Qed.

(** [binary_round_aux] on a mantissa with its location rounds the
    located value to the nearest multiple of [2 ^ t], ties to even. *)
Lemma binary_round_aux_located N D mx ex lx t :
  located N D mx lx →
  fexp prec emax (Zdigits2 mx + ex) = t → ex ≤ t →
  fexp prec emax (Zdigits2 (rne N (D * 2 ^ (t - ex))) + t) = t → t ≤ emax - prec →
  binary_round_aux prec emax false mx ex lx
  = match rne N (D * 2 ^ (t - ex)) with
    | Z0 => S754_zero false
    | Zpos m => S754_finite false m t
    | Zneg _ => S754_nan
    end.
Proof.
  intros Hloc Ht Hle Hcanon Hmax.
  unfold binary_round_aux, shr_fexp at 1. rewrite Ht. unfold shr at 1.
  destruct (t - ex) as [|p|p] eqn:Hn; [| |lia].
  - rewrite shr_m_record, loc_of_record, (located_rne N D mx lx Hloc).
    rewrite Z.pow_0_r, Z.mul_1_r in Hcanon |- *.
    assert (t = ex) as <- by lia.
    unfold shr_fexp. rewrite Hcanon, Z.sub_diag. cbn [shr]. rewrite shr_m_record.
    destruct (rne N D); [done| |done].
    by rewrite (proj2 (Z.leb_le _ _) Hmax).
  - assert (Hl : located N (D * 2 ^ Z.pos p)
                   (shr_m (SpecFloat.iter_pos shr_1 p (shr_record_of_loc mx lx)))
                   (loc_of_shr_record
                      (SpecFloat.iter_pos shr_1 p (shr_record_of_loc mx lx)))).
    { apply iter_pos_located. by rewrite shr_m_record, loc_of_record. }
    rewrite (located_rne _ _ _ _ Hl).
    replace (ex + Z.pos p) with t by lia.
    unfold shr_fexp. rewrite Hcanon, Z.sub_diag. cbn [shr]. rewrite shr_m_record.
    destruct (rne N (D * 2 ^ Z.pos p)); [done| |done].
    by rewrite (proj2 (Z.leb_le _ _) Hmax).
Qed.

End Rounding.

(** ** Quotients and products with 100 *)

Section Hundred.

Lemma fexp_eq e : fexp prec emax e = Z.max (e - 53) (-1074).
Proof. reflexivity. Qed.

Lemma SFdiv_100_core mx ex e' s :
  e' = Z.min (Z.max (Zdigits2 (Z.pos mx) + ex - 7 - 53) (-1074)) (ex + 46) →
  s = ex + 46 - e' → 0 < s →
  SFdiv prec emax (S754_finite false mx ex) C100
  = binary_round_aux prec emax false (Z.pos mx * 2 ^ s / c100) e'
      (loc_of ((Z.pos mx * 2 ^ s) mod c100) c100).
Proof.
  intros He' Hs Hs0. unfold SFdiv, C100, SFdiv_core_binary.
  change (Zdigits2 (Z.pos 7036874417766400)) with 53.
  rewrite fexp_eq.
  replace (Zdigits2 (Z.pos mx) + ex - (53 + -46) - 53)
    with (Zdigits2 (Z.pos mx) + ex - 7 - 53) by lia.
  replace (ex - -46) with (ex + 46) by lia.
  rewrite <- He', <- Hs.
  destruct s as [|p|p]; [lia| |lia].
  rewrite Z.shiftl_mul_pow2 by lia.
  unfold Z.div, Z.modulo, c100.
  destruct (Z.div_eucl (Z.pos mx * 2 ^ Z.pos p) (Z.pos 7036874417766400)) as [q r].
  reflexivity.
Qed.

Lemma finite_of_pos M t :
  0 < M →
  match M with
  | Z0 => S754_zero false
  | Zpos m => S754_finite false m t
  | Zneg _ => S754_nan
  end = S754_finite false (Z.to_pos M) t.
Proof. destruct M; [lia|done|lia]. Qed.

(** The rounding of a located value, once the scale of the result is
    known: [N / D] in units of [2 ^ ex] is [N' / T'] in units of
    [2 ^ t]. *)
Lemma binary_round_aux_rne N D mx ex lx t k N' T' :
  located N D mx lx →
  Z.max (Zdigits2 mx + ex - 53) (-1074) = t → ex ≤ t → -1074 ≤ t ≤ 971 →
  0 < k → 0 < T' → N = k * N' → D * 2 ^ (t - ex) = k * T' →
  0 ≤ rne N' T' < 9007199254740992 →
  4503599627370496 ≤ rne N' T' ∨ t = -1074 →
  binary_round_aux prec emax false mx ex lx
  = match rne N' T' with
    | Z0 => S754_zero false
    | Zpos m => S754_finite false m t
    | Zneg _ => S754_nan
    end.
Proof.
  intros Hloc Ht Hle Hrange Hk HT HN HD HM Hcanon.
  assert (Hrne : rne N (D * 2 ^ (t - ex)) = rne N' T')
    by (rewrite HN, HD; by apply rne_scale).
  rewrite (binary_round_aux_located N D mx ex lx t Hloc); rewrite ?Hrne;
    [done|by rewrite fexp_eq|done| |unfold emax, prec; lia].
  rewrite fexp_eq. destruct Hcanon as [Hbig| ->].
  - rewrite (Zdigits2_bounds _ 53); [lia|lia|cbn; lia].
  - pose proof (Zdigits2_le (rne N' T') 53 ltac:(lia) ltac:(cbn; lia)). lia.
Qed.

Lemma located_div N D : 0 < D → 0 ≤ N → located N D (N / D) (loc_of (N mod D) D).
Proof. by intros; repeat split. Qed.

Lemma SFdiv_100_a mx ex :
  4503599627370496 ≤ Z.pos mx < 7036874417766400 → -1067 ≤ ex ≤ 971 →
  SFdiv prec emax (S754_finite false mx ex) C100
  = S754_finite false (Z.to_pos (rne (32 * Z.pos mx) 25)) (ex - 7)
  ∧ 5764607523034235 ≤ rne (32 * Z.pos mx) 25 < 9007199254740992.
Proof.
  intros Hm He.
  assert (Hd : Zdigits2 (Z.pos mx) = 53) by (apply Zdigits2_bounds; [lia|]; cbn; lia).
  pose proof (rne_near (32 * Z.pos mx) 25 ltac:(lia)) as Hn.
  assert (HM : 5764607523034235 ≤ rne (32 * Z.pos mx) 25 < 9007199254740992) by lia.
  split; [|exact HM].
  rewrite (SFdiv_100_core mx ex (ex - 7) 53) by lia.
  change (2 ^ 53) with 9007199254740992.
  assert (Hq : 4503599627370496 ≤ Z.pos mx * 9007199254740992 / c100 < 9007199254740992).
  { unfold c100. split.
    - apply Z.div_le_lower_bound; lia.
    - apply Z.div_lt_upper_bound; lia. }
  rewrite (binary_round_aux_rne (Z.pos mx * 9007199254740992) c100 _ _ _ (ex - 7)
             281474976710656 (32 * Z.pos mx) 25);
    [ apply finite_of_pos; lia
    | apply located_div; [done|lia]
    | rewrite (Zdigits2_bounds _ 53); [lia|lia|cbn; lia]
    | lia | lia | lia | lia | lia
    | rewrite Z.sub_diag; unfold c100; lia
    | lia | lia ].
Qed.

Lemma SFdiv_100_b mx ex :
  7036874417766400 ≤ Z.pos mx < 9007199254740992 → -1067 ≤ ex ≤ 971 →
  SFdiv prec emax (S754_finite false mx ex) C100
  = S754_finite false (Z.to_pos (rne (16 * Z.pos mx) 25)) (ex - 6)
  ∧ 4503599627370496 ≤ rne (16 * Z.pos mx) 25 < 5764607523034235.
Proof.
  intros Hm He.
  assert (Hd : Zdigits2 (Z.pos mx) = 53) by (apply Zdigits2_bounds; [lia|]; cbn; lia).
  pose proof (rne_near (16 * Z.pos mx) 25 ltac:(lia)) as Hn.
  assert (HM : 4503599627370496 ≤ rne (16 * Z.pos mx) 25 < 5764607523034235) by lia.
  split; [|exact HM].
  rewrite (SFdiv_100_core mx ex (ex - 7) 53) by lia.
  change (2 ^ 53) with 9007199254740992.
  assert (Hq : 9007199254740992 ≤ Z.pos mx * 9007199254740992 / c100
               < 18014398509481984).
  { unfold c100. split.
    - apply Z.div_le_lower_bound; lia.
    - apply Z.div_lt_upper_bound; lia. }
  rewrite (binary_round_aux_rne (Z.pos mx * 9007199254740992) c100 _ _ _ (ex - 6)
             562949953421312 (16 * Z.pos mx) 25);
    [ apply finite_of_pos; lia
    | apply located_div; [done|lia]
    | rewrite (Zdigits2_bounds _ 54); [lia|lia|cbn; lia]
    | lia | lia | lia | lia | lia
    | replace (ex - 6 - (ex - 7)) with 1 by lia; unfold c100; lia
    | lia | lia ].
Qed.

(** Below [2 ^ -1015] the quotient is subnormal or in the first binade:
    it is the value in units of [2 ^ -1074], divided by 100 and rounded
    to an integer. *)
Lemma SFdiv_100_c mx ex :
  0 < Z.pos mx < 9007199254740992 → -1074 ≤ ex ≤ -1068 →
  SFdiv prec emax (S754_finite false mx ex) C100
  = match rne (Z.pos mx * 2 ^ (ex + 1074)) 100 with
    | Z0 => S754_zero false
    | Zpos m => S754_finite false m (-1074)
    | Zneg _ => S754_nan
    end
  ∧ 0 ≤ rne (Z.pos mx * 2 ^ (ex + 1074)) 100 < 5764607523034235.
Proof.
  intros Hm He.
  pose proof (Zdigits2_le (Z.pos mx) 53 ltac:(lia) ltac:(cbn; lia)) as Hd.
  assert (Hpow : 1 ≤ 2 ^ (ex + 1074) ≤ 64).
  { assert (ex + 1074 = 0 ∨ ex + 1074 = 1 ∨ ex + 1074 = 2 ∨ ex + 1074 = 3
            ∨ ex + 1074 = 4 ∨ ex + 1074 = 5 ∨ ex + 1074 = 6) as Hcases by lia.
    destruct Hcases as [-> | [-> | [-> | [-> | [-> | [-> | ->]]]]]]; cbn; lia. }
  set (X := Z.pos mx * 2 ^ (ex + 1074)).
  assert (HX : 0 < X ≤ 576460752303423424) by (subst X; nia).
  pose proof (rne_near X 100 ltac:(lia)) as Hn.
  assert (HM : 0 ≤ rne X 100 < 5764607523034235) by lia.
  split; [|exact HM].
  rewrite (SFdiv_100_core mx ex (-1074) (ex + 1120)) by lia.
  assert (HN : Z.pos mx * 2 ^ (ex + 1120) = 70368744177664 * X).
  { subst X. replace (ex + 1120) with (46 + (ex + 1074)) by lia.
    rewrite Z.pow_add_r by lia. change (2 ^ 46) with 70368744177664. lia. }
  rewrite HN.
  assert (Hq : 0 ≤ 70368744177664 * X / c100 < 9007199254740992).
  { unfold c100. split.
    - apply Z.div_pos; lia.
    - apply Z.div_lt_upper_bound; lia. }
  pose proof (Zdigits2_le _ 53 ltac:(lia) Hq) as Hdq.
  rewrite (binary_round_aux_rne (70368744177664 * X) c100 _ _ _ (-1074)
             70368744177664 X 100);
    [ done
    | apply located_div; [done|lia]
    | lia | lia | lia | lia | lia | lia
    | rewrite Z.sub_diag; unfold c100; lia
    | lia | lia ].
Qed.

Lemma SFmul_100_core my ey :
  SFmul prec emax (S754_finite false my ey) C100
  = binary_round_aux prec emax false (Z.pos my * c100) (ey - 46) loc_Exact.
Proof. reflexivity. Qed.

Lemma located_exact N : 0 ≤ N → located N 1 N loc_Exact.
Proof.
  intros HN. split; [done|]. split; [done|].
  by rewrite Z.div_1_r, Z.mod_1_r.
Qed.

Lemma SFmul_100_I my ey :
  4503599627370496 ≤ Z.pos my → 25 * Z.pos my < 144115188075855872 →
  -1074 ≤ ey ≤ 900 →
  SFmul prec emax (S754_finite false my ey) C100
  = S754_finite false (Z.to_pos (rne (25 * Z.pos my) 16)) (ey + 6)
  ∧ 7036874417766400 ≤ rne (25 * Z.pos my) 16 < 9007199254740992.
Proof.
  intros Hm1 Hm2 He.
  pose proof (rne_near (25 * Z.pos my) 16 ltac:(lia)) as Hn.
  assert (HM : 7036874417766400 ≤ rne (25 * Z.pos my) 16 < 9007199254740992) by lia.
  split; [|exact HM].
  rewrite SFmul_100_core.
  rewrite (binary_round_aux_rne (Z.pos my * c100) 1 _ _ _ (ey + 6)
             281474976710656 (25 * Z.pos my) 16);
    [ apply finite_of_pos; lia
    | apply located_exact; unfold c100; lia
    | rewrite (Zdigits2_bounds _ 105); [lia|lia|unfold c100; cbn; lia]
    | lia | lia | lia | lia
    | unfold c100; lia
    | replace (ey + 6 - (ey - 46)) with 52 by lia; cbn; lia
    | lia | lia ].
Qed.

Lemma SFmul_100_II my ey :
  144115188075855872 ≤ 25 * Z.pos my → Z.pos my < 9007199254740992 →
  -1074 ≤ ey ≤ 900 →
  SFmul prec emax (S754_finite false my ey) C100
  = S754_finite false (Z.to_pos (rne (25 * Z.pos my) 32)) (ey + 7)
  ∧ 4503599627370496 ≤ rne (25 * Z.pos my) 32 ≤ 7036874417766400.
Proof.
  intros Hm1 Hm2 He.
  pose proof (rne_near (25 * Z.pos my) 32 ltac:(lia)) as Hn.
  assert (HM : 4503599627370496 ≤ rne (25 * Z.pos my) 32 ≤ 7036874417766400) by lia.
  split; [|exact HM].
  rewrite SFmul_100_core.
  rewrite (binary_round_aux_rne (Z.pos my * c100) 1 _ _ _ (ey + 7)
             281474976710656 (25 * Z.pos my) 32);
    [ apply finite_of_pos; lia
    | apply located_exact; unfold c100; lia
    | rewrite (Zdigits2_bounds _ 106); [lia|lia|unfold c100; cbn; lia]
    | lia | lia | lia | lia
    | unfold c100; lia
    | replace (ey + 7 - (ey - 46)) with 53 by lia; cbn; lia
    | lia | lia ].
Qed.

(** A subnormal number times 100: the product in units of [2 ^ -1074]
    is [100 * my], rounded to 53 bits when it has [53 + j] of them. *)
Lemma SFmul_100_L my j :
  0 < Z.pos my < 4503599627370496 → 0 ≤ j ≤ 6 →
  (j = 0 ∧ 100 * Z.pos my < 9007199254740992
   ∨ 0 < j ∧ 4503599627370496 * 2 ^ j ≤ 100 * Z.pos my < 9007199254740992 * 2 ^ j) →
  SFmul prec emax (S754_finite false my (-1074)) C100
  = S754_finite false (Z.to_pos (rne (100 * Z.pos my) (2 ^ j))) (-1074 + j)
  ∧ 0 < rne (100 * Z.pos my) (2 ^ j) < 9007199254740992
  ∧ (0 < j → 4503599627370496 ≤ rne (100 * Z.pos my) (2 ^ j)).
Proof.
  intros Hm Hj Hcase.
  assert (Hjs : j = 0 ∨ j = 1 ∨ j = 2 ∨ j = 3 ∨ j = 4 ∨ j = 5 ∨ j = 6) by lia.
  assert (HT : 0 < 2 ^ j) by (apply Z.pow_pos_nonneg; lia).
  pose proof (rne_near (100 * Z.pos my) (2 ^ j) HT) as Hn.
  assert (HM : 0 < rne (100 * Z.pos my) (2 ^ j) < 9007199254740992
               ∧ (0 < j → 4503599627370496 ≤ rne (100 * Z.pos my) (2 ^ j))).
  { destruct Hjs as [-> | [-> | [-> | [-> | [-> | [-> | ->]]]]]];
      cbn in Hn, Hcase |- *; lia. }
  split; [|exact HM].
  rewrite SFmul_100_core.
  rewrite (binary_round_aux_rne (Z.pos my * c100) 1 _ _ _ (-1074 + j)
             70368744177664 (100 * Z.pos my) (2 ^ j));
    [ apply finite_of_pos; lia
    | apply located_exact; unfold c100; lia
    |
    | lia | lia | lia | lia
    | unfold c100; lia
    | replace (-1074 + j - (-1074 - 46)) with (46 + j) by lia;
      rewrite Z.pow_add_r by lia; cbn; lia
    | lia
    | destruct Hcase as [[-> _]|[Hj0 _]]; [by right|left; by apply HM] ].
  destruct Hcase as [[-> Hc]|[Hj0 Hc]].
  - pose proof (Zdigits2_le (Z.pos my * c100) 99 ltac:(lia)
                  ltac:(unfold c100; cbn; lia)). lia.
  - rewrite (Zdigits2_bounds _ (99 + j)); [lia|lia|].
    replace (99 + j - 1) with (98 + j) by lia.
    rewrite !Z.pow_add_r by lia. unfold c100.
    change (2 ^ 98) with 316912650057057350374175801344.
    change (2 ^ 99) with 633825300114114700748351602688. nia.
Qed.

End Hundred.

(** ** The round trip on specifications *)

Section Percentages.

Lemma bounded_finite mx ex :
  bounded prec emax mx ex = true →
  -1074 ≤ ex ≤ 971 ∧ Z.pos mx < 9007199254740992
  ∧ (-1074 < ex → 4503599627370496 ≤ Z.pos mx).
Proof.
  unfold bounded, canonical_mantissa. intros [Hc He]%andb_true_iff.
  apply Z.eqb_eq in Hc. apply Z.leb_le in He. rewrite fexp_eq in Hc.
  change (emax - prec) with 971 in He.
  change (Z.pos (digits2_pos mx)) with (Zdigits2 (Z.pos mx)) in Hc.
  rewrite Zdigits2_log2 in Hc by lia.
  pose proof (Z.log2_spec (Z.pos mx) ltac:(lia)) as [Hlo Hhi].
  pose proof (Z.log2_nonneg (Z.pos mx)) as Hnn.
  split; [lia|]. split.
  - assert (Z.log2 (Z.pos mx) ≤ 52) as Hle by lia.
    assert (2 ^ Z.succ (Z.log2 (Z.pos mx)) ≤ 2 ^ 53)
      by (apply Z.pow_le_mono_r; lia).
    change (2 ^ 53) with 9007199254740992 in *. lia.
  - intros Hex. assert (Z.log2 (Z.pos mx) = 52) as Heq by lia.
    rewrite Heq in Hlo. change (2 ^ 52) with 4503599627370496 in Hlo. lia.
Qed.

Lemma to_pos_id M : 0 < M → Z.pos (Z.to_pos M) = M.
Proof. intros. by apply Z2Pos.id. Qed.

(** Dividing by 100, multiplying by 100 and dividing by 100 again gives
    what the first division gave. *)
Lemma SF_round_trip mx ex :
  bounded prec emax mx ex = true →
  ex < -46 ∨ ex = -46 ∧ Z.pos mx ≤ 7036874417766400 →
  let y := SFdiv prec emax (S754_finite false mx ex) C100 in
  SFdiv prec emax (SFmul prec emax y C100) C100 = y ∧ SF_unit y.
Proof.
  intros Hv Hle y. subst y.
  destruct (bounded_finite mx ex Hv) as (He & Hm & Hnormal).
  destruct (Z_le_gt_dec (-1067) ex) as [Hbig|Hsmall].
  - specialize (Hnormal ltac:(lia)).
    destruct (Z_lt_le_dec (Z.pos mx) 7036874417766400) as [Ha|Hb].
    + (* the quotient keeps 53 bits of 32 mx / 25 *)
      destruct (SFdiv_100_a mx ex ltac:(lia) ltac:(lia)) as [Hy HM].
      pose proof (rne_near (32 * Z.pos mx) 25 ltac:(lia)) as Hn.
      set (My := rne (32 * Z.pos mx) 25) in *.
      rewrite Hy. split; [|cbn; lia].
      destruct (SFmul_100_II (Z.to_pos My) (ex - 7)) as [Hz _];
        [rewrite to_pos_id by lia; lia..|lia|].
      rewrite Hz, to_pos_id by lia.
      rewrite (rne_unique (25 * My) 32 (Z.pos mx)) by lia.
      replace (ex - 7 + 7) with ex by lia. exact Hy.
    + (* the quotient keeps 53 bits of 16 mx / 25 *)
      destruct (SFdiv_100_b mx ex ltac:(lia) ltac:(lia)) as [Hy HM].
      pose proof (rne_near (16 * Z.pos mx) 25 ltac:(lia)) as Hn.
      set (My := rne (16 * Z.pos mx) 25) in *.
      rewrite Hy. split; [|cbn; lia].
      destruct (SFmul_100_I (Z.to_pos My) (ex - 6)) as [Hz HMz];
        [rewrite to_pos_id by lia; lia..|lia|].
      rewrite to_pos_id in Hz, HMz by lia.
      pose proof (rne_near (25 * My) 16 ltac:(lia)) as Hnz.
      set (Mz := rne (25 * My) 16) in *.
      rewrite Hz. replace (ex - 6 + 6) with ex by lia.
      destruct (SFdiv_100_b (Z.to_pos Mz) ex) as [Hw _];
        [rewrite to_pos_id by lia; lia|lia|].
      rewrite Hw, to_pos_id by lia.
      by rewrite (rne_unique (16 * Mz) 25 My) by lia.
  - (* the quotient is a multiple of 2 ^ -1074 *)
    destruct (SFdiv_100_c mx ex ltac:(lia) ltac:(lia)) as [Hy HM].
    assert (Hpow : 1 ≤ 2 ^ (ex + 1074) ≤ 64).
    { assert (ex + 1074 = 0 ∨ ex + 1074 = 1 ∨ ex + 1074 = 2 ∨ ex + 1074 = 3
              ∨ ex + 1074 = 4 ∨ ex + 1074 = 5 ∨ ex + 1074 = 6) as Hcases by lia.
      destruct Hcases as [-> | [-> | [-> | [-> | [-> | [-> | ->]]]]]]; cbn; lia. }
    set (X := Z.pos mx * 2 ^ (ex + 1074)) in *.
    set (My := rne X 100) in *.
    rewrite Hy. destruct My as [|my|my] eqn:HMy; [done| |lia].
    split; [|cbn; lia].
    destruct (Z_lt_le_dec (Z.pos my) 4503599627370496) as [Hsub|Hnorm].
    + assert (Hj : ∃ j, 0 ≤ j ≤ 6
                ∧ (j = 0 ∧ 100 * Z.pos my < 9007199254740992
                   ∨ 0 < j ∧ 4503599627370496 * 2 ^ j ≤ 100 * Z.pos my
                             < 9007199254740992 * 2 ^ j)).
      { destruct (Z_lt_le_dec (100 * Z.pos my) 9007199254740992); [exists 0; lia|].
        destruct (Z_lt_le_dec (100 * Z.pos my) 18014398509481984);
          [exists 1; cbn; lia|].
        destruct (Z_lt_le_dec (100 * Z.pos my) 36028797018963968);
          [exists 2; cbn; lia|].
        destruct (Z_lt_le_dec (100 * Z.pos my) 72057594037927936);
          [exists 3; cbn; lia|].
        destruct (Z_lt_le_dec (100 * Z.pos my) 144115188075855872);
          [exists 4; cbn; lia|].
        destruct (Z_lt_le_dec (100 * Z.pos my) 288230376151711744);
          [exists 5; cbn; lia|].
        exists 6. cbn. lia. }
      destruct Hj as (j & Hj & Hcase).
      destruct (SFmul_100_L my j ltac:(lia) Hj Hcase) as (Hz & HMz & _).
      assert (HT : 1 ≤ 2 ^ j ≤ 64).
      { assert (j = 0 ∨ j = 1 ∨ j = 2 ∨ j = 3 ∨ j = 4 ∨ j = 5 ∨ j = 6) as Hjs by lia.
        destruct Hjs as [-> | [-> | [-> | [-> | [-> | [-> | ->]]]]]]; cbn; lia. }
      pose proof (rne_near (100 * Z.pos my) (2 ^ j) ltac:(lia)) as Hnz.
      set (Mz := rne (100 * Z.pos my) (2 ^ j)) in *.
      rewrite Hz.
      destruct (SFdiv_100_c (Z.to_pos Mz) (-1074 + j)) as [Hw _];
        [rewrite to_pos_id by lia; lia|lia|].
      rewrite Hw, to_pos_id by lia.
      replace (-1074 + j + 1074) with j by lia.
      by rewrite (rne_unique (Mz * 2 ^ j) 100 (Z.pos my)) by lia.
    + pose proof (rne_near X 100 ltac:(lia)) as Hn. fold My in Hn. rewrite HMy in Hn.
      destruct (SFmul_100_I my (-1074)) as [Hz HMz]; [lia..|].
      pose proof (rne_near (25 * Z.pos my) 16 ltac:(lia)) as Hnz.
      set (Mz := rne (25 * Z.pos my) 16) in *.
      rewrite Hz. replace (-1074 + 6) with (-1068) by lia.
      destruct (SFdiv_100_c (Z.to_pos Mz) (-1068)) as [Hw _];
        [rewrite to_pos_id by lia; lia|lia|].
      rewrite Hw, to_pos_id by lia.
      change (2 ^ (-1068 + 1074)) with 64.
      by rewrite (rne_unique (Mz * 64) 100 (Z.pos my)) by lia.
Qed.

(** A positive number up to 1, multiplied by 100 and divided by 100
    again, is a positive number up to 1. *)
Lemma SF_positive_round_trip mv ev :
  bounded prec emax mv ev = true →
  SF_unit (S754_finite false mv ev) →
  let w := SFdiv prec emax (SFmul prec emax (S754_finite false mv ev) C100) C100 in
  SF_unit w ∧ SF_positive w.
Proof.
  intros Hv [Hle Hone] w. subst w.
  destruct (bounded_finite mv ev Hv) as (He & Hm & Hnormal).
  assert (Hdiv : ∀ mz ez,
            4503599627370496 ≤ Z.pos mz < 9007199254740992 → -1068 ≤ ez ≤ -46 →
            (ez = -46 → Z.pos mz ≤ 7036874417766400) →
            SF_unit (SFdiv prec emax (S754_finite false mz ez) C100)
            ∧ SF_positive (SFdiv prec emax (S754_finite false mz ez) C100)).
  { intros mz ez Hmz Hez H46.
    destruct (Z_le_gt_dec (-1067) ez) as [Hbig|Hsmall].
    - destruct (Z_lt_le_dec (Z.pos mz) 7036874417766400) as [Ha|Hb].
      + destruct (SFdiv_100_a mz ez ltac:(lia) ltac:(lia)) as [-> HM]. cbn. lia.
      + destruct (SFdiv_100_b mz ez ltac:(lia) ltac:(lia)) as [-> HM].
        pose proof (rne_near (16 * Z.pos mz) 25 ltac:(lia)) as Hn.
        cbn. rewrite to_pos_id by lia. lia.
    - destruct (SFdiv_100_c mz ez ltac:(lia) ltac:(lia)) as [-> HM].
      assert (ez = -1068) as -> by lia. change (2 ^ (-1068 + 1074)) with 64 in *.
      pose proof (rne_near (Z.pos mz * 64) 100 ltac:(lia)) as Hn.
      destruct (rne (Z.pos mz * 64) 100) as [|m|m]; [lia|cbn; lia|lia]. }
  destruct (Z_lt_le_dec (Z.pos mv) 4503599627370496) as [Hsub|Hnorm].
  - (* subnormal *)
    assert (ev = -1074) as -> by lia.
    assert (Hj : ∃ j, 0 ≤ j ≤ 6
              ∧ (j = 0 ∧ 100 * Z.pos mv < 9007199254740992
                 ∨ 0 < j ∧ 4503599627370496 * 2 ^ j ≤ 100 * Z.pos mv
                           < 9007199254740992 * 2 ^ j)).
    { destruct (Z_lt_le_dec (100 * Z.pos mv) 9007199254740992); [exists 0; lia|].
      destruct (Z_lt_le_dec (100 * Z.pos mv) 18014398509481984);
        [exists 1; cbn; lia|].
      destruct (Z_lt_le_dec (100 * Z.pos mv) 36028797018963968);
        [exists 2; cbn; lia|].
      destruct (Z_lt_le_dec (100 * Z.pos mv) 72057594037927936);
        [exists 3; cbn; lia|].
      destruct (Z_lt_le_dec (100 * Z.pos mv) 144115188075855872);
        [exists 4; cbn; lia|].
      destruct (Z_lt_le_dec (100 * Z.pos mv) 288230376151711744);
        [exists 5; cbn; lia|].
      exists 6. cbn. lia. }
    destruct Hj as (j & Hj & Hcase).
    destruct (SFmul_100_L mv j ltac:(lia) Hj Hcase) as (-> & HMz & _).
    assert (HT : 1 ≤ 2 ^ j ≤ 64).
    { assert (j = 0 ∨ j = 1 ∨ j = 2 ∨ j = 3 ∨ j = 4 ∨ j = 5 ∨ j = 6) as Hjs by lia.
      destruct Hjs as [-> | [-> | [-> | [-> | [-> | [-> | ->]]]]]]; cbn; lia. }
    pose proof (rne_near (100 * Z.pos mv) (2 ^ j) ltac:(lia)) as Hnz.
    set (Mz := rne (100 * Z.pos mv) (2 ^ j)) in *.
    destruct (SFdiv_100_c (Z.to_pos Mz) (-1074 + j)) as [-> _];
      [rewrite to_pos_id by lia; lia|lia|].
    rewrite to_pos_id by lia. replace (-1074 + j + 1074) with j by lia.
    pose proof (rne_near (Mz * 2 ^ j) 100 ltac:(lia)) as Hn.
    destruct (rne (Mz * 2 ^ j) 100) as [|m|m]; [lia|cbn; lia|lia].
  - destruct (Z_lt_le_dec (25 * Z.pos mv) 144115188075855872) as [HI|HII].
    + destruct (SFmul_100_I mv ev ltac:(lia) HI ltac:(lia)) as [-> HMz].
      pose proof (rne_near (25 * Z.pos mv) 16 ltac:(lia)) as Hnz.
      apply Hdiv; rewrite ?to_pos_id by lia; lia.
    + destruct (SFmul_100_II mv ev HII ltac:(lia) ltac:(lia)) as [-> HMz].
      pose proof (rne_near (25 * Z.pos mv) 32 ltac:(lia)) as Hnz.
      apply Hdiv; rewrite ?to_pos_id by lia; lia.
Qed.

End Percentages.

(** ** The round trip on numbers *)

Section Binary64.

Implicit Types (u v : float).

Lemma Prim2SF_100 : Prim2SF 100 = C100.
Proof. reflexivity. Qed.

Lemma SFcompare_refl m e :
  SFcompare (S754_finite false m e) (S754_finite false m e) = Some Eq.
Proof. cbn. rewrite Z.compare_refl. by rewrite (Pos.compare_cont_refl m Eq). Qed.

Lemma SFleb_finite m1 e1 m2 e2 :
  SFleb (S754_finite false m1 e1) (S754_finite false m2 e2) = true
  ↔ e1 < e2 ∨ e1 = e2 ∧ Z.pos m1 ≤ Z.pos m2.
Proof.
  unfold SFleb. cbn. destruct (Z.compare_spec e1 e2) as [->|Hlt|Hgt].
  - change (Pos.compare_cont Eq m1 m2) with (m1 ?= m2)%positive.
    destruct (Pos.compare_spec m1 m2); split; try done; try lia.
  - split; [lia|done].
  - split; [done|lia].
Qed.

(** A float whose specification is between 0 and 1 is a volume the
    media element takes. *)
Lemma accepted_unit u : SF_unit (Prim2SF u) → accepted u = true.
Proof.
  intros Hu. unfold accepted, is_finite, is_nan, is_infinity.
  rewrite !FloatAxioms.eqb_spec, !FloatAxioms.leb_spec, FloatAxioms.abs_spec.
  change (Prim2SF infinity) with (S754_infinity false).
  change (Prim2SF 0) with (S754_zero false).
  change (Prim2SF 1) with (S754_finite false 4503599627370496 (-52)).
  destruct (Prim2SF u) as [s|s| |[|] m e]; try done.
  destruct Hu as [He Hm].
  { unfold SFeqb. rewrite SFcompare_refl. cbn [negb andb SFabs].
    assert (SFleb (S754_finite false m e)
              (S754_finite false 4503599627370496 (-52)) = true) as ->
      by (apply SFleb_finite; lia).
    reflexivity. }
Qed.

Lemma unit_accepted u : accepted u = true → SF_unit (Prim2SF u).
Proof.
  unfold accepted. rewrite !FloatAxioms.leb_spec.
  change (Prim2SF 0) with (S754_zero false).
  change (Prim2SF 1) with (S754_finite false 4503599627370496 (-52)).
  intros (_ & H0 & H1)%andb_true_iff%proj2%andb_true_iff%(conj I).
  destruct (Prim2SF u) as [s|s| |[|] m e]; try done.
  - by destruct s.
  - apply SFleb_finite in H1. cbn. lia.
Qed.

Lemma positive_ltb u : SF_positive (Prim2SF u) → PrimFloat.ltb 0 u = true.
Proof.
  rewrite FloatAxioms.ltb_spec. change (Prim2SF 0) with (S754_zero false).
  by destruct (Prim2SF u) as [s|s| |[|] m e].
Qed.

Lemma ltb_positive u :
  SF_unit (Prim2SF u) → PrimFloat.ltb 0 u = true → SF_positive (Prim2SF u).
Proof.
  rewrite FloatAxioms.ltb_spec. change (Prim2SF 0) with (S754_zero false).
  by destruct (Prim2SF u) as [s|s| |[|] m e].
Qed.

(** What a float from 0 to 100 is. *)
Lemma between_0_100 v :
  PrimFloat.leb 0 v = true → PrimFloat.leb v 100 = true →
  (∃ s, Prim2SF v = S754_zero s)
  ∨ ∃ m e, Prim2SF v = S754_finite false m e ∧ bounded prec emax m e = true
           ∧ (e < -46 ∨ e = -46 ∧ Z.pos m ≤ 7036874417766400).
Proof.
  rewrite !FloatAxioms.leb_spec. pose proof (Prim2SF_valid v) as Hvalid.
  change (Prim2SF 0) with (S754_zero false). rewrite Prim2SF_100. unfold C100.
  destruct (Prim2SF v) as [s|s| |[|] m e]; try done.
  - eauto.
  - by destruct s.
  - intros _ H100. right. exists m, e. split; [done|]. split; [exact Hvalid|].
    by apply SFleb_finite in H100.
Qed.

(** For every number [v] from 0 to 100, [v / 100] is a volume the media
    element takes, and multiplying it by 100 and dividing by 100 again
    gives it back exactly. *)
Lemma percent_round_trip v :
  PrimFloat.leb 0 v = true → PrimFloat.leb v 100 = true →
  accepted (v / 100) = true ∧ (v / 100 * 100 / 100)%float = (v / 100)%float.
Proof.
  intros H0 H100.
  assert (H : SF_unit (Prim2SF (v / 100))
              ∧ Prim2SF (v / 100 * 100 / 100) = Prim2SF (v / 100)).
  { rewrite (FloatAxioms.div_spec (v / 100 * 100)), FloatAxioms.mul_spec, !FloatAxioms.div_spec, !Prim2SF_100.
    unfold SF64div, SF64mul.
    destruct (between_0_100 v H0 H100) as [[s ->]|(m & e & -> & Hb & Hle)].
    - by destruct s.
    - destruct (SF_round_trip m e Hb Hle) as [Hrt Hu]. done. }
  destruct H as [Hu Heq]. split; [by apply accepted_unit|by apply Prim2SF_inj].
Qed.

(** For every volume [u] above 0 that the media element holds,
    [u * 100 / 100] is again such a volume. *)
Lemma audible_round_trip u :
  accepted u = true → PrimFloat.ltb 0 u = true →
  accepted (u * 100 / 100) = true ∧ PrimFloat.ltb 0 (u * 100 / 100) = true.
Proof.
  intros Hacc Hpos. apply unit_accepted in Hacc. apply (ltb_positive _ Hacc) in Hpos.
  pose proof (Prim2SF_valid u) as Hvalid.
  assert (H : SF_unit (Prim2SF (u * 100 / 100))
              ∧ SF_positive (Prim2SF (u * 100 / 100))).
  { rewrite FloatAxioms.div_spec, FloatAxioms.mul_spec, !Prim2SF_100. unfold SF64div, SF64mul.
    destruct (Prim2SF u) as [s|s| |[|] m e]; try done.
    by apply SF_positive_round_trip. }
  destruct H as [Hu Hp]. split; [by apply accepted_unit|by apply positive_ltb].
Qed.

End Binary64.

(** * The player controller *)

Section Controller.

Implicit Types (w : World) (h : handle) (a : Audio.t) (i : Z) (t : track).

(** ** Running a method step by step *)

Lemma bind_run {A B : Type} (m : M A) (f : A → M B) w :
  (m ≫= f) w = match m w with
               | (Normal x, w') => f x w'
               | (Throw e, w') => (Throw e, w')
               end.
Proof. reflexivity. Qed.

Ltac prim :=
  rewrite bind_run; cbn [gets modify console_log new_Audio mret M_ret throw].

Ltac call H := rewrite bind_run, H.

Lemma lookup_snoc {A : Type} (l : list A) (x : A) : (l ++ [x]) !! length l = Some x.
Proof. by rewrite list_lookup_middle. Qed.

Lemma insert_snoc {A : Type} (l : list A) (x y : A) :
  <[length l := y]> (l ++ [x]) = l ++ [y].
Proof. rewrite insert_app_r_alt by lia. by rewrite Nat.sub_diag. Qed.

Lemma new_audio_listeners (s : string) :
  Audio.addEventListener "loadedmetadata" audio_loadedmetadata
    (Audio.addEventListener "loadeddata" audio_loadeddata
       (Audio.addEventListener "timeupdate" audio_timeupdate (Audio.new s)))
  = Audio.mk s 1%float true 0%float nan
      [("timeupdate", audio_timeupdate);
       ("loadeddata", audio_loadeddata);
       ("loadedmetadata", audio_loadedmetadata)].
Proof. reflexivity. Qed.


Lemma pauseAudio_run w h a :
  _currentAudio (this w) = Some h → audios w !! h = Some a →
  _pauseAudio w = (Normal tt, paused_current w).
Proof.
  intros Hc Ha. unfold _pauseAudio, paused_current.
  rewrite bind_run. unfold currentAudio. rewrite Hc.
  rewrite bind_run. unfold audio_update. rewrite Ha. reflexivity.
Qed.

Lemma playAudio_run w h a :
  _currentAudio (this w) = Some h → audios w !! h = Some a →
  _playAudio w
  = (Normal tt, with_console (λ c, c ++ [AudioIsNowPlaying])
                  (with_audios (λ l, <[h := Audio.play a]> l) w)).
Proof.
  intros Hc Ha. unfold _playAudio.
  rewrite bind_run. unfold currentAudio. rewrite Hc.
  rewrite bind_run. unfold audio_update. rewrite Ha. reflexivity.
Qed.

Lemma paused_current_length w : length (audios (paused_current w)) = length (audios w).
Proof.
  unfold paused_current. destruct (_currentAudio (this w)) as [h|]; [|done].
  destruct (audios w !! h); [|done]. cbn. by rewrite length_insert.
Qed.

Lemma paused_current_this w : this (paused_current w) = this w.
Proof.
  unfold paused_current. destruct (_currentAudio (this w)) as [h|]; [|done].
  by destruct (audios w !! h).
Qed.

Lemma pause_if_current w :
  handle_exists w →
  (if _currentAudio (this w) is Some _ then _pauseAudio else mret tt) w
  = (Normal tt, paused_current w).
Proof.
  intros Hw. destruct (_currentAudio (this w)) as [h|] eqn:Hc.
  - destruct (Hw h Hc) as [a Ha]. by apply (pauseAudio_run w h a).
  - unfold paused_current. by rewrite Hc.
Qed.

Lemma setAudioVolume_run w h a a' (x : float) :
  _currentAudio (this w) = Some h → audios w !! h = Some a →
  Audio.assign_volume (x / 100)%float a = inr a' →
  _setAudioVolume (Num x) w
  = (Normal tt, with_console (λ c, c ++ [AudioVolumeChangedTo x])
                  (with_audios (λ l, <[h := a']> l) w)).
Proof.
  intros Hc Ha Hv. unfold _setAudioVolume.
  rewrite bind_run. unfold currentAudio. rewrite Hc.
  rewrite bind_run. unfold audio_assign. rewrite Ha. cbn [ToNumber]. rewrite Hv.
  reflexivity.
Qed.

Lemma audio_update_run w h a f :
  audios w !! h = Some a →
  audio_update h f w = (Normal tt, with_audios (λ l, <[h := f a]> l) w).
Proof. intros Ha. unfold audio_update. by rewrite Ha. Qed.

Lemma assign_default_volume a :
  Audio.assign_volume (75 / 100)%float a = inr (Audio.set_volume (75 / 100)%float a).
Proof. reflexivity. Qed.

(** [setCurrentAudio(index)] on an entry that exists returns normally
    and reaches the state [selected]. *)
Lemma setCurrentAudio_run w i t :
  handle_exists w → entry (srcs (_options (this w))) i = Some t →
  setCurrentAudio i w = (Normal tt, selected i (resolve t) w).
Proof.
  intros Hw Hi. unfold setCurrentAudio.
  prim. rewrite Hi. prim. call (pause_if_current w Hw).
  assert (Hsrc : ∀ w', match t return M string with
                       | SrcString s => mret s
                       | SrcObject o => mret (audio o)
                       end w' = (Normal (resolve t), w')) by (intros; by destruct t).
  call Hsrc. clear Hsrc. unfold selected.
  set (w1 := paused_current w).
  assert (Hlen : length (audios w1) = length (audios w)) by apply paused_current_length.
  assert (Hthis : this w1 = this w) by apply paused_current_this.
  clearbody w1.
  destruct w1 as [p l es c lg]. cbn [audios this] in Hlen, Hthis. subst p.
  prim. prim. prim.
  unfold with_this, with_audios. cbn [this audios elements container console].
  rewrite bind_run;
    erewrite (audio_update_run (mkWorld _ (l ++ [_]) es c lg) (length l) _ _
                (lookup_snoc l _)).
  unfold with_audios. cbn [this audios elements container console]. rewrite insert_snoc.
  rewrite bind_run;
    erewrite (audio_update_run (mkWorld _ (l ++ [_]) es c lg) (length l) _ _
                (lookup_snoc l _)).
  unfold with_audios. cbn [this audios elements container console]. rewrite insert_snoc.
  rewrite bind_run;
    erewrite (audio_update_run (mkWorld _ (l ++ [_]) es c lg) (length l) _ _
                (lookup_snoc l _)).
  unfold with_audios. cbn [this audios elements container console]. rewrite insert_snoc.
  rewrite new_audio_listeners.
  erewrite bind_run, setAudioVolume_run;
    [|reflexivity|apply lookup_snoc|apply assign_default_volume].
  prim. unfold console_log, modify, with_console, with_this, with_audios.
  cbn [this audios elements container console].
  rewrite insert_snoc, Hlen, <- (assoc_L (++)). reflexivity.
Qed.

(** [setCurrentAudio(index)] on a missing entry pauses and throws. *)
Lemma setCurrentAudio_throw w i :
  handle_exists w → entry (srcs (_options (this w))) i = None →
  setCurrentAudio i w = (Throw TypeError, paused_current w).
Proof.
  intros Hw Hi. unfold setCurrentAudio.
  prim. rewrite Hi. prim. call (pause_if_current w Hw). reflexivity.
Qed.

Lemma entry_valid (l : list track) i :
  0 ≤ i < Z.of_nat (length l) → ∃ t, l !! Z.to_nat i = Some t ∧ entry l i = Some t.
Proof.
  intros Hi. destruct (lookup_lt_is_Some_2 l (Z.to_nat i)) as [t Ht]; [lia|].
  exists t. split; [done|]. unfold entry.
  destruct (Z.ltb_spec i 0); [lia|done].
Qed.

Lemma selected_current i (s : string) w :
  current (selected i s w) = Some (selected_audio s).
Proof.
  unfold current, selected. cbn. rewrite <- paused_current_length. apply lookup_snoc.
Qed.

(** ** Selecting a track *)

(** C4.  For every track list and every valid index [i], after
    [setCurrentAudio(i)] the controller has [currentIndex = i], and the
    current handle is a freshly created audio element (no such element
    existed before the call; it is paused, at position 0) bound to the
    resolved source of track [i]: the entry itself when it is a string,
    its [audio] field when it is a structure. *)
Theorem setCurrentAudio_selects_track w i :
  handle_exists w →
  0 ≤ i < Z.of_nat (length (srcs (_options (this w)))) →
  let w' := after (setCurrentAudio i) w in
  outcome (setCurrentAudio i) w = Normal tt
  ∧ _currentAudioIndex (this w') = Some i
  ∧ ∃ t h,
      srcs (_options (this w)) !! Z.to_nat i = Some t
      ∧ _currentAudio (this w') = Some h
      ∧ audios w !! h = None
      ∧ current w' = Some (selected_audio (resolve t))
      ∧ Audio.src (selected_audio (resolve t))
        = match t with SrcString s => s | SrcObject o => audio o end.
Proof.
  intros Hw Hi w'. destruct (entry_valid _ _ Hi) as (t & Hl & Ht).
  unfold outcome, after in *. subst w'. rewrite (setCurrentAudio_run w i t Hw Ht).
  cbn [fst snd]. split; [done|]. split; [done|].
  exists t, (length (audios w)). split; [done|]. split; [done|].
  split; [by apply lookup_ge_None_2|]. split; [apply selected_current|].
  by destruct t.
Qed.

Lemma setCurrentAudio_selects_track_witness :
  let w := playing_first abc in
  let w' := after (setCurrentAudio 2) w in
  outcome (setCurrentAudio 2) w = Normal tt
  ∧ _currentAudioIndex (this w') = Some 2
  ∧ ∃ t h,
      srcs (_options (this w)) !! Z.to_nat 2 = Some t
      ∧ _currentAudio (this w') = Some h
      ∧ audios w !! h = None
      ∧ current w' = Some (selected_audio (resolve t))
      ∧ Audio.src (selected_audio (resolve t))
        = match t with SrcString s => s | SrcObject o => audio o end.
Proof.
  apply (setCurrentAudio_selects_track (playing_first abc) 2).
  - intros h Hh. vm_compute in Hh. injection Hh as <-. vm_compute. eauto.
  - vm_compute. split; [discriminate|reflexivity].
Defined.

(** C1, amended.  For every track list and every valid index [i], the
    volume [setCurrentAudio(i)] applies to the newly created handle is
    the default 75 % (0.75 on the media element), whatever the volume of
    the previous handle was: the method calls [_setAudioVolume(75)], and
    the player keeps no current volume to re-apply. *)
Theorem setCurrentAudio_applies_default_volume w i :
  handle_exists w →
  0 ≤ i < Z.of_nat (length (srcs (_options (this w)))) →
  handle_volume (after (setCurrentAudio i) w) = Some (percent 75)
  ∧ percent 75 = 0.75%float.
Proof.
  intros Hw Hi. destruct (entry_valid _ _ Hi) as (t & _ & Ht).
  unfold after, handle_volume. rewrite (setCurrentAudio_run w i t Hw Ht).
  cbn [snd]. rewrite selected_current. split; reflexivity.
Qed.

Lemma playing_first_handle_exists : handle_exists (playing_first abc).
Proof. intros h Hh. vm_compute in Hh. injection Hh as <-. vm_compute. eauto. Qed.

Lemma at_40_handle_exists : handle_exists (at_40 abc).
Proof. intros h Hh. vm_compute in Hh. injection Hh as <-. vm_compute. eauto. Qed.

Lemma setCurrentAudio_applies_default_volume_witness :
  handle_volume (after (setCurrentAudio 1) (at_40 abc)) = Some (percent 75)
  ∧ percent 75 = 0.75%float.
Proof.
  apply (setCurrentAudio_applies_default_volume (at_40 abc) 1).
  - exact at_40_handle_exists.
  - vm_compute. split; [discriminate|reflexivity].
Defined.

(** C1 with the previous volume re-applied fails: with the volume bar
    moved to 40 on the first track, [setCurrentAudio(1)] gives the new
    handle the volume 0.75, not the 0.4 in effect on the previous
    handle. *)
Lemma setCurrentAudio_reapplies_volume_counterexample :
  ¬ (∀ w i,
       handle_exists w →
       0 ≤ i < Z.of_nat (length (srcs (_options (this w)))) →
       handle_volume (after (setCurrentAudio i) w)
       = Some (default (percent 75) (handle_volume w))).
Proof.
  intros H. specialize (H (at_40 abc) 1 at_40_handle_exists).
  assert (Hi : 0 ≤ 1 < Z.of_nat (length (srcs (_options (this (at_40 abc))))))
    by (vm_compute; split; [discriminate|reflexivity]).
  specialize (H Hi). vm_compute in H. discriminate H.
Qed.

(** ** A missing entry *)

(** C9.  When [setCurrentAudio(index)] is called with an index that has
    no entry while a current handle exists, the call pauses the current
    handle and then throws a TypeError on reading [.audio] of
    [undefined].  [currentIndex] and the current handle are what they
    were, and no audio element was created; but the old handle is now
    paused: the failing call is not atomic. *)
Theorem setCurrentAudio_missing_entry_pauses_then_throws w h a i :
  _currentAudio (this w) = Some h →
  audios w !! h = Some a →
  entry (srcs (_options (this w))) i = None →
  let w' := after (setCurrentAudio i) w in
  outcome (setCurrentAudio i) w = Throw TypeError
  ∧ this w' = this w
  ∧ length (audios w') = length (audios w)
  ∧ audios w' = <[h := Audio.pause a]> (audios w)
  ∧ Audio.paused <$> current w' = Some true
  ∧ console w' = console w ++ [AudioIsNowPaused].
Proof.
  intros Hc Ha Hi w'.
  assert (Hw : handle_exists w).
  { intros h' Hh'. rewrite Hc in Hh'. injection Hh' as <-. eauto. }
  unfold outcome, after in *. subst w'. rewrite (setCurrentAudio_throw w i Hw Hi).
  cbn [fst snd]. split; [done|]. split; [apply paused_current_this|].
  split; [apply paused_current_length|].
  unfold current, paused_current. rewrite Hc, Ha.
  cbn [this audios console with_console with_audios]. rewrite Hc.
  split; [done|]. split; [|done].
  cbn [mbind option_bind]. rewrite list_lookup_insert_eq; [done|].
  by eapply lookup_lt_Some.
Qed.

Lemma setCurrentAudio_missing_entry_pauses_then_throws_witness :
  let w := after _playAudio (playing_first abc) in
  let w' := after (setCurrentAudio 3) w in
  Audio.paused <$> current w = Some false
  ∧ outcome (setCurrentAudio 3) w = Throw TypeError
  ∧ this w' = this w
  ∧ length (audios w') = length (audios w)
  ∧ audios w' = <[0%nat := Audio.pause (Audio.play (selected_audio "a.mp3"))]> (audios w)
  ∧ Audio.paused <$> current w' = Some true
  ∧ console w' = console w ++ [AudioIsNowPaused].
Proof.
  split; [reflexivity|].
  apply (setCurrentAudio_missing_entry_pauses_then_throws
           (after _playAudio (playing_first abc)) 0%nat
           (Audio.play (selected_audio "a.mp3")) 3); reflexivity.
Defined.

(** ** Autoplay *)

Lemma fire_loadeddata w h (s : string) :
  audios w !! h = Some (selected_audio s) →
  fire h "loadeddata" w
  = (reported (audio_listener audio_loadeddata h) ≫= λ _, mret tt) w.
Proof. intros Hh. unfold fire. prim. rewrite Hh. reflexivity. Qed.

Lemma selected_handle i (s : string) w :
  _currentAudio (this (selected i s w)) = Some (length (audios w))
  ∧ audios (selected i s w) !! length (audios w) = Some (selected_audio s)
  ∧ _options (this (selected i s w)) = _options (this w).
Proof.
  unfold selected. cbn. rewrite paused_current_this.
  split; [done|]. split; [|done]. rewrite <- paused_current_length. apply lookup_snoc.
Qed.

(** C7.  After [setCurrentAudio(i)] on a valid index (index 0 in
    particular) the new handle is paused.  When the browser then fires
    [loadeddata] at the new handle and the player was constructed with
    [autoplay: true], the listener calls [_playAudio()]: the handle is no
    longer paused, with no [_toggleAudioPlayback()] call.  With
    [autoplay: false], or without [autoplay], the event changes nothing. *)
Theorem loadeddata_starts_playback_iff_autoplay w i :
  handle_exists w →
  0 ≤ i < Z.of_nat (length (srcs (_options (this w)))) →
  let h := length (audios w) in
  let w1 := after (setCurrentAudio i) w in
  let w2 := after (fire h "loadeddata") w1 in
  _currentAudio (this w1) = Some h
  ∧ Audio.paused <$> current w1 = Some true
  ∧ (autoplay (_options (this w)) = Some true →
       Audio.paused <$> current w2 = Some false
       ∧ console w2 = console w1 ++ [AudioIsNowPlaying])
  ∧ (autoplay (_options (this w)) ≠ Some true → w2 = w1).
Proof.
  intros Hw Hi h w1 w2. destruct (entry_valid _ _ Hi) as (t & _ & Ht).
  unfold after in w1, w2. subst w2 w1 h.
  rewrite (setCurrentAudio_run w i t Hw Ht). cbn [snd].
  destruct (selected_handle i (resolve t) w) as (Hc & Ha & Ho).
  split; [exact Hc|]. split; [by rewrite selected_current|].
  rewrite (fire_loadeddata _ _ _ Ha).
  rewrite bind_run. unfold reported, audio_listener.
  rewrite bind_run. cbn [gets]. rewrite Ho.
  destruct (autoplay (_options (this w))) as [[|]|]; split; try done.
  intros _. rewrite (playAudio_run _ _ _ Hc Ha). cbn [snd mret M_ret].
  unfold current. cbn [this audios console with_console with_audios].
  rewrite Hc. cbn [mbind option_bind]. split; [|done].
  rewrite list_lookup_insert_eq; [done|]. by eapply lookup_lt_Some.
Qed.

Lemma loadeddata_starts_playback_iff_autoplay_witness :
  let w := mounted abc in
  let w1 := after (setCurrentAudio 0) w in
  let w2 := after (fire 0%nat "loadeddata") w1 in
  autoplay (_options (this w)) = Some true
  ∧ Audio.paused <$> current w1 = Some true
  ∧ Audio.paused <$> current w2 = Some false
  ∧ console w2 = console w1 ++ [AudioIsNowPlaying].
Proof.
  assert (Hw : handle_exists (mounted abc)) by (intros h Hh; vm_compute in Hh; discriminate).
  assert (Hi : 0 ≤ 0 < Z.of_nat (length (srcs (_options (this (mounted abc))))))
    by (vm_compute; split; [discriminate|reflexivity]).
  destruct (loadeddata_starts_playback_iff_autoplay (mounted abc) 0 Hw Hi)
    as (_ & H1 & H2 & _).
  split; [reflexivity|]. split; [exact H1|]. exact (H2 eq_refl).
Defined.

(** ** Skipping *)

Lemma skipNext_run w :
  let n := index_number (_currentAudioIndex (this w)) + 1 in
  _skipNext w
  = if truthy (entry (srcs (_options (this w))) n)
    then (setCurrentAudio n ≫= λ _, console_log SkipNext) w
    else (Normal tt, with_console (λ c, c ++ [SkipNext]) w).
Proof.
  intros n. unfold _skipNext. prim. prim. fold n.
  by destruct (truthy (entry (srcs (_options (this w))) n)).
Qed.

Lemma skipPrevious_run w :
  let n := index_number (_currentAudioIndex (this w)) - 1 in
  _skipPrevious w
  = if truthy (entry (srcs (_options (this w))) n)
    then setCurrentAudio n w
    else (Normal tt, w).
Proof.
  intros n. unfold _skipPrevious. prim. prim. fold n.
  by destruct (truthy (entry (srcs (_options (this w))) n)).
Qed.

Lemma truthy_entry (l : list track) i :
  truthy (entry l i) = true → ∃ t, entry l i = Some t.
Proof. destruct (entry l i) as [t|]; [eauto|discriminate]. Qed.

Lemma entry_past_end (l : list track) : entry l (Z.of_nat (length l)) = None.
Proof.
  unfold entry. destruct (Z.ltb_spec (Z.of_nat (length l)) 0); [done|].
  apply lookup_ge_None_2. lia.
Qed.

(** C3, amended.  [_skipNext] computes [currentIndex + 1] and
    [_skipPrevious] computes [currentIndex - 1]; each calls
    [setCurrentAudio] with that index if and only if the entry there is
    truthy, that is, exists and is not the empty string, and the call
    makes it the current index.  Otherwise the player and the audio
    elements are left as they were ([_skipNext] still writes its console
    line).  In particular [_skipNext] at the last index and
    [_skipPrevious] at index 0 change nothing: there is no wraparound. *)
Theorem skip_calls_setCurrentAudio_iff_truthy w :
  handle_exists w →
  let l := srcs (_options (this w)) in
  let next := index_number (_currentAudioIndex (this w)) + 1 in
  let previous := index_number (_currentAudioIndex (this w)) - 1 in
  (truthy (entry l next) = true →
     _skipNext w = (setCurrentAudio next ≫= λ _, console_log SkipNext) w
     ∧ _currentAudioIndex (this (after _skipNext w)) = Some next)
  ∧ (truthy (entry l next) = false →
     _skipNext w = (Normal tt, with_console (λ c, c ++ [SkipNext]) w))
  ∧ (truthy (entry l previous) = true →
     _skipPrevious w = setCurrentAudio previous w
     ∧ _currentAudioIndex (this (after _skipPrevious w)) = Some previous)
  ∧ (truthy (entry l previous) = false → _skipPrevious w = (Normal tt, w))
  ∧ (_currentAudioIndex (this w) = Some (Z.of_nat (length l) - 1) →
     _skipNext w = (Normal tt, with_console (λ c, c ++ [SkipNext]) w))
  ∧ (_currentAudioIndex (this w) = Some 0 → _skipPrevious w = (Normal tt, w)).
Proof.
  intros Hw l next previous.
  pose proof (skipNext_run w) as Hn. pose proof (skipPrevious_run w) as Hp.
  cbv zeta in Hn, Hp. fold l next in Hn. fold l previous in Hp.
  split; [|split; [|split; [|split; [|split]]]].
  - intros H. destruct (truthy_entry _ _ H) as [t Ht]. split.
    + by rewrite Hn, H.
    + unfold after. rewrite Hn, H, bind_run, (setCurrentAudio_run w next t Hw Ht).
      reflexivity.
  - intros H. by rewrite Hn, H.
  - intros H. destruct (truthy_entry _ _ H) as [t Ht]. split.
    + by rewrite Hp, H.
    + unfold after. rewrite Hp, H, (setCurrentAudio_run w previous t Hw Ht).
      reflexivity.
  - intros H. by rewrite Hp, H.
  - intros H. rewrite Hn.
    assert (Heq : next = Z.of_nat (length l))
      by (subst next; rewrite H; unfold index_number; simpl; lia).
    by rewrite Heq, entry_past_end.
  - intros H. rewrite Hp.
    assert (Heq : previous = -1) by (subst previous; by rewrite H).
    by rewrite Heq.
Qed.

Lemma skip_calls_setCurrentAudio_iff_truthy_witness :
  let w := playing_first abc in
  let w1 := after _skipNext w in
  let w2 := after _skipNext w1 in
  _currentAudioIndex (this w) = Some 0
  ∧ _skipPrevious w = (Normal tt, w)
  ∧ _currentAudioIndex (this w1) = Some 1
  ∧ _currentAudioIndex (this w2) = Some 2
  ∧ _skipNext w2 = (Normal tt, with_console (λ c, c ++ [SkipNext]) w2).
Proof.
  intros w w1 w2.
  assert (Hw : handle_exists w) by exact playing_first_handle_exists.
  assert (Hw2 : handle_exists w2).
  { intros h Hh. vm_compute in Hh. injection Hh as <-. vm_compute. eauto. }
  destruct (skip_calls_setCurrentAudio_iff_truthy w Hw) as (H1 & _ & _ & _ & _ & H6).
  destruct (skip_calls_setCurrentAudio_iff_truthy w2 Hw2) as (_ & _ & _ & _ & H5 & _).
  split; [reflexivity|]. split; [exact (H6 eq_refl)|].
  split; [exact (proj2 (H1 eq_refl))|]. split; [reflexivity|]. exact (H5 eq_refl).
Defined.

(** C3 with the existence of a track as the test fails: in a list of
    three tracks whose second entry is the empty string, with the first
    track current, a track exists at position 1, yet [_skipNext] does not
    call [setCurrentAudio(1)]: the index stays 0. *)
Lemma skipNext_iff_track_exists_counterexample :
  ¬ (∀ w,
       handle_exists w →
       let next := index_number (_currentAudioIndex (this w)) + 1 in
       is_Some (entry (srcs (_options (this w))) next) →
       _currentAudioIndex (this (after _skipNext w)) = Some next).
Proof.
  intros H. specialize (H (playing_first with_blank)).
  assert (Hw : handle_exists (playing_first with_blank)).
  { intros h Hh. vm_compute in Hh. injection Hh as <-. vm_compute. eauto. }
  specialize (H Hw). cbv zeta in H.
  assert (Hs : is_Some (entry (srcs (_options (this (playing_first with_blank))))
                          (index_number (_currentAudioIndex (this (playing_first with_blank))) + 1)))
    by (vm_compute; eauto).
  specialize (H Hs). vm_compute in H. discriminate H.
Qed.

(** C10.  [_skipNext] and [_skipPrevious] test the entry at the target
    position for truthiness.  So whenever the entry at
    [currentIndex + 1] (respectively [currentIndex - 1]) is the empty
    string, the skip does nothing to the player, although the track list
    has an entry at that position. *)
Theorem skip_over_empty_string_is_noop w :
  let l := srcs (_options (this w)) in
  let next := index_number (_currentAudioIndex (this w)) + 1 in
  let previous := index_number (_currentAudioIndex (this w)) - 1 in
  (entry l next = Some (SrcString EmptyString) →
     _skipNext w = (Normal tt, with_console (λ c, c ++ [SkipNext]) w)
     ∧ this (after _skipNext w) = this w
     ∧ audios (after _skipNext w) = audios w)
  ∧ (entry l previous = Some (SrcString EmptyString) → _skipPrevious w = (Normal tt, w)).
Proof.
  intros l next previous.
  pose proof (skipNext_run w) as Hn. pose proof (skipPrevious_run w) as Hp.
  cbv zeta in Hn, Hp. fold l next in Hn. fold l previous in Hp.
  split; intros H.
  - unfold after. rewrite Hn, H. done.
  - rewrite Hp, H. done.
Qed.

Lemma skip_over_empty_string_is_noop_witness :
  let w := playing_first with_blank in
  let w' := after (setCurrentAudio 2) (mounted with_blank) in
  srcs (_options (this w)) !! 1%nat = Some (SrcString EmptyString)
  ∧ _skipNext w = (Normal tt, with_console (λ c, c ++ [SkipNext]) w)
  ∧ _currentAudioIndex (this (after _skipNext w)) = Some 0
  ∧ _currentAudioIndex (this w') = Some 2
  ∧ _skipPrevious w' = (Normal tt, w').
Proof.
  intros w w'.
  destruct (skip_over_empty_string_is_noop w) as [H1 _].
  destruct (skip_over_empty_string_is_noop w') as [_ H2].
  split; [reflexivity|]. split; [exact (proj1 (H1 eq_refl))|].
  split; [reflexivity|]. split; [reflexivity|]. exact (H2 eq_refl).
Defined.

(** ** The index invariant *)

Lemma keeps_bind {A B : Type} (m : M A) (f : A → M B) :
  keeps_key m → (∀ x, keeps_key (f x)) → keeps_key (m ≫= f).
Proof.
  intros Hm Hf w. specialize (Hm w). unfold after in *. rewrite bind_run.
  destruct (m w) as [[x|e] w']; cbn [snd] in *; [|done].
  rewrite <- Hm. apply Hf.
Qed.

Lemma preserves_bind {A B : Type} (m : M A) (f : A → M B) :
  preserves m → (∀ x, preserves (f x)) → preserves (m ≫= f).
Proof.
  intros Hm Hf w Hw. specialize (Hm w Hw). unfold after in *. rewrite bind_run.
  destruct (m w) as [[x|e] w']; cbn [snd] in *; [|done].
  by apply Hf.
Qed.

Lemma keeps_preserves {A : Type} (m : M A) : keeps_key m → preserves m.
Proof.
  intros Hm w Hw h Hh. specialize (Hm w). unfold key in Hm.
  injection Hm as Ho Hc Hi. rewrite Hc in Hh. rewrite Ho, Hi. by apply (Hw h).
Qed.

Ltac keeps_prim :=
  intros w; unfold after, key; cbv beta delta
    [gets modify console_log throw mret M_ret currentAudio audio_get audio_update
     audio_assign new_Audio element_get element_update new_Element property
     container_appendChild];
  repeat case_match; simpl; congruence.

Lemma keeps_gets {A : Type} (f : World → A) : keeps_key (gets f).
Proof. keeps_prim. Qed.
Lemma keeps_ret {A : Type} (x : A) : keeps_key (mret x).
Proof. keeps_prim. Qed.
Lemma keeps_throw {A : Type} (e : exn) : keeps_key (throw (A:=A) e).
Proof. keeps_prim. Qed.
Lemma keeps_console_log (l : log) : keeps_key (console_log l).
Proof. keeps_prim. Qed.
Lemma keeps_currentAudio : keeps_key currentAudio.
Proof. keeps_prim. Qed.
Lemma keeps_audio_get {A : Type} h (f : Audio.t → A) : keeps_key (audio_get h f).
Proof. keeps_prim. Qed.
Lemma keeps_audio_update h f : keeps_key (audio_update h f).
Proof. keeps_prim. Qed.
Lemma keeps_audio_assign h f : keeps_key (audio_assign h f).
Proof. keeps_prim. Qed.
Lemma keeps_new_Audio s : keeps_key (new_Audio s).
Proof. keeps_prim. Qed.
Lemma keeps_element_get {A : Type} r (f : Element.t → A) : keeps_key (element_get r f).
Proof. keeps_prim. Qed.
Lemma keeps_element_update r f : keeps_key (element_update r f).
Proof. keeps_prim. Qed.
Lemma keeps_new_Element tag attrs : keeps_key (new_Element tag attrs).
Proof. keeps_prim. Qed.
Lemma keeps_property {A : Type} name (o : list (string * A)) : keeps_key (property name o).
Proof. intros w. unfold property. destruct (get name o); reflexivity. Qed.
Lemma keeps_container_appendChild r : keeps_key (container_appendChild r).
Proof. keeps_prim. Qed.
Lemma keeps_modify (f : World → World) : (∀ w, key (f w) = key w) → keeps_key (modify f).
Proof. intros H w. apply H. Qed.

Create HintDb keeps.
#[local] Hint Resolve keeps_gets keeps_ret keeps_throw keeps_console_log keeps_currentAudio
  keeps_audio_get keeps_audio_update keeps_audio_assign keeps_new_Audio keeps_element_get
  keeps_element_update keeps_new_Element keeps_property keeps_container_appendChild : keeps.

Ltac keeps :=
  repeat first
    [ apply keeps_bind; [|intros ?]
    | solve [eauto with keeps]
    | apply keeps_modify; intros ?; reflexivity
    | match goal with |- keeps_key (match ?x with _ => _ end) => destruct x end
    | match goal with |- keeps_key (if ?x then _ else _) => destruct x end ].

Lemma keeps_playAudio : keeps_key _playAudio.
Proof. unfold _playAudio. keeps. Qed.
Lemma keeps_pauseAudio : keeps_key _pauseAudio.
Proof. unfold _pauseAudio. keeps. Qed.
Lemma keeps_setAudioVolume v : keeps_key (_setAudioVolume v).
Proof. unfold _setAudioVolume. keeps. Qed.
Lemma keeps_setAudioCurrentTime s : keeps_key (_setAudioCurrentTime s).
Proof. unfold _setAudioCurrentTime. keeps. Qed.
#[local] Hint Resolve keeps_playAudio keeps_pauseAudio keeps_setAudioVolume
  keeps_setAudioCurrentTime : keeps.
Lemma keeps_mute : keeps_key _mute.
Proof. unfold _mute. keeps. Qed.
Lemma keeps_unmute : keeps_key _unmute.
Proof. unfold _unmute. keeps. Qed.
#[local] Hint Resolve keeps_mute keeps_unmute : keeps.
Lemma keeps_toggleAudioVolume : keeps_key _toggleAudioVolume.
Proof. unfold _toggleAudioVolume. keeps. Qed.
Lemma keeps_toggleAudioPlayback : keeps_key _toggleAudioPlayback.
Proof. unfold _toggleAudioPlayback. keeps. Qed.
Lemma keeps_audio_listener cb h : keeps_key (audio_listener cb h).
Proof. destruct cb; unfold audio_listener, audioPlaybackProgressControl; keeps. Qed.

Lemma index_valid_key w w' : key w' = key w → index_valid w → index_valid w'.
Proof.
  unfold key. intros Hk Hw h Hh. injection Hk as Ho Hc Hi.
  rewrite Hc in Hh. rewrite Ho, Hi. by apply (Hw h).
Qed.

Lemma entry_Some_valid (l : list track) i t :
  entry l i = Some t → 0 ≤ i < Z.of_nat (length l).
Proof.
  unfold entry. destruct (Z.ltb_spec i 0); [done|].
  intros Ht. apply lookup_lt_Some in Ht. lia.
Qed.

Lemma index_valid_selected w h i t :
  _currentAudio (this w) = Some h →
  _currentAudioIndex (this w) = Some i →
  entry (srcs (_options (this w))) i = Some t →
  index_valid w.
Proof. intros Hc Hi Ht h' _. exists i. split; [done|]. by eapply entry_Some_valid. Qed.

Lemma preserves_setCurrentAudio i : preserves (setCurrentAudio i).
Proof.
  intros w Hw. unfold setCurrentAudio, after.
  rewrite bind_run. cbn [gets]. rewrite bind_run. cbn [gets].
  rewrite bind_run.
  assert (Hk : keeps_key (if _currentAudio (this w) is Some _ then _pauseAudio else mret tt))
    by (destruct (_currentAudio (this w)); eauto with keeps).
  specialize (Hk w). unfold after in Hk.
  destruct ((if _currentAudio (this w) is Some _ then _pauseAudio else mret tt) w)
    as [[[]|e] w1]; cbn [snd] in Hk; [|by apply (index_valid_key w)].
  rewrite bind_run.
  destruct (entry (srcs (_options (this w))) i) as [t|] eqn:Ht;
    [|by apply (index_valid_key w)].
  assert (Hsrc : match t return M string with
                 | SrcString s => mret s
                 | SrcObject o => mret (audio o)
                 end w1 = (Normal (resolve t), w1)) by (by destruct t).
  rewrite Hsrc. clear Hsrc.
  rewrite bind_run. cbn [new_Audio].
  rewrite bind_run. cbn [modify]. rewrite bind_run. cbn [modify].
  match goal with |- index_valid (?R ?w3).2 =>
    assert (Hr : keeps_key R) by keeps;
    apply (index_valid_key w3); [apply Hr|]
  end.
  injection Hk as Ho _ _.
  eapply index_valid_selected; cbn; [reflexivity|reflexivity|].
  rewrite Ho. exact Ht.
Qed.

Lemma preserves_skipPrevious : preserves _skipPrevious.
Proof.
  unfold _skipPrevious.
  apply preserves_bind; [apply keeps_preserves; eauto with keeps|intros idx].
  cbv zeta.
  apply preserves_bind; [apply keeps_preserves; eauto with keeps|intros e].
  destruct (truthy e); [apply preserves_setCurrentAudio|apply keeps_preserves; eauto with keeps].
Qed.

Lemma preserves_skipNext : preserves _skipNext.
Proof.
  unfold _skipNext.
  apply preserves_bind; [apply keeps_preserves; eauto with keeps|intros idx].
  cbv zeta.
  apply preserves_bind; [apply keeps_preserves; eauto with keeps|intros e].
  apply preserves_bind; [|intros; apply keeps_preserves; eauto with keeps].
  destruct (truthy e); [apply preserves_setCurrentAudio|apply keeps_preserves; eauto with keeps].
Qed.

Lemma preserves_reported (m : M unit) : preserves m → preserves (reported m).
Proof.
  intros Hm w Hw. specialize (Hm w Hw). unfold after, reported in *.
  destruct (m w) as [[[]|e] w']; cbn [snd] in *; [done|].
  by apply (index_valid_key w').
Qed.

Lemma preserves_each {A : Type} (f : A → M unit) (l : list A) :
  (∀ x, preserves (f x)) → preserves (each f l).
Proof.
  intros Hf. induction l as [|x l IH]; cbn [each].
  - apply keeps_preserves; eauto with keeps.
  - apply preserves_bind; [apply Hf|intros _; exact IH].
Qed.

Lemma preserves_ui_listener cb v : preserves (ui_listener cb v).
Proof.
  destruct cb; cbn [ui_listener];
    first [ apply preserves_skipNext | apply preserves_skipPrevious
          | apply keeps_preserves;
            first [ apply keeps_toggleAudioVolume | apply keeps_toggleAudioPlayback
                  | eauto with keeps ] ].
Qed.

Lemma preserves_run o : preserves (run o).
Proof.
  destruct o; cbn [run];
    try first [ apply preserves_skipNext | apply preserves_skipPrevious
          | apply preserves_setCurrentAudio
          | apply keeps_preserves;
            first [ apply keeps_toggleAudioVolume | apply keeps_toggleAudioPlayback
                  | solve [eauto with keeps] ] ].
  - unfold fire. apply preserves_bind; [apply keeps_preserves; eauto with keeps|intros ls].
    apply preserves_each. intros l. apply preserves_reported, keeps_preserves, keeps_audio_listener.
  - unfold dispatch. apply preserves_bind; [apply keeps_preserves; eauto with keeps|intros ls].
    apply preserves_each. intros l. apply preserves_reported, preserves_ui_listener.
Qed.

Lemma keeps_addChild parent name child : keeps_key (addChild parent name child).
Proof. unfold addChild. keeps. Qed.

Lemma keeps_createElement : ∀ options, keeps_key (_createElement options).
Proof.
  fix IH 1. intros [name tag attributes children]. cbn [_createElement].
  apply keeps_bind; [eauto with keeps|intros element].
  apply keeps_bind; [|intros; eauto with keeps].
  induction children as [|c cs IHcs]; [eauto with keeps|].
  apply keeps_bind; [apply IH|intros childElement].
  apply keeps_bind; [apply keeps_addChild|intros _; exact IHcs].
Qed.

Lemma keeps_each {A : Type} (f : A → M unit) (l : list A) :
  (∀ x, keeps_key (f x)) → keeps_key (each f l).
Proof.
  intros Hf. induction l as [|x l IH]; cbn [each]; [eauto with keeps|].
  apply keeps_bind; [apply Hf|intros _; exact IH].
Qed.

#[local] Hint Resolve keeps_addChild keeps_createElement : keeps.

Lemma keeps_mount : keeps_key _mount.
Proof.
  unfold _mount, declare, control, createIcon.
  repeat first
    [ apply keeps_bind; [|intros ?]
    | solve [eauto with keeps]
    | apply keeps_modify; intros ?; reflexivity ].
  apply keeps_each. intros [index element].
  keeps.
Qed.

Lemma constructor_after options page :
  (constructor options page).2
  = after _mount (mkWorld (mkPlayer options None [] None Null) [] [] page []).
Proof. unfold constructor, after. reflexivity. Qed.

(** C5.  Whenever a current handle exists, [currentIndex] is a valid
    index into the track sequence.  The constructor establishes this (no
    handle exists yet), and every controller operation preserves it: each
    method, each event the browser fires at an audio element, each event
    it fires at a control.  The operations need not even be invoked
    within their preconditions: [setCurrentAudio] on an index without an
    entry throws before it assigns anything, and the skip methods test
    the entry first.  Hence the invariant holds after any run of
    operations on a new player. *)
Theorem index_valid_invariant :
  (∀ options page, index_valid (constructor options page).2)
  ∧ (∀ o w, index_valid w → index_valid (after (run o) w))
  ∧ (∀ options page os,
       index_valid (after (run_all os) (constructor options page).2)).
Proof.
  assert (Hinit : ∀ options page, index_valid (constructor options page).2).
  { intros options page. rewrite constructor_after.
    eapply index_valid_key; [apply keeps_mount|].
    intros h Hh. discriminate Hh. }
  split; [exact Hinit|]. split; [exact preserves_run|].
  intros options page os. unfold run_all.
  apply (preserves_each (λ o, reported (run o)) os); [|apply Hinit].
  intros o. apply preserves_reported, preserves_run.
Qed.

Lemma index_valid_invariant_witness :
  index_valid (playing_first abc)
  ∧ index_valid (after (run call_skipNext) (playing_first abc))
  ∧ _currentAudioIndex (this (after (run call_skipNext) (playing_first abc))) = Some 1.
Proof.
  assert (H : index_valid (playing_first abc)).
  { intros h _. exists 0. vm_compute. split; [reflexivity|].
    split; [discriminate|reflexivity]. }
  split; [exact H|]. split; [|reflexivity].
  exact (proj1 (proj2 index_valid_invariant) call_skipNext (playing_first abc) H).
Defined.

(** ** Volume and mute *)

Lemma percent_facts_nat (n : nat) : (n ≤ 100)%nat → percent_facts (Z.of_nat n).
Proof.
  intros Hn.
  do 101 (destruct n as [|n]; [vm_compute; repeat split; reflexivity|]).
  lia.
Qed.

Lemma percent_facts_all k : 0 ≤ k ≤ 100 → percent_facts k.
Proof.
  intros Hk. rewrite <- (Z2Nat.id k) by lia. apply percent_facts_nat. lia.
Qed.

Lemma assign_volume_accepted x a :
  accepted x = true → Audio.assign_volume x a = inr (Audio.set_volume x a).
Proof.
  unfold accepted, Audio.assign_volume. intros [-> ->]%andb_true_iff. reflexivity.
Qed.

Lemma assign_volume_refused x a :
  accepted x = false → ∃ e, Audio.assign_volume x a = inl e.
Proof.
  unfold accepted, Audio.assign_volume.
  destruct (is_finite x); cbn [negb andb]; [|eauto].
  intros ->. eauto.
Qed.

Lemma percent_accepted k : 0 ≤ k ≤ 100 → accepted (percent k) = true.
Proof.
  intros Hk. destruct (percent_facts_all k Hk) as (H1 & H2 & H3 & _).
  unfold accepted. by rewrite H1, H2, H3.
Qed.

(** The volume of the current handle after [_setAudioVolume(v)]: the
    new volume when the media element takes it, the old one otherwise;
    nothing else about the handle or the fields changes. *)
Lemma setAudioVolume_volume w h a v :
  _currentAudio (this w) = Some h → audios w !! h = Some a →
  let x := (ToNumber v / 100)%float in
  let w' := after (_setAudioVolume v) w in
  this w' = this w
  ∧ ∃ a', audios w' !! h = Some a'
          ∧ Audio.volume a' = (if accepted x then x else Audio.volume a).
Proof.
  intros Hc Ha x w'. subst w'. unfold after, _setAudioVolume.
  rewrite bind_run. unfold currentAudio. rewrite Hc.
  rewrite bind_run. unfold audio_assign. rewrite Ha. fold x.
  destruct (accepted x) eqn:Hx.
  - rewrite (assign_volume_accepted x a Hx).
    assert (Hl : <[h := Audio.set_volume x a]> (audios w) !! h = Some (Audio.set_volume x a)).
    { apply list_lookup_insert_eq. by eapply lookup_lt_Some. }
    destruct v; cbn; eauto.
  - destruct (assign_volume_refused x a Hx) as [e ->]. cbn. eauto.
Qed.

Lemma mute_run w h a :
  _currentAudio (this w) = Some h → audios w !! h = Some a →
  _mute w
  = _setAudioVolume (Num 0)
      (with_this (set_lastAudioVolume (Num (Audio.volume a * 100)%float)) w).
Proof.
  intros Hc Ha. unfold _mute.
  rewrite bind_run. unfold currentAudio at 1. rewrite Hc.
  rewrite bind_run. unfold audio_get. rewrite Ha.
  rewrite bind_run. reflexivity.
Qed.

Lemma mute_volume w h a :
  _currentAudio (this w) = Some h → audios w !! h = Some a →
  let w' := after _mute w in
  _currentAudio (this w') = Some h
  ∧ _lastAudioVolume (this w') = Num (Audio.volume a * 100)%float
  ∧ ∃ a', audios w' !! h = Some a' ∧ Audio.volume a' = 0%float.
Proof.
  intros Hc Ha w'. subst w'. unfold after. rewrite (mute_run w h a Hc Ha).
  set (w1 := with_this _ w).
  destruct (setAudioVolume_volume w1 h a (Num 0) Hc Ha) as (Ht & a' & Ha' & Hv).
  unfold after in *. rewrite Ht. split; [exact Hc|]. split; [reflexivity|].
  exists a'. split; [exact Ha'|]. exact Hv.
Qed.

Lemma unmute_volume w h a :
  _currentAudio (this w) = Some h → audios w !! h = Some a →
  let x := (ToNumber (_lastAudioVolume (this w)) / 100)%float in
  let w' := after _unmute w in
  this w' = this w
  ∧ ∃ a', audios w' !! h = Some a'
          ∧ Audio.volume a' = (if accepted x then x else Audio.volume a).
Proof.
  intros Hc Ha x w'. subst w'. unfold after, _unmute.
  rewrite bind_run. cbn [gets].
  apply (setAudioVolume_volume w h a _ Hc Ha).
Qed.

Lemma toggleAudioVolume_run w h a :
  _currentAudio (this w) = Some h → audios w !! h = Some a →
  _toggleAudioVolume w = if PrimFloat.ltb 0 (Audio.volume a) then _mute w else _unmute w.
Proof.
  intros Hc Ha. unfold _toggleAudioVolume.
  rewrite bind_run. unfold currentAudio at 1. rewrite Hc.
  rewrite bind_run. unfold audio_get. rewrite Ha.
  by destruct (PrimFloat.ltb 0 (Audio.volume a)).
Qed.

Lemma audible_volume w h a :
  _currentAudio (this w) = Some h → audios w !! h = Some a →
  handle_volume w = Some (Audio.volume a)
  ∧ audible w = PrimFloat.ltb 0 (Audio.volume a).
Proof.
  intros Hc Ha. unfold audible, handle_volume, current. rewrite Hc. cbn.
  by rewrite Ha.
Qed.

Lemma setAudioVolume_outcome w h a (x : float) :
  _currentAudio (this w) = Some h → audios w !! h = Some a →
  accepted (x / 100)%float = true →
  outcome (_setAudioVolume (Num x)) w = Normal tt.
Proof.
  intros Hc Ha Hx. unfold outcome, _setAudioVolume.
  rewrite bind_run. unfold currentAudio. rewrite Hc.
  rewrite bind_run. unfold audio_assign. rewrite Ha. cbn [ToNumber].
  by rewrite (assign_volume_accepted _ a Hx).
Qed.

(** C2.  For every volume [v] from 0 to 100, whole or not, after
    [_setAudioVolume(v)] the handle volume is [v / 100]; [_mute()] then
    sets the handle volume to 0, and [_unmute()] after it restores the
    handle volume to exactly [v / 100].  All three calls return normally.
    (The percentage [_mute] stores is [v / 100 * 100] in binary64, which
    for some [v] differs from [v] in the last place; dividing it by 100
    again gives [v / 100] exactly.) *)
Theorem mute_unmute_restores_volume w h a (v : float) :
  _currentAudio (this w) = Some h →
  audios w !! h = Some a →
  PrimFloat.leb 0 v = true →
  PrimFloat.leb v 100 = true →
  let w1 := after (_setAudioVolume (Num v)) w in
  let w2 := after _mute w1 in
  let w3 := after _unmute w2 in
  (outcome (_setAudioVolume (Num v)) w = Normal tt
   ∧ outcome _mute w1 = Normal tt
   ∧ outcome _unmute w2 = Normal tt)
  ∧ handle_volume w1 = Some (v / 100)%float
  ∧ handle_volume w2 = Some 0%float
  ∧ handle_volume w3 = Some (v / 100)%float.
Proof.
  intros Hc Ha H0 H100 w1 w2 w3.
  destruct (percent_round_trip v H0 H100) as [Hacc Hround].
  (* the volume is set *)
  destruct (setAudioVolume_volume w h a (Num v) Hc Ha) as (Ht1 & a1 & Ha1 & Hv1).
  fold w1 in Ht1, Ha1. cbn [ToNumber] in Hv1.
  rewrite Hacc in Hv1.
  assert (Hc1 : _currentAudio (this w1) = Some h) by (by rewrite Ht1).
  (* mute *)
  destruct (mute_volume w1 h a1 Hc1 Ha1) as (Hc2 & Hl2 & a2 & Ha2 & Hv2).
  fold w2 in Hc2, Hl2, Ha2. rewrite Hv1 in Hl2.
  (* unmute *)
  destruct (unmute_volume w2 h a2 Hc2 Ha2) as (Ht3 & a3 & Ha3 & Hv3).
  fold w3 in Ht3, Ha3. rewrite Hl2 in Hv3. cbn [ToNumber] in Hv3.
  rewrite Hround, Hacc in Hv3.
  assert (Hc3 : _currentAudio (this w3) = Some h) by (by rewrite Ht3).
  split; [split; [|split]|].
  - by apply (setAudioVolume_outcome w h a).
  - unfold outcome. rewrite (mute_run w1 h a1 Hc1 Ha1).
    by apply (setAudioVolume_outcome _ h a1).
  - unfold outcome, _unmute. rewrite bind_run. cbn [gets]. rewrite Hl2.
    apply (setAudioVolume_outcome w2 h a2 _ Hc2 Ha2). by rewrite Hround.
  - rewrite (proj1 (audible_volume w1 h a1 Hc1 Ha1)), Hv1.
    rewrite (proj1 (audible_volume w2 h a2 Hc2 Ha2)), Hv2.
    rewrite (proj1 (audible_volume w3 h a3 Hc3 Ha3)), Hv3. done.
Qed.

Lemma mute_unmute_restores_volume_witness :
  let w := playing_first abc in
  let w1 := after (_setAudioVolume (Num 12.5)) w in
  let w2 := after _mute w1 in
  let w3 := after _unmute w2 in
  (outcome (_setAudioVolume (Num 12.5)) w = Normal tt
   ∧ outcome _mute w1 = Normal tt
   ∧ outcome _unmute w2 = Normal tt)
  ∧ handle_volume w1 = Some (12.5 / 100)%float
  ∧ handle_volume w2 = Some 0%float
  ∧ handle_volume w3 = Some (12.5 / 100)%float.
Proof.
  apply (mute_unmute_restores_volume (playing_first abc) 0%nat
           (selected_audio "a.mp3") 12.5);
    [reflexivity|reflexivity|reflexivity|reflexivity].
Defined.

(** ** The volumes a player can reach *)

Lemma keeps_vkey_bind {A B : Type} (m : M A) (f : A → M B) :
  keeps_vkey m → (∀ x, keeps_vkey (f x)) → keeps_vkey (m ≫= f).
Proof.
  intros Hm Hf w. specialize (Hm w). unfold after in *. rewrite bind_run.
  destruct (m w) as [[x|e] w']; cbn [snd] in *; [|done].
  rewrite <- Hm. apply Hf.
Qed.

Lemma vpreserves_bind {A B : Type} (m : M A) (f : A → M B) :
  vpreserves m → (∀ x, vpreserves (f x)) → vpreserves (m ≫= f).
Proof.
  intros Hm Hf w Hw. specialize (Hm w Hw). unfold after in *. rewrite bind_run.
  destruct (m w) as [[x|e] w']; cbn [snd] in *; [|done].
  by apply Hf.
Qed.

Lemma volumes_wf_vkey w w' : vkey w' = vkey w → volumes_wf w → volumes_wf w'.
Proof.
  unfold vkey. intros Hk (H1 & H2 & H3). injection Hk as Hc Hv Hl.
  split; [|split].
  - intros h Hh. rewrite Hc in Hh. apply lookup_lt_is_Some.
    apply H1, lookup_lt_is_Some in Hh.
    by rewrite <- (length_fmap Audio.volume), Hv, length_fmap.
  - intros h a' Ha'.
    assert (Hf : (Audio.volume <$> audios w) !! h = Some (Audio.volume a'))
      by (by rewrite <- Hv, list_lookup_fmap, Ha').
    rewrite list_lookup_fmap in Hf. apply fmap_Some in Hf as (a & Ha & ->).
    by apply (H2 h).
  - by rewrite Hl.
Qed.

Lemma keeps_vkey_vpreserves {A : Type} (m : M A) : keeps_vkey m → vpreserves m.
Proof. intros Hm w Hw. by apply (volumes_wf_vkey w). Qed.

Lemma fmap_insert_same {A B : Type} (f : A → B) (l : list A) (i : nat) (x y : A) :
  l !! i = Some x → f y = f x → f <$> <[i := y]> l = f <$> l.
Proof.
  intros Hx Hf. rewrite list_fmap_insert, Hf. apply list_insert_id.
  by rewrite list_lookup_fmap, Hx.
Qed.

Ltac keeps_vprim :=
  intros w; unfold after, vkey; cbv beta delta
    [gets modify console_log throw mret M_ret currentAudio audio_get
     element_get element_update new_Element property container_appendChild];
  repeat case_match; simpl; congruence.

Lemma keeps_vkey_gets {A : Type} (f : World → A) : keeps_vkey (gets f).
Proof. keeps_vprim. Qed.
Lemma keeps_vkey_ret {A : Type} (x : A) : keeps_vkey (mret x).
Proof. keeps_vprim. Qed.
Lemma keeps_vkey_throw {A : Type} (e : exn) : keeps_vkey (throw (A:=A) e).
Proof. keeps_vprim. Qed.
Lemma keeps_vkey_console_log (l : log) : keeps_vkey (console_log l).
Proof. keeps_vprim. Qed.
Lemma keeps_vkey_currentAudio : keeps_vkey currentAudio.
Proof. keeps_vprim. Qed.
Lemma keeps_vkey_audio_get {A : Type} h (f : Audio.t → A) : keeps_vkey (audio_get h f).
Proof. keeps_vprim. Qed.
Lemma keeps_vkey_element_get {A : Type} r (f : Element.t → A) : keeps_vkey (element_get r f).
Proof. keeps_vprim. Qed.
Lemma keeps_vkey_element_update r f : keeps_vkey (element_update r f).
Proof. keeps_vprim. Qed.
Lemma keeps_vkey_new_Element tag attrs : keeps_vkey (new_Element tag attrs).
Proof. keeps_vprim. Qed.
Lemma keeps_vkey_property {A : Type} name (o : list (string * A)) : keeps_vkey (property name o).
Proof. intros w. unfold property. destruct (get name o); reflexivity. Qed.
Lemma keeps_vkey_container_appendChild r : keeps_vkey (container_appendChild r).
Proof. keeps_vprim. Qed.
Lemma keeps_vkey_modify (f : World → World) :
  (∀ w, vkey (f w) = vkey w) → keeps_vkey (modify f).
Proof. intros H w. apply H. Qed.

Lemma keeps_vkey_audio_update h (f : Audio.t → Audio.t) :
  (∀ a, Audio.volume (f a) = Audio.volume a) → keeps_vkey (audio_update h f).
Proof.
  intros Hf w. unfold after, vkey, audio_update.
  destruct (audios w !! h) as [a|] eqn:Ha; [|done]. cbn.
  by rewrite (fmap_insert_same _ _ _ a).
Qed.

Lemma keeps_vkey_assign_currentTime h x :
  keeps_vkey (audio_assign h (Audio.assign_currentTime x)).
Proof.
  intros w. unfold after, vkey, audio_assign, Audio.assign_currentTime.
  destruct (audios w !! h) as [a|] eqn:Ha; [|done].
  destruct (negb (is_finite x)); [done|]. cbn.
  by rewrite (fmap_insert_same _ _ _ a).
Qed.

Lemma addEventListener_volume event cb a :
  Audio.volume (Audio.addEventListener event cb a) = Audio.volume a.
Proof. unfold Audio.addEventListener. by case_decide. Qed.

Create HintDb vkeeps.
#[local] Hint Resolve keeps_vkey_gets keeps_vkey_ret keeps_vkey_throw keeps_vkey_console_log
  keeps_vkey_currentAudio keeps_vkey_audio_get keeps_vkey_element_get
  keeps_vkey_element_update keeps_vkey_new_Element keeps_vkey_property
  keeps_vkey_container_appendChild keeps_vkey_assign_currentTime : vkeeps.

Ltac vkeeps :=
  repeat first
    [ apply keeps_vkey_bind; [|intros ?]
    | solve [eauto with vkeeps]
    | apply keeps_vkey_modify; intros ?; reflexivity
    | apply keeps_vkey_audio_update; intros ?; reflexivity
    | match goal with |- keeps_vkey (match ?x with _ => _ end) => destruct x end
    | match goal with |- keeps_vkey (if ?x then _ else _) => destruct x end ].

Lemma keeps_vkey_playAudio : keeps_vkey _playAudio.
Proof. unfold _playAudio. vkeeps. Qed.
Lemma keeps_vkey_pauseAudio : keeps_vkey _pauseAudio.
Proof. unfold _pauseAudio. vkeeps. Qed.
Lemma keeps_vkey_setAudioCurrentTime s : keeps_vkey (_setAudioCurrentTime s).
Proof. unfold _setAudioCurrentTime. vkeeps. Qed.
Lemma keeps_vkey_toggleAudioPlayback : keeps_vkey _toggleAudioPlayback.
Proof.
  unfold _toggleAudioPlayback.
  apply keeps_vkey_bind; [eauto with vkeeps|intros h].
  apply keeps_vkey_bind; [eauto with vkeeps|intros [|]];
    [apply keeps_vkey_playAudio|apply keeps_vkey_pauseAudio].
Qed.
#[local] Hint Resolve keeps_vkey_playAudio keeps_vkey_pauseAudio keeps_vkey_setAudioCurrentTime
  keeps_vkey_toggleAudioPlayback : vkeeps.
Lemma keeps_vkey_audio_listener cb h : keeps_vkey (audio_listener cb h).
Proof. destruct cb; unfold audio_listener, audioPlaybackProgressControl; vkeeps. Qed.

Lemma volumes_wf_set_volume w h a x :
  volumes_wf w → audios w !! h = Some a → percent_volume x →
  volumes_wf (with_audios (λ l, <[h := Audio.set_volume x a]> l) w).
Proof.
  intros (H1 & H2 & H3) Ha Hx.
  split; [|split]; cbn [this audios with_audios].
  - intros h' Hh'. cbn [this audios with_audios] in *.
    apply lookup_lt_is_Some. rewrite length_insert.
    by apply lookup_lt_is_Some, H1.
  - intros h' a' Ha'. destruct (decide (h = h')) as [<-|Hne].
    + rewrite list_lookup_insert_eq in Ha' by (by eapply lookup_lt_Some).
      by injection Ha' as <-.
    + rewrite list_lookup_insert_ne in Ha' by done. by apply (H2 h').
  - exact H3.
Qed.

Lemma volumes_wf_console w f : volumes_wf w → volumes_wf (with_console f w).
Proof. by apply volumes_wf_vkey. Qed.

Lemma whole_percent v k : 0 ≤ k ≤ 100 → (ToNumber v / 100)%float = percent k → whole v.
Proof. intros Hk Hv. exists k. by split. Qed.

Lemma vpreserves_setAudioVolume v : whole v → vpreserves (_setAudioVolume v).
Proof.
  intros (k & Hk & Hx) w Hw. unfold after, _setAudioVolume.
  rewrite bind_run. unfold currentAudio.
  destruct (_currentAudio (this w)) as [h|] eqn:Hc; [|done].
  rewrite bind_run. unfold audio_assign.
  destruct (audios w !! h) as [a|] eqn:Ha; [|done].
  rewrite Hx, (assign_volume_accepted _ _ (percent_accepted k Hk)).
  assert (Hw1 := volumes_wf_set_volume w h a (percent k) Hw Ha (ex_intro _ k (conj Hk eq_refl))).
  destruct v; [done|]. by apply volumes_wf_console.
Qed.

Lemma vpreserves_mute : vpreserves _mute.
Proof.
  intros w Hw. unfold after.
  destruct (_currentAudio (this w)) as [h|] eqn:Hc.
  2: { unfold _mute. rewrite bind_run. unfold currentAudio. by rewrite Hc. }
  destruct (audios w !! h) as [a|] eqn:Ha.
  2: { unfold _mute. rewrite bind_run. unfold currentAudio. rewrite Hc.
       rewrite bind_run. unfold audio_get. by rewrite Ha. }
  rewrite (mute_run w h a Hc Ha).
  apply (vpreserves_setAudioVolume (Num 0)).
  - by apply (whole_percent _ 0).
  - destruct Hw as (H1 & H2 & H3). split; [done|]. split; [done|].
    destruct (H2 h a Ha) as (k & Hk & ->). right. eauto.
Qed.

Lemma vpreserves_unmute : vpreserves _unmute.
Proof.
  intros w Hw. unfold after, _unmute. rewrite bind_run. cbn [gets].
  apply vpreserves_setAudioVolume; [|done].
  destruct Hw as (_ & _ & [->|(k & Hk & ->)]).
  - by apply (whole_percent _ 0).
  - apply (whole_percent _ k Hk). cbn [ToNumber].
    by destruct (percent_facts_all k Hk) as (_ & _ & _ & -> & _).
Qed.

Lemma vpreserves_toggleAudioVolume : vpreserves _toggleAudioVolume.
Proof.
  unfold _toggleAudioVolume.
  apply vpreserves_bind; [apply keeps_vkey_vpreserves; eauto with vkeeps|intros h].
  apply vpreserves_bind; [apply keeps_vkey_vpreserves; eauto with vkeeps|intros v].
  destruct (PrimFloat.ltb 0 v); [apply vpreserves_mute|apply vpreserves_unmute].
Qed.

Lemma volumes_wf_paused_current w : volumes_wf w → volumes_wf (paused_current w).
Proof.
  apply volumes_wf_vkey. unfold paused_current.
  destruct (_currentAudio (this w)) as [h|] eqn:Hc; [|done].
  destruct (audios w !! h) as [a|] eqn:Ha; [|done].
  unfold vkey. cbn [this audios with_audios with_console].
  by rewrite (fmap_insert_same Audio.volume _ h a (Audio.pause a) Ha eq_refl).
Qed.

Lemma volumes_wf_selected i s w : volumes_wf w → volumes_wf (selected i s w).
Proof.
  intros Hw. destruct (volumes_wf_paused_current w Hw) as (H1 & H2 & H3).
  unfold selected. split; [|split];
    cbn [this audios with_audios with_this with_console set_currentAudio
         set_currentAudioIndex _currentAudio _lastAudioVolume].
  - intros h Hh.
    cbn [this audios with_audios with_this with_console set_currentAudio
         set_currentAudioIndex _currentAudio] in *.
    injection Hh as <-. rewrite <- paused_current_length.
    rewrite lookup_snoc. eauto.
  - intros h a Ha. apply lookup_app_Some in Ha as [Ha|[_ Ha]]; [by apply (H2 h)|].
    apply list_lookup_singleton_Some in Ha as [_ <-].
    exists 75. split; [lia|reflexivity].
  - exact H3.
Qed.

Lemma vpreserves_setCurrentAudio i : vpreserves (setCurrentAudio i).
Proof.
  intros w Hw. unfold after.
  destruct (entry (srcs (_options (this w))) i) as [t|] eqn:Ht.
  - rewrite (setCurrentAudio_run w i t (proj1 Hw) Ht). by apply volumes_wf_selected.
  - rewrite (setCurrentAudio_throw w i (proj1 Hw) Ht). by apply volumes_wf_paused_current.
Qed.

Lemma vpreserves_skipPrevious : vpreserves _skipPrevious.
Proof.
  unfold _skipPrevious.
  apply vpreserves_bind; [apply keeps_vkey_vpreserves; eauto with vkeeps|intros idx].
  cbv zeta.
  apply vpreserves_bind; [apply keeps_vkey_vpreserves; eauto with vkeeps|intros e].
  destruct (truthy e);
    [apply vpreserves_setCurrentAudio|apply keeps_vkey_vpreserves; eauto with vkeeps].
Qed.

Lemma vpreserves_skipNext : vpreserves _skipNext.
Proof.
  unfold _skipNext.
  apply vpreserves_bind; [apply keeps_vkey_vpreserves; eauto with vkeeps|intros idx].
  cbv zeta.
  apply vpreserves_bind; [apply keeps_vkey_vpreserves; eauto with vkeeps|intros e].
  apply vpreserves_bind; [|intros; apply keeps_vkey_vpreserves; eauto with vkeeps].
  destruct (truthy e);
    [apply vpreserves_setCurrentAudio|apply keeps_vkey_vpreserves; eauto with vkeeps].
Qed.

Lemma vpreserves_reported (m : M unit) : vpreserves m → vpreserves (reported m).
Proof.
  intros Hm w Hw. specialize (Hm w Hw). unfold after, reported in *.
  destruct (m w) as [[[]|e] w']; cbn [snd] in *; [done|].
  by apply volumes_wf_console.
Qed.

Lemma vpreserves_each {A : Type} (f : A → M unit) (l : list A) :
  (∀ x, x ∈ l → vpreserves (f x)) → vpreserves (each f l).
Proof.
  induction l as [|x l IH]; intros Hf; cbn [each].
  - apply keeps_vkey_vpreserves; eauto with vkeeps.
  - apply vpreserves_bind; [apply Hf; left|intros _; apply IH].
    intros y Hy. apply Hf. by right.
Qed.

Lemma vpreserves_ui_listener cb value :
  (cb = volume_input → ∃ k, 0 ≤ k ≤ 100 ∧ value = of_Z k) →
  vpreserves (ui_listener cb value).
Proof.
  intros Hv. destruct cb; cbn [ui_listener];
    first [ apply vpreserves_skipNext | apply vpreserves_skipPrevious
          | apply vpreserves_toggleAudioVolume
          | apply keeps_vkey_vpreserves; solve [eauto with vkeeps]
          | idtac ].
  destruct (Hv eq_refl) as (k & Hk & ->).
  apply vpreserves_setAudioVolume. by apply (whole_percent _ k).
Qed.

Lemma vpreserves_run o w :
  admissible w o → volumes_wf w → volumes_wf (after (run o) w).
Proof.
  intros Ho Hw. destruct o; cbn [run admissible] in *;
    try (first [ apply vpreserves_skipNext | apply vpreserves_skipPrevious
               | apply vpreserves_toggleAudioVolume | apply vpreserves_setCurrentAudio
               | apply vpreserves_mute | apply vpreserves_unmute
               | apply keeps_vkey_vpreserves; solve [eauto with vkeeps] ]; exact Hw).
  - destruct Ho as (k & Hk & ->).
    apply vpreserves_setAudioVolume; [by apply (whole_percent _ k)|done].
  - revert w Hw. unfold fire.
    apply vpreserves_bind; [apply keeps_vkey_vpreserves; eauto with vkeeps|intros ls].
    apply vpreserves_each. intros l _.
    apply vpreserves_reported, keeps_vkey_vpreserves, keeps_vkey_audio_listener.
  - unfold after, dispatch. rewrite bind_run. cbn [gets].
    apply vpreserves_each; [|done]. intros cb Hcb.
    apply vpreserves_reported, vpreserves_ui_listener. intros ->. by apply Ho.
Qed.

Lemma keeps_vkey_addChild parent name child : keeps_vkey (addChild parent name child).
Proof. unfold addChild. vkeeps. Qed.

Lemma keeps_vkey_createElement : ∀ options, keeps_vkey (_createElement options).
Proof.
  fix IH 1. intros [name tag attributes children]. cbn [_createElement].
  apply keeps_vkey_bind; [eauto with vkeeps|intros element].
  apply keeps_vkey_bind; [|intros; eauto with vkeeps].
  induction children as [|c cs IHcs]; [eauto with vkeeps|].
  apply keeps_vkey_bind; [apply IH|intros childElement].
  apply keeps_vkey_bind; [apply keeps_vkey_addChild|intros _; exact IHcs].
Qed.

Lemma keeps_vkey_each {A : Type} (f : A → M unit) (l : list A) :
  (∀ x, keeps_vkey (f x)) → keeps_vkey (each f l).
Proof.
  intros Hf. induction l as [|x l IH]; cbn [each]; [eauto with vkeeps|].
  apply keeps_vkey_bind; [apply Hf|intros _; exact IH].
Qed.

#[local] Hint Resolve keeps_vkey_addChild keeps_vkey_createElement : vkeeps.

Lemma keeps_vkey_mount : keeps_vkey _mount.
Proof.
  unfold _mount, declare, control, createIcon.
  repeat first
    [ apply keeps_vkey_bind; [|intros ?]
    | solve [eauto with vkeeps]
    | apply keeps_vkey_modify; intros ?; reflexivity ].
  apply keeps_vkey_each. intros [index element].
  vkeeps.
Qed.

Lemma reachable_volumes_wf options page w : reachable options page w → volumes_wf w.
Proof.
  induction 1 as [|w o _ IH Ho].
  - rewrite constructor_after. eapply volumes_wf_vkey; [apply keeps_vkey_mount|].
    split; [|split]; cbn.
    + intros h Hh. discriminate Hh.
    + intros h a Ha. discriminate Ha.
    + by left.
  - by apply vpreserves_run.
Qed.

(** ** Toggling mute *)

Lemma toggle_twice_accepted w h a :
  _currentAudio (this w) = Some h →
  audios w !! h = Some a →
  accepted (Audio.volume a) = true →
  _toggleAudioVolume w
    = (if PrimFloat.ltb 0 (Audio.volume a) then _mute w else _unmute w)
  ∧ audible (after _toggleAudioVolume (after _toggleAudioVolume w)) = audible w.
Proof.
  intros Hc Ha Hacc.
  split; [by apply (toggleAudioVolume_run w h a)|].
  rewrite (proj2 (audible_volume w h a Hc Ha)).
  unfold after at 2. rewrite (toggleAudioVolume_run w h a Hc Ha).
  destruct (PrimFloat.ltb 0 (Audio.volume a)) eqn:Haud.
  - (* audible: mute, then unmute *)
    destruct (mute_volume w h a Hc Ha) as (Hc2 & Hl2 & a2 & Ha2 & Hv2).
    unfold after in Hc2, Hl2, Ha2.
    unfold after. rewrite (toggleAudioVolume_run _ h a2 Hc2 Ha2), Hv2.
    change (PrimFloat.ltb 0 0) with false. cbv iota.
    destruct (unmute_volume _ h a2 Hc2 Ha2) as (Ht3 & a3 & Ha3 & Hv3).
    unfold after in Ht3, Ha3. rewrite Hl2 in Hv3. cbn [ToNumber] in Hv3.
    destruct (audible_round_trip (Audio.volume a) Hacc Haud) as [Hacc3 Haud3].
    rewrite Hacc3 in Hv3.
    assert (Hc3 : _currentAudio (this (_unmute (_mute w).2).2) = Some h) by (by rewrite Ht3).
    by rewrite (proj2 (audible_volume _ h a3 Hc3 Ha3)), Hv3.
  - (* muted: unmute, then whichever the result calls for *)
    destruct (unmute_volume w h a Hc Ha) as (Ht1 & a1 & Ha1 & Hv1).
    unfold after in Ht1, Ha1.
    assert (Hc1 : _currentAudio (this (_unmute w).2) = Some h) by (by rewrite Ht1).
    unfold after. rewrite (toggleAudioVolume_run _ h a1 Hc1 Ha1).
    destruct (PrimFloat.ltb 0 (Audio.volume a1)) eqn:Haud1.
    + destruct (mute_volume _ h a1 Hc1 Ha1) as (Hc2 & _ & a2 & Ha2 & Hv2).
      unfold after in Hc2, Ha2.
      by rewrite (proj2 (audible_volume _ h a2 Hc2 Ha2)), Hv2.
    + destruct (unmute_volume _ h a1 Hc1 Ha1) as (Ht2 & a2 & Ha2 & Hv2).
      unfold after in Ht2, Ha2. rewrite Ht1 in Hv2.
      assert (Hc2 : _currentAudio (this (_unmute (_unmute w).2).2) = Some h)
        by (by rewrite Ht2).
      rewrite (proj2 (audible_volume _ h a2 Hc2 Ha2)), Hv2.
      set (b := accepted (ToNumber (_lastAudioVolume (this w)) / 100)) in *.
      clearbody b. destruct b; [by rewrite <- Hv1|done].
Qed.

End Controller.

(** * Frames: what the methods leave alone *)

Section Respects.

Context (R : World → World → Prop).
Hypothesis R_refl : ∀ w, R w w.
Hypothesis R_trans : ∀ w1 w2 w3, R w1 w2 → R w2 w3 → R w1 w3.
Hypothesis R_console : ∀ f w, R w (with_console f w).
Hypothesis R_play : ∀ h a w,
  audios w !! h = Some a → R w (with_audios (λ l, <[h := Audio.play a]> l) w).
Hypothesis R_pause : ∀ h a w,
  audios w !! h = Some a → R w (with_audios (λ l, <[h := Audio.pause a]> l) w).
Hypothesis R_listen : ∀ h a event cb w,
  audios w !! h = Some a →
  R w (with_audios (λ l, <[h := Audio.addEventListener event cb a]> l) w).
Hypothesis R_volume : ∀ h a x w,
  accepted x = true → audios w !! h = Some a →
  R w (with_audios (λ l, <[h := Audio.set_volume x a]> l) w).
Hypothesis R_time : ∀ h a x w,
  audios w !! h = Some a →
  R w (with_audios (λ l, <[h := Audio.set_currentTime x a]> l) w).
Hypothesis R_new : ∀ s w, R w (with_audios (λ l, l ++ [Audio.new s]) w).
Hypothesis R_current : ∀ h w, R w (with_this (set_currentAudio (Some h)) w).
Hypothesis R_index : ∀ i w, R w (with_this (set_currentAudioIndex (Some i)) w).
Hypothesis R_last : ∀ v w, R w (with_this (set_lastAudioVolume v) w).
Hypothesis R_attribute : ∀ r e name v w,
  name = "value" ∨ name = "max" → elements w !! r = Some e →
  R w (with_elements (λ l, <[r := Element.setAttribute name v e]> l) w).

Lemma respects_bind {A B : Type} (m : M A) (f : A → M B) :
  respects R m → (∀ x, respects R (f x)) → respects R (m ≫= f).
Proof.
  intros Hm Hf w. specialize (Hm w). unfold after in *. rewrite bind_run.
  destruct (m w) as [[x|e] w']; cbn [snd] in *; [|done].
  eapply R_trans; [exact Hm|apply Hf].
Qed.

Lemma respects_same {A : Type} (m : M A) : (∀ w, after m w = w) → respects R m.
Proof. intros H w. rewrite H. apply R_refl. Qed.

Lemma respects_ret {A : Type} (x : A) : respects R (mret x).
Proof. by apply respects_same. Qed.

Lemma respects_throw {A : Type} (e : exn) : respects R (throw (A:=A) e).
Proof. by apply respects_same. Qed.

Lemma respects_gets {A : Type} (f : World → A) : respects R (gets f).
Proof. by apply respects_same. Qed.

Lemma respects_currentAudio : respects R currentAudio.
Proof.
  apply respects_same. intros w. unfold after, currentAudio.
  by destruct (_currentAudio (this w)).
Qed.

Lemma respects_audio_get {A : Type} h (f : Audio.t → A) : respects R (audio_get h f).
Proof.
  apply respects_same. intros w. unfold after, audio_get. by destruct (audios w !! h).
Qed.

Lemma respects_element_get {A : Type} r (f : Element.t → A) :
  respects R (element_get r f).
Proof.
  apply respects_same. intros w. unfold after, element_get. by destruct (elements w !! r).
Qed.

Lemma respects_property {A : Type} name (o : list (string * A)) :
  respects R (property name o).
Proof. apply respects_same. intros w. unfold after, property. by destruct (get name o). Qed.

Lemma respects_console_log l : respects R (console_log l).
Proof. intros w. apply R_console. Qed.

Lemma respects_play h : respects R (audio_update h Audio.play).
Proof.
  intros w. unfold after, audio_update.
  destruct (audios w !! h) as [a|] eqn:Ha; [by apply R_play|apply R_refl].
Qed.

Lemma respects_pause h : respects R (audio_update h Audio.pause).
Proof.
  intros w. unfold after, audio_update.
  destruct (audios w !! h) as [a|] eqn:Ha; [by apply R_pause|apply R_refl].
Qed.

Lemma respects_listen h event cb :
  respects R (audio_update h (Audio.addEventListener event cb)).
Proof.
  intros w. unfold after, audio_update.
  destruct (audios w !! h) as [a|] eqn:Ha; [by apply R_listen|apply R_refl].
Qed.

Lemma respects_assign_volume h x : respects R (audio_assign h (Audio.assign_volume x)).
Proof.
  intros w. unfold after, audio_assign.
  destruct (audios w !! h) as [a|] eqn:Ha; [|apply R_refl].
  destruct (accepted x) eqn:Hx.
  - rewrite (assign_volume_accepted x a Hx). by apply R_volume.
  - destruct (assign_volume_refused x a Hx) as [e ->]. apply R_refl.
Qed.

Lemma respects_assign_currentTime h x :
  respects R (audio_assign h (Audio.assign_currentTime x)).
Proof.
  intros w. unfold after, audio_assign, Audio.assign_currentTime.
  destruct (audios w !! h) as [a|] eqn:Ha; [|apply R_refl].
  repeat case_match; simplify_eq; first [by apply R_time|apply R_refl].
Qed.

Lemma respects_new_Audio s : respects R (new_Audio s).
Proof. intros w. apply R_new. Qed.

Lemma respects_setAttribute r name v :
  name = "value" ∨ name = "max" →
  respects R (element_update r (Element.setAttribute name v)).
Proof.
  intros Hname w. unfold after, element_update.
  destruct (elements w !! r) as [e|] eqn:He; [by apply R_attribute|apply R_refl].
Qed.

Lemma respects_playAudio : respects R _playAudio.
Proof.
  unfold _playAudio.
  apply respects_bind; [apply respects_currentAudio|intros h].
  apply respects_bind; [apply respects_play|intros _; apply respects_console_log].
Qed.

Lemma respects_pauseAudio : respects R _pauseAudio.
Proof.
  unfold _pauseAudio.
  apply respects_bind; [apply respects_currentAudio|intros h].
  apply respects_bind; [apply respects_pause|intros _; apply respects_console_log].
Qed.

Lemma respects_setAudioVolume v : respects R (_setAudioVolume v).
Proof.
  unfold _setAudioVolume.
  apply respects_bind; [apply respects_currentAudio|intros h].
  apply respects_bind; [apply respects_assign_volume|intros _].
  destruct v; [apply respects_throw|apply respects_console_log].
Qed.

Lemma respects_setAudioCurrentTime s : respects R (_setAudioCurrentTime s).
Proof.
  unfold _setAudioCurrentTime.
  apply respects_bind; [apply respects_currentAudio|intros h].
  apply respects_bind; [apply respects_assign_currentTime|intros _].
  apply respects_console_log.
Qed.

Lemma respects_mute : respects R _mute.
Proof.
  unfold _mute.
  apply respects_bind; [apply respects_currentAudio|intros h].
  apply respects_bind; [apply respects_audio_get|intros v].
  apply respects_bind; [intros w; apply R_last|intros _].
  apply respects_setAudioVolume.
Qed.

Lemma respects_unmute : respects R _unmute.
Proof.
  unfold _unmute.
  apply respects_bind; [apply respects_gets|intros v]. apply respects_setAudioVolume.
Qed.

Lemma respects_toggleAudioVolume : respects R _toggleAudioVolume.
Proof.
  unfold _toggleAudioVolume.
  apply respects_bind; [apply respects_currentAudio|intros h].
  apply respects_bind; [apply respects_audio_get|intros v].
  destruct (PrimFloat.ltb 0 v); [apply respects_mute|apply respects_unmute].
Qed.

Lemma respects_toggleAudioPlayback : respects R _toggleAudioPlayback.
Proof.
  unfold _toggleAudioPlayback.
  apply respects_bind; [apply respects_currentAudio|intros h].
  apply respects_bind; [apply respects_audio_get|intros [|]];
    [apply respects_playAudio|apply respects_pauseAudio].
Qed.

Lemma respects_setCurrentAudio index : respects R (setCurrentAudio index).
Proof.
  unfold setCurrentAudio.
  apply respects_bind; [apply respects_gets|intros e].
  apply respects_bind; [apply respects_gets|intros c].
  apply respects_bind;
    [destruct c; [apply respects_pauseAudio|apply respects_ret]|intros _].
  apply respects_bind;
    [destruct e as [[s|o]|]; [apply respects_ret|apply respects_ret|apply respects_throw]
    |intros s].
  apply respects_bind; [apply respects_new_Audio|intros h].
  apply respects_bind; [intros w; apply R_current|intros _].
  apply respects_bind; [intros w; apply R_index|intros _].
  do 3 (apply respects_bind; [apply respects_listen|intros _]).
  apply respects_bind; [apply respects_setAudioVolume|intros _].
  apply respects_bind; [apply respects_gets|intros i]. apply respects_console_log.
Qed.

Lemma respects_skipPrevious : respects R _skipPrevious.
Proof.
  unfold _skipPrevious.
  apply respects_bind; [apply respects_gets|intros i]. cbv zeta.
  apply respects_bind; [apply respects_gets|intros e].
  destruct (truthy e); [apply respects_setCurrentAudio|apply respects_ret].
Qed.

Lemma respects_skipNext : respects R _skipNext.
Proof.
  unfold _skipNext.
  apply respects_bind; [apply respects_gets|intros i]. cbv zeta.
  apply respects_bind; [apply respects_gets|intros e].
  apply respects_bind; [|intros _; apply respects_console_log].
  destruct (truthy e); [apply respects_setCurrentAudio|apply respects_ret].
Qed.

Lemma respects_progress_control : respects R audioPlaybackProgressControl.
Proof.
  unfold audioPlaybackProgressControl.
  apply respects_bind; [apply respects_gets|intros els].
  apply respects_bind; [apply respects_property|intros g].
  apply respects_bind; [apply respects_element_get|intros ch].
  apply respects_property.
Qed.

Lemma respects_timeupdate target : respects R (audio_listener audio_timeupdate target).
Proof.
  cbn [audio_listener].
  apply respects_bind; [apply respects_progress_control|intros r].
  apply respects_bind; [apply respects_audio_get|intros t].
  apply respects_setAttribute. by left.
Qed.

Lemma respects_loadeddata target : respects R (audio_listener audio_loadeddata target).
Proof.
  cbn [audio_listener].
  apply respects_bind; [apply respects_gets|intros a].
  destruct a as [[|]|]; [apply respects_playAudio|apply respects_ret..].
Qed.

Lemma respects_loadedmetadata target :
  respects R (audio_listener audio_loadedmetadata target).
Proof.
  cbn [audio_listener].
  apply respects_bind; [apply respects_progress_control|intros r].
  apply respects_bind; [apply respects_setAttribute; by left|intros _].
  apply respects_bind; [apply respects_currentAudio|intros h].
  apply respects_bind; [apply respects_audio_get|intros d].
  apply respects_setAttribute. by right.
Qed.

Lemma respects_audio_listener cb target : respects R (audio_listener cb target).
Proof.
  destruct cb;
    [apply respects_timeupdate|apply respects_loadeddata|apply respects_loadedmetadata].
Qed.

Lemma respects_reported (m : M unit) : respects R m → respects R (reported m).
Proof.
  intros Hm w. specialize (Hm w). unfold after, reported in *.
  destruct (m w) as [[[]|e] w']; cbn [snd] in *; [done|].
  eapply R_trans; [exact Hm|apply R_console].
Qed.

Lemma respects_each {A : Type} (f : A → M unit) (l : list A) :
  (∀ x, respects R (f x)) → respects R (each f l).
Proof.
  intros Hf. induction l as [|x l IH]; cbn [each]; [apply respects_ret|].
  apply respects_bind; [apply Hf|intros _; exact IH].
Qed.

Lemma respects_fire h event : respects R (fire h event).
Proof.
  unfold fire. apply respects_bind; [apply respects_gets|intros ls].
  apply respects_each. intros l. apply respects_reported, respects_audio_listener.
Qed.

Lemma respects_ui_listener cb value : respects R (ui_listener cb value).
Proof.
  destruct cb; cbn [ui_listener];
    first [ apply respects_toggleAudioVolume | apply respects_setAudioVolume
          | apply respects_setAudioCurrentTime | apply respects_skipPrevious
          | apply respects_skipNext | apply respects_toggleAudioPlayback
          | apply respects_ret ].
Qed.

Lemma respects_dispatch r event value : respects R (dispatch r event value).
Proof.
  unfold dispatch. apply respects_bind; [apply respects_gets|intros cbs].
  apply respects_each. intros cb. apply respects_reported, respects_ui_listener.
Qed.

Lemma respects_run o : respects R (run o).
Proof.
  destruct o; cbn [run];
    first [ apply respects_setCurrentAudio | apply respects_setAudioVolume
          | apply respects_setAudioCurrentTime | apply respects_mute
          | apply respects_unmute | apply respects_toggleAudioVolume
          | apply respects_playAudio | apply respects_pauseAudio
          | apply respects_skipPrevious | apply respects_skipNext
          | apply respects_toggleAudioPlayback | apply respects_fire
          | apply respects_dispatch ].
Qed.

Lemma respects_run_all os : respects R (run_all os).
Proof. apply respects_each. intros o. apply respects_reported, respects_run. Qed.

End Respects.

(** ** The frames of the player *)

Section Frames.

Implicit Types (w : World) (h : handle) (a : Audio.t).

Lemma addEventListener_src event cb a :
  Audio.src (Audio.addEventListener event cb a) = Audio.src a.
Proof. unfold Audio.addEventListener. by case_decide. Qed.

Lemma addEventListener_paused event cb a :
  Audio.paused (Audio.addEventListener event cb a) = Audio.paused a.
Proof. unfold Audio.addEventListener. by case_decide. Qed.

Lemma with_audios_sources w h a a' :
  audios w !! h = Some a → Audio.src a' = Audio.src a →
  sources (with_audios (λ l, <[h := a']> l) w) = sources w.
Proof. intros Ha Hs. unfold sources. cbn. by apply (fmap_insert_same _ _ _ a). Qed.

Lemma with_audios_playback w h a a' :
  audios w !! h = Some a →
  Audio.paused a' = Audio.paused a → Audio.listeners a' = Audio.listeners a →
  playback (with_audios (λ l, <[h := a']> l) w) = playback w.
Proof.
  intros Ha Hp Hl. unfold playback. cbn. f_equal.
  apply (fmap_insert_same _ _ _ a); [done|]. by rewrite Hp, Hl.
Qed.

Lemma filter_assign_out {A : Type} (P : string * A → Prop) `{!∀ x, Decision (P x)}
    (k : string) (v : A) (o : list (string * A)) :
  (∀ x, ¬ P (k, x)) → filter P (assign k v o) = filter P o.
Proof.
  intros Hk. induction o as [|[k' v'] o IH]; cbn [assign].
  - by rewrite filter_cons_False, filter_nil.
  - destruct (decide (k = k')) as [<-|Hne].
    + by rewrite !filter_cons_False.
    + destruct (decide (P (k', v'))).
      * by rewrite !filter_cons_True, IH.
      * by rewrite !filter_cons_False.
Qed.

Lemma setAttribute_fixed name v e :
  name = "value" ∨ name = "max" → fixed (Element.setAttribute name v e) = fixed e.
Proof.
  intros Hname. unfold fixed, other_attributes.
  cbn [Element.setAttribute Element.set_htmlElement Element.htmlElement Element.children
       Element._eventListeners HTMLElement.setAttribute HTMLElement.tagName
       HTMLElement.attributes HTMLElement.innerText HTMLElement.childNodes
       HTMLElement.listeners].
  rewrite filter_assign_out; [done|].
  intros x [H1 H2]. cbn in H1, H2. by destruct Hname.
Qed.

Lemma with_elements_structure w r e name v :
  name = "value" ∨ name = "max" → elements w !! r = Some e →
  structure (with_elements (λ l, <[r := Element.setAttribute name v e]> l) w)
  = structure w.
Proof.
  intros Hname He. unfold structure. cbn. f_equal.
  apply (fmap_insert_same _ _ _ e); [done|]. by apply setAttribute_fixed.
Qed.

(** No operation changes the options. *)
Lemma run_same_options o : respects same_options (run o).
Proof.
  apply respects_run; unfold same_options; intros; cbn; congruence.
Qed.

(** No operation removes an audio element or changes its source. *)
Lemma run_sources_kept o : respects sources_kept (run o).
Proof.
  apply respects_run; unfold sources_kept; intros;
    try (erewrite with_audios_sources by (first [eassumption|reflexivity|apply addEventListener_src]));
    try reflexivity.
  - by etrans.
  - unfold sources. cbn. rewrite fmap_app. by apply prefix_app_r.
Qed.

(** No operation changes what the controls are wired to. *)
Lemma run_same_structure o : respects same_structure (run o).
Proof.
  apply respects_run; unfold same_structure; intros;
    try (by rewrite with_elements_structure); try reflexivity.
  congruence.
Qed.

Lemma run_all_same_options os : respects same_options (run_all os).
Proof.
  apply respects_run_all; unfold same_options; intros; cbn; congruence.
Qed.

Lemma run_all_sources_kept os : respects sources_kept (run_all os).
Proof.
  apply respects_run_all; unfold sources_kept; intros;
    try (erewrite with_audios_sources by (first [eassumption|reflexivity|apply addEventListener_src]));
    try reflexivity.
  - by etrans.
  - unfold sources. cbn. rewrite fmap_app. by apply prefix_app_r.
Qed.

Lemma run_all_same_structure os : respects same_structure (run_all os).
Proof.
  apply respects_run_all; unfold same_structure; intros;
    try (by rewrite with_elements_structure); try reflexivity.
  congruence.
Qed.

Lemma volumes_accepted_insert w h a a' :
  audios w !! h = Some a →
  (accepted (Audio.volume a) = true → accepted (Audio.volume a') = true) →
  accepted_kept w (with_audios (λ l, <[h := a']> l) w).
Proof.
  intros Ha Hacc Hw h' b. cbn [audios with_audios].
  destruct (decide (h = h')) as [<-|Hne].
  - rewrite list_lookup_insert_eq by (by eapply lookup_lt_Some).
    intros [= <-]. by apply Hacc, (Hw h a).
  - rewrite list_lookup_insert_ne by done. apply Hw.
Qed.

(** No operation, whatever its arguments, takes a volume out of the
    range from 0 to 1: [_setAudioVolume] assigns only what the media
    element takes. *)
Lemma run_all_accepted_kept os : respects accepted_kept (run_all os).
Proof.
  apply respects_run_all.
  - by intros w Hw.
  - intros w1 w2 w3 H12 H23 H1. by apply H23, H12.
  - by intros f w Hw.
  - intros h a w Ha. by apply (volumes_accepted_insert w h a).
  - intros h a w Ha. by apply (volumes_accepted_insert w h a).
  - intros h a event cb w Ha. apply (volumes_accepted_insert w h a _ Ha).
    unfold Audio.addEventListener. by case_decide.
  - intros h a x w Hx Ha. by apply (volumes_accepted_insert w h a).
  - intros h a x w Ha. by apply (volumes_accepted_insert w h a).
  - intros s w Hw h a. cbn [audios with_audios]. intros [Ha|[_ Ha]]%lookup_app_Some.
    + by apply (Hw h a).
    + destruct (h - length (audios w))%nat; [|done]. by injection Ha as <-.
  - by intros h w Hw.
  - by intros i w Hw.
  - by intros v w Hw.
  - by intros r e name v w _ _ Hw.
Qed.

End Frames.

(** ** Playback *)

Section Playback.

Implicit Types (w : World) (h : handle) (a : Audio.t).

Lemma maintains_bind {A B : Type} (P : World → Prop) (m : M A) (f : A → M B) :
  maintains P m → (∀ x, maintains P (f x)) → maintains P (m ≫= f).
Proof.
  intros Hm Hf w Hw. specialize (Hm w Hw). unfold after in *. rewrite bind_run.
  destruct (m w) as [[x|e] w']; cbn [snd] in *; [|done].
  by apply Hf.
Qed.

Lemma maintains_each {A : Type} (P : World → Prop) (f : A → M unit) (l : list A) :
  (∀ x, maintains P (f x)) → maintains P (each f l).
Proof.
  intros Hf. induction l as [|x l IH]; cbn [each]; [by intros w|].
  apply maintains_bind; [apply Hf|intros _; exact IH].
Qed.

Lemma playback_wf_same w w' : playback w' = playback w → playback_wf w → playback_wf w'.
Proof.
  unfold playback. intros Hk (H1 & H2 & H3). injection Hk as Hc Hl.
  assert (Hlook : ∀ h a', audios w' !! h = Some a' →
            ∃ a, audios w !! h = Some a ∧ Audio.paused a = Audio.paused a'
                 ∧ Audio.listeners a = Audio.listeners a').
  { intros h a' Ha'.
    assert (Hf : ((λ a, (Audio.paused a, Audio.listeners a)) <$> audios w) !! h
                 = Some (Audio.paused a', Audio.listeners a'))
      by (by rewrite <- Hl, list_lookup_fmap, Ha').
    rewrite list_lookup_fmap in Hf. apply fmap_Some in Hf as (a & Ha & Heq).
    injection Heq as Hp Hls. eauto. }
  split; [|split].
  - intros h Hh. rewrite Hc in Hh. apply lookup_lt_is_Some.
    apply H1, lookup_lt_is_Some in Hh.
    rewrite <- (length_fmap (λ a, (Audio.paused a, Audio.listeners a))), Hl.
    by rewrite length_fmap.
  - intros h a' Ha' Hp. destruct (Hlook h a' Ha') as (a & Ha & Hpa & _).
    rewrite Hc. apply (H2 h a Ha). congruence.
  - intros h a' Ha'. destruct (Hlook h a' Ha') as (a & Ha & _ & Hls).
    rewrite <- Hls. by apply (H3 h).
Qed.

Lemma respects_same_playback {A : Type} (m : M A) :
  respects same_playback m → maintains playback_wf m.
Proof. intros Hm w Hw. apply (playback_wf_same w); [apply Hm|done]. Qed.

Lemma playback_wf_console w f : playback_wf w → playback_wf (with_console f w).
Proof. by apply playback_wf_same. Qed.

(** Changing the paused flag of the current handle keeps the playback
    state sound. *)
Lemma playback_wf_set_paused w h a b :
  playback_wf w → _currentAudio (this w) = Some h → audios w !! h = Some a →
  playback_wf (with_audios (λ l, <[h := Audio.set_paused b a]> l) w).
Proof.
  intros (H1 & H2 & H3) Hc Ha. split; [|split].
  - intros h' Hh'. cbn [this audios with_audios] in *.
    apply lookup_lt_is_Some. rewrite length_insert. by apply lookup_lt_is_Some, H1.
  - intros h' a' Ha' Hp. cbn [this audios with_audios] in *.
    destruct (decide (h = h')) as [<-|Hne]; [done|].
    rewrite list_lookup_insert_ne in Ha' by done. by apply (H2 h' a').
  - intros h' a' Ha'. cbn [this audios with_audios] in *.
    destruct (decide (h = h')) as [<-|Hne].
    + rewrite list_lookup_insert_eq in Ha' by (by eapply lookup_lt_Some).
      injection Ha' as <-. unfold Audio.set_paused. cbn [Audio.listeners]. by apply (H3 h).
    + rewrite list_lookup_insert_ne in Ha' by done. by apply (H3 h').
Qed.

Lemma maintains_playAudio : maintains playback_wf _playAudio.
Proof.
  intros w Hw. unfold after, _playAudio.
  rewrite bind_run. unfold currentAudio.
  destruct (_currentAudio (this w)) as [h|] eqn:Hc; [|done].
  rewrite bind_run. unfold audio_update.
  destruct (audios w !! h) as [a|] eqn:Ha; [|done].
  by apply playback_wf_console, playback_wf_set_paused.
Qed.

Lemma maintains_pauseAudio : maintains playback_wf _pauseAudio.
Proof.
  intros w Hw. unfold after, _pauseAudio.
  rewrite bind_run. unfold currentAudio.
  destruct (_currentAudio (this w)) as [h|] eqn:Hc; [|done].
  rewrite bind_run. unfold audio_update.
  destruct (audios w !! h) as [a|] eqn:Ha; [|done].
  by apply playback_wf_console, playback_wf_set_paused.
Qed.

(** Once the current handle is paused, every audio element is. *)
Lemma paused_current_all_paused w h a :
  playback_wf w → audios (paused_current w) !! h = Some a → Audio.paused a = true.
Proof.
  intros (H1 & H2 & H3) Ha. unfold paused_current in Ha.
  destruct (Audio.paused a) eqn:Hp; [done|exfalso].
  destruct (_currentAudio (this w)) as [hc|] eqn:Hc.
  - destruct (H1 hc Hc) as [ac Hac]. rewrite Hac in Ha.
    cbn [audios with_audios with_console] in Ha.
    destruct (decide (hc = h)) as [<-|Hne].
    + rewrite list_lookup_insert_eq in Ha by (by eapply lookup_lt_Some).
      injection Ha as <-. discriminate Hp.
    + rewrite list_lookup_insert_ne in Ha by done.
      specialize (H2 h a Ha Hp). congruence.
  - specialize (H2 h a Ha Hp). congruence.
Qed.

Lemma playback_wf_paused_current w : playback_wf w → playback_wf (paused_current w).
Proof.
  intros Hw. pose proof Hw as (H1 & H2 & H3). unfold paused_current.
  destruct (_currentAudio (this w)) as [h|] eqn:Hc; [|done].
  destruct (audios w !! h) as [a|] eqn:Ha; [|done].
  by apply playback_wf_console, playback_wf_set_paused.
Qed.

Lemma playback_wf_selected i s w : playback_wf w → playback_wf (selected i s w).
Proof.
  intros Hw. pose proof (playback_wf_paused_current w Hw) as (H1 & H2 & H3).
  unfold selected. split; [|split].
  - intros h Hh.
    cbn [this audios with_audios with_this with_console set_currentAudio
         set_currentAudioIndex _currentAudio] in *.
    injection Hh as <-. rewrite <- paused_current_length, lookup_snoc. eauto.
  - intros h a Ha Hp.
    cbn [this audios with_audios with_this with_console set_currentAudio
         set_currentAudioIndex _currentAudio] in *.
    apply lookup_app_Some in Ha as [Ha|[_ Ha]].
    + by rewrite (paused_current_all_paused w h a Hw Ha) in Hp.
    + apply list_lookup_singleton_Some in Ha as [_ <-]. discriminate Hp.
  - intros h a Ha.
    cbn [this audios with_audios with_this with_console] in *.
    apply lookup_app_Some in Ha as [Ha|[_ Ha]]; [by apply (H3 h)|].
    by apply list_lookup_singleton_Some in Ha as [_ <-].
Qed.

Lemma maintains_setCurrentAudio i : maintains playback_wf (setCurrentAudio i).
Proof.
  intros w Hw. unfold after.
  destruct (entry (srcs (_options (this w))) i) as [t|] eqn:Ht.
  - rewrite (setCurrentAudio_run w i t (proj1 Hw) Ht). by apply playback_wf_selected.
  - rewrite (setCurrentAudio_throw w i (proj1 Hw) Ht). by apply playback_wf_paused_current.
Qed.

Lemma same_playback_trans w1 w2 w3 :
  same_playback w1 w2 → same_playback w2 w3 → same_playback w1 w3.
Proof. unfold same_playback. congruence. Qed.

Lemma with_audios_same_playback w h a a' :
  audios w !! h = Some a →
  Audio.paused a' = Audio.paused a → Audio.listeners a' = Audio.listeners a →
  same_playback w (with_audios (λ l, <[h := a']> l) w).
Proof. apply with_audios_playback. Qed.

Lemma maintains_setAudioVolume v : maintains playback_wf (_setAudioVolume v).
Proof.
  apply respects_same_playback, respects_setAudioVolume;
    [done|exact same_playback_trans|done|].
  intros. by apply (with_audios_same_playback _ _ a).
Qed.

Lemma maintains_setAudioCurrentTime s : maintains playback_wf (_setAudioCurrentTime s).
Proof.
  apply respects_same_playback, respects_setAudioCurrentTime;
    [done|exact same_playback_trans|done|].
  intros. by apply (with_audios_same_playback _ _ a).
Qed.

Lemma maintains_toggleAudioVolume : maintains playback_wf _toggleAudioVolume.
Proof.
  apply respects_same_playback, respects_toggleAudioVolume;
    [done|exact same_playback_trans|done| |done].
  intros. by apply (with_audios_same_playback _ _ a).
Qed.

Lemma maintains_mute : maintains playback_wf _mute.
Proof.
  apply respects_same_playback, respects_mute;
    [done|exact same_playback_trans|done| |done].
  intros. by apply (with_audios_same_playback _ _ a).
Qed.

Lemma maintains_unmute : maintains playback_wf _unmute.
Proof.
  apply respects_same_playback, respects_unmute;
    [done|exact same_playback_trans|done|].
  intros. by apply (with_audios_same_playback _ _ a).
Qed.

Lemma maintains_same {A : Type} (P : World → Prop) (m : M A) :
  (∀ w, after m w = w) → maintains P m.
Proof. intros H w Hw. by rewrite H. Qed.

Lemma maintains_toggleAudioPlayback : maintains playback_wf _toggleAudioPlayback.
Proof.
  unfold _toggleAudioPlayback.
  apply maintains_bind; [apply respects_same_playback, respects_currentAudio; done|intros h].
  apply maintains_bind; [apply respects_same_playback, respects_audio_get; done|intros [|]];
    [apply maintains_playAudio|apply maintains_pauseAudio].
Qed.

Lemma maintains_skipPrevious : maintains playback_wf _skipPrevious.
Proof.
  unfold _skipPrevious.
  apply maintains_bind; [by apply maintains_same|intros i]. cbv zeta.
  apply maintains_bind; [by apply maintains_same|intros e].
  destruct (truthy e); [apply maintains_setCurrentAudio|by apply maintains_same].
Qed.

Lemma maintains_skipNext : maintains playback_wf _skipNext.
Proof.
  unfold _skipNext.
  apply maintains_bind; [by apply maintains_same|intros i]. cbv zeta.
  apply maintains_bind; [by apply maintains_same|intros e].
  apply maintains_bind; [|intros _ w Hw; by apply playback_wf_console].
  destruct (truthy e); [apply maintains_setCurrentAudio|by apply maintains_same].
Qed.

Lemma maintains_reported (m : M unit) :
  maintains playback_wf m → maintains playback_wf (reported m).
Proof.
  intros Hm w Hw. specialize (Hm w Hw). unfold after, reported in *.
  destruct (m w) as [[[]|e] w']; cbn [snd] in *; [done|].
  by apply playback_wf_console.
Qed.

Lemma with_elements_same_playback w f : same_playback w (with_elements f w).
Proof. done. Qed.

Lemma maintains_audio_listener cb h : maintains playback_wf (audio_listener cb h).
Proof.
  destruct cb.
  - apply respects_same_playback, respects_timeupdate;
      [done|exact same_playback_trans|done].
  - cbn [audio_listener].
    apply maintains_bind; [by apply maintains_same|intros a].
    destruct a as [[|]|]; [apply maintains_playAudio|intros w Hw; exact Hw..].
  - apply respects_same_playback, respects_loadedmetadata;
      [done|exact same_playback_trans|done].
Qed.

Lemma maintains_ui_listener cb v : maintains playback_wf (ui_listener cb v).
Proof.
  destruct cb; cbn [ui_listener];
    first [ apply maintains_toggleAudioVolume | apply maintains_setAudioVolume
          | apply maintains_setAudioCurrentTime | apply maintains_skipPrevious
          | apply maintains_skipNext | apply maintains_toggleAudioPlayback
          | by apply maintains_same ].
Qed.

Lemma maintains_run o : maintains playback_wf (run o).
Proof.
  destruct o; cbn [run];
    first [ apply maintains_setCurrentAudio | apply maintains_setAudioVolume
          | apply maintains_setAudioCurrentTime | apply maintains_mute
          | apply maintains_unmute | apply maintains_toggleAudioVolume
          | apply maintains_playAudio | apply maintains_pauseAudio
          | apply maintains_skipPrevious | apply maintains_skipNext
          | apply maintains_toggleAudioPlayback | idtac ].
  - unfold fire. apply maintains_bind; [by apply maintains_same|intros ls].
    apply maintains_each. intros l. apply maintains_reported, maintains_audio_listener.
  - unfold dispatch. apply maintains_bind; [by apply maintains_same|intros cbs].
    apply maintains_each. intros cb. apply maintains_reported, maintains_ui_listener.
Qed.

(** A new player has no audio element and no current handle. *)
Lemma constructor_no_audio options page :
  let w := (constructor options page).2 in
  audios w = [] ∧ _currentAudio (this w) = None ∧ _currentAudioIndex (this w) = None
  ∧ _options (this w) = options ∧ _lastAudioVolume (this w) = Null.
Proof.
  intros w. subst w. rewrite constructor_after.
  pose proof (keeps_vkey_mount (mkWorld (mkPlayer options None [] None Null) [] [] page []))
    as Hv.
  pose proof (keeps_mount (mkWorld (mkPlayer options None [] None Null) [] [] page []))
    as Hk.
  revert Hv Hk.
  generalize (after _mount (mkWorld (mkPlayer options None [] None Null) [] [] page [])).
  intros w. unfold vkey, key. cbn [this audios _options _currentAudio _currentAudioIndex
    _lastAudioVolume fmap list_fmap].
  intros Hv Hk. injection Hv as Hc Ha Hl. injection Hk as Ho _ Hi.
  apply fmap_nil_inv in Ha. done.
Qed.

Lemma constructor_playback_wf options page : playback_wf (constructor options page).2.
Proof.
  destruct (constructor_no_audio options page) as (Ha & Hc & _).
  split; [|split].
  - intros h Hh. congruence.
  - intros h a Hl. rewrite Ha in Hl. discriminate Hl.
  - intros h a Hl. rewrite Ha in Hl. discriminate Hl.
Qed.

Lemma run_all_playback_wf options page os :
  playback_wf (after (run_all os) (constructor options page).2).
Proof.
  unfold run_all. apply (maintains_each playback_wf); [|apply constructor_playback_wf].
  intros o. apply maintains_reported, maintains_run.
Qed.

End Playback.

(** ** Toggling mute, from every state *)

(** C6.  [_toggleAudioVolume] mutes when the volume of the current
    handle is greater than zero and unmutes otherwise.  From every state
    with a current handle, audible or muted, two calls of
    [_toggleAudioVolume()] in a row leave the player audible if it was
    audible and muted if it was muted, whatever [_lastAudioVolume]
    holds.  The volume of the handle may be any number from 0 to 1, the
    range a media element keeps its volume in; in particular the
    property holds in every state a player reaches from its construction
    by any operations with any arguments. *)
Theorem toggleAudioVolume_twice_keeps_audibility :
  (∀ w h a,
     _currentAudio (this w) = Some h →
     audios w !! h = Some a →
     accepted (Audio.volume a) = true →
     _toggleAudioVolume w
       = (if PrimFloat.ltb 0 (Audio.volume a) then _mute w else _unmute w)
     ∧ audible (after _toggleAudioVolume (after _toggleAudioVolume w)) = audible w)
  ∧ (∀ options page os h,
       let w := after (run_all os) (constructor options page).2 in
       _currentAudio (this w) = Some h →
       audible (after _toggleAudioVolume (after _toggleAudioVolume w)) = audible w).
Proof.
  split; [exact toggle_twice_accepted|].
  intros options page os h w Hc.
  destruct (run_all_playback_wf options page os) as (Hex & _).
  destruct (Hex h Hc) as [a Ha].
  apply (toggle_twice_accepted w h a Hc Ha).
  apply (run_all_accepted_kept os (constructor options page).2) with h; [|exact Ha].
  intros h' a' Ha'. rewrite (proj1 (constructor_no_audio options page)) in Ha'.
  discriminate Ha'.
Qed.

Lemma toggleAudioVolume_twice_keeps_audibility_witness :
  let w := after (_setAudioVolume (Num 12.5)) (playing_first abc) in
  let muted := after (run_all [call_setCurrentAudio 0; ui_event 4%nat "input" 0%float])
                 (constructor abc (Some [])).2 in
  handle_volume w = Some 0.125%float
  ∧ audible w = true
  ∧ audible (after _toggleAudioVolume w) = false
  ∧ audible (after _toggleAudioVolume (after _toggleAudioVolume w)) = audible w
  ∧ audible muted = false
  ∧ outcome _toggleAudioVolume muted = Throw TypeError
  ∧ audible (after _toggleAudioVolume (after _toggleAudioVolume muted)) = audible muted.
Proof.
  intros w muted.
  destruct toggleAudioVolume_twice_keeps_audibility as [H1 H2].
  split; [reflexivity|]. split; [reflexivity|]. split; [reflexivity|].
  split.
  { apply (H1 w 0%nat (Audio.set_volume 0.125 (selected_audio "a.mp3")));
      reflexivity. }
  split; [reflexivity|]. split; [reflexivity|].
  exact (H2 abc (Some []) [call_setCurrentAudio 0; ui_event 4%nat "input" 0%float]
           0%nat eq_refl).
Defined.


(** * Properties of the whole player *)

(** X1.  At most the current track plays.  In every state the player
    reaches, the current handle names an audio element that exists, every
    audio element other than the current one is paused, and every audio
    element carries exactly the three listeners [setCurrentAudio]
    attaches.  The constructor establishes this and each operation keeps
    it, whatever its arguments and however it completes: [setCurrentAudio]
    pauses the handle it is about to replace before it creates the new
    element, and that element starts out paused. *)
Theorem playback_wf_invariant :
  (∀ options page, playback_wf (constructor options page).2)
  ∧ (∀ o w, playback_wf w → playback_wf (after (run o) w))
  ∧ (∀ options page os,
       playback_wf (after (run_all os) (constructor options page).2)).
Proof.
  split; [exact constructor_playback_wf|]. split; [exact maintains_run|].
  exact run_all_playback_wf.
Qed.

Lemma playback_wf_invariant_witness :
  playback_wf (mounted abc)
  ∧ playback_wf (after (run (call_setCurrentAudio 1)) (mounted abc))
  ∧ (Audio.paused <$> audios (after (run (call_setCurrentAudio 1))
                                (after (run call_playAudio) (playing_first abc))))
    = [true; true].
Proof.
  pose proof (proj1 playback_wf_invariant abc (Some [])) as H.
  split; [exact H|]. split; [|reflexivity].
  exact (proj1 (proj2 playback_wf_invariant) (call_setCurrentAudio 1) (mounted abc) H).
Defined.

(** X2.  The player never changes its options.  No operation assigns
    [_options] or writes into the track list, so after any run of
    operations on a new player [_options] is still what the constructor
    was given. *)
Theorem options_never_change :
  (∀ o w, _options (this (after (run o) w)) = _options (this w))
  ∧ (∀ options page os,
       _options (this (after (run_all os) (constructor options page).2)) = options).
Proof.
  split; [intros o w; apply run_same_options|].
  intros options page os.
  rewrite (run_all_same_options os (constructor options page).2).
  apply constructor_no_audio.
Qed.

(** X3.  Audio elements are only ever added.  Whatever operations run,
    the audio elements that existed before are still there, in the same
    order and with the source each was created with; the player selects
    a track by creating a new element, never by re-pointing an old
    one. *)
Theorem audio_sources_only_grow os w :
  sources w `prefix_of` sources (after (run_all os) w).
Proof. apply run_all_sources_kept. Qed.

(** X4.  After construction only two attributes ever change.  No
    operation changes the table [_elements], the children of the
    container, or anything of a composed element other than its [value]
    and [max] attributes: tag, other attributes, text, DOM children,
    listeners, named children and recorded listeners stay as they are
    through any run of operations. *)
Theorem structure_never_changes os w :
  structure (after (run_all os) w) = structure w.
Proof. apply run_all_same_structure. Qed.

Section Construction.

Implicit Types (w : World).

Lemma structure_lookup w w' r :
  structure w' = structure w → fixed <$> elements w' !! r = fixed <$> elements w !! r.
Proof.
  unfold structure. intros H. injection H as _ _ H.
  apply (f_equal (λ l, l !! r)) in H. by rewrite !list_lookup_fmap in H.
Qed.

(** An element of [w] is there in [w'] as well, the same apart from
    its [value] and [max] attributes. *)
Lemma structure_fixed w w' r x :
  structure w' = structure w → fixed <$> elements w !! r = Some x →
  ∃ e, elements w' !! r = Some e ∧ fixed e = x.
Proof.
  intros H Hx. rewrite <- (structure_lookup w w' r H) in Hx.
  destruct (elements w' !! r) as [e|]; [|done]. injection Hx as Hx. eauto.
Qed.

Lemma control_outcome w group name :
  outcome (control group name) w
  = match get group (_elements (this w)) with
    | Some g =>
        match elements w !! g with
        | Some e =>
            match get name (Element.children e) with
            | Some r => Normal r
            | None => Throw TypeError
            end
        | None => Throw TypeError
        end
    | None => Throw TypeError
    end.
Proof.
  unfold outcome, control. rewrite bind_run. cbn [gets].
  rewrite bind_run. unfold property at 1.
  destruct (get group (_elements (this w))) as [g|]; [|done].
  cbn [mret M_ret]. rewrite bind_run. unfold element_get.
  destruct (elements w !! g) as [e|]; [|done].
  unfold property. by destruct (get name (Element.children e)).
Qed.

(** What a control is wired to depends on the structure alone. *)
Lemma wired_structure w w' group name event :
  structure w' = structure w → wired w' group name event = wired w group name event.
Proof.
  intros H. pose proof H as Hels. unfold structure in Hels. injection Hels as Hels _ _.
  unfold wired. rewrite !control_outcome, Hels.
  destruct (get group (_elements (this w))) as [g|]; [|done].
  pose proof (structure_lookup w w' g H) as Hg.
  destruct (elements w' !! g) as [e'|], (elements w !! g) as [e|];
    cbn in Hg; try done.
  injection Hg as _ _ _ _ _ Hc _. rewrite Hc.
  destruct (get name (Element.children e)) as [r|]; [|done].
  f_equal. unfold callbacks.
  pose proof (structure_lookup w w' r H) as Hr.
  destruct (elements w' !! r) as [x'|], (elements w !! r) as [x|];
    cbn in Hr |- *; try done.
  injection Hr as _ _ _ _ Hl _ _. unfold HTMLElement.dispatchEvent. by rewrite Hl.
Qed.

Lemma wired_constructor options page os :
  let w := after (run_all os) (constructor options page).2 in
  wired w "audioVolumeControls" "audioVolumeMuteControl" "click" = Some [mute_click]
  ∧ wired w "audioVolumeControls" "audioVolumeBar" "input" = Some [volume_input]
  ∧ wired w "audioControls" "audioPlaybackProgressControl" "input" = Some [progress_input]
  ∧ wired w "audioControls" "audioSkipPreviousControl" "click" = Some [previous_click]
  ∧ wired w "audioControls" "audioTogglePlaybackControl" "click" = Some [toggle_click]
  ∧ wired w "audioControls" "audioSkipNextControl" "click" = Some [next_click]
  ∧ wired w "audioControls" "audioSkipNextControl" "input" = Some [next_input].
Proof.
  intros w. subst w.
  rewrite !(wired_structure _ _ _ _ _ (run_all_same_structure os (constructor options page).2)).
  destruct page as [l|]; vm_compute; repeat split.
Qed.

Lemma wired_callbacks w group name event cbs :
  wired w group name event = Some cbs →
  ∃ r, outcome (control group name) w = Normal r ∧ callbacks w r event = cbs.
Proof.
  unfold wired. destruct (outcome (control group name) w) as [r|]; [|done].
  intros [= <-]. eauto.
Qed.

Lemma dispatch_single w r event value cb :
  callbacks w r event = [cb] →
  dispatch r event value w
  = match ui_listener cb value w with
    | (Throw e, w') => (Normal tt, with_console (λ c, c ++ [Uncaught e]) w')
    | (Normal _, w') => (Normal tt, w')
    end.
Proof.
  intros Hcb. unfold dispatch. rewrite bind_run. cbn [gets]. rewrite Hcb.
  cbn [each]. rewrite bind_run. unfold reported.
  by destruct (ui_listener cb value w) as [[[]|e] w'].
Qed.

End Construction.

(** X5.  Each control invokes its one method, from construction on.
    Whatever the options, whether or not the page has the container, and
    whatever operations ran since, a click on the mute button runs
    [_toggleAudioVolume], an input on the volume bar [_setAudioVolume],
    an input on the scrub bar [_setAudioCurrentTime], a click on the
    previous, toggle and next buttons [_skipPrevious],
    [_toggleAudioPlayback] and [_skipNext], and an input event on the next
    button [_skipNext] as well; each of these has that one listener and
    no other. *)
Theorem controls_stay_wired options page os :
  let w := after (run_all os) (constructor options page).2 in
  wired w "audioVolumeControls" "audioVolumeMuteControl" "click" = Some [mute_click]
  ∧ wired w "audioVolumeControls" "audioVolumeBar" "input" = Some [volume_input]
  ∧ wired w "audioControls" "audioPlaybackProgressControl" "input" = Some [progress_input]
  ∧ wired w "audioControls" "audioSkipPreviousControl" "click" = Some [previous_click]
  ∧ wired w "audioControls" "audioTogglePlaybackControl" "click" = Some [toggle_click]
  ∧ wired w "audioControls" "audioSkipNextControl" "click" = Some [next_click]
  ∧ wired w "audioControls" "audioSkipNextControl" "input" = Some [next_input].
Proof. exact (wired_constructor options page os). Qed.

(** X6.  The constructor mounts the player and selects no track.  For
    every options object, also one with [autoplay] set and tracks listed:
    in a page that has the container element the constructor returns
    normally, in a page without it the constructor throws a TypeError;
    either way no audio element exists afterwards, [_currentAudio] and
    [_currentAudioIndex] are still [null], and nothing was logged.  The
    four groups are declared in this order, and in an empty container
    they are its children, in this order. *)
Theorem constructor_selects_no_track options :
  (∀ l, (constructor options (Some l)).1 = Normal tt)
  ∧ (constructor options None).1 = Throw TypeError
  ∧ (∀ page, let w := (constructor options page).2 in
       audios w = [] ∧ _currentAudio (this w) = None
       ∧ _currentAudioIndex (this w) = None ∧ console w = []
       ∧ (_elements (this w)).*1
         = ["audioCoverImageContainer"; "audioTitle"; "audioVolumeControls";
            "audioControls"])
  ∧ (let w := (constructor options (Some [])).2 in
       container w = Some (_elements (this w)).*2).
Proof.
  split; [intros l; vm_compute; reflexivity|].
  split; [vm_compute; reflexivity|].
  split; [|vm_compute; reflexivity].
  intros [l|]; vm_compute; repeat split.
Qed.

Section Edges.

Implicit Types (w : World) (h : handle) (a : Audio.t).

Lemma currentAudio_none {A : Type} w (k : handle → M A) :
  _currentAudio (this w) = None → (currentAudio ≫= k) w = (Throw TypeError, w).
Proof. intros Hc. rewrite bind_run. unfold currentAudio. by rewrite Hc. Qed.

Lemma set_paused_back a b : Audio.set_paused (Audio.paused a) (Audio.set_paused b a) = a.
Proof. by destruct a. Qed.

Lemma toggleAudioPlayback_run w h a :
  _currentAudio (this w) = Some h → audios w !! h = Some a →
  _toggleAudioPlayback w
  = (Normal tt,
     with_console
       (λ c, c ++ [if Audio.paused a then AudioIsNowPlaying else AudioIsNowPaused])
       (with_audios (λ l, <[h := Audio.set_paused (negb (Audio.paused a)) a]> l) w)).
Proof.
  intros Hc Ha. unfold _toggleAudioPlayback.
  rewrite bind_run. unfold currentAudio at 1. rewrite Hc.
  rewrite bind_run. unfold audio_get. rewrite Ha.
  destruct (Audio.paused a) eqn:Hp.
  - by rewrite (playAudio_run w h a Hc Ha).
  - rewrite (pauseAudio_run w h a Hc Ha). unfold paused_current. by rewrite Hc, Ha.
Qed.

Lemma zero_percent : (0 / 100)%float = 0%float ∧ (0 * 100)%float = 0%float
                     ∧ accepted 0 = true.
Proof. vm_compute. repeat split. Qed.

End Edges.

(** X7.  With no track selected every playback and volume method
    throws.  While [_currentAudio] is [null] (as the constructor leaves
    it), [_playAudio], [_pauseAudio], [_toggleAudioPlayback],
    [_setAudioVolume], [_setAudioCurrentTime], [_mute], [_unmute] and
    [_toggleAudioVolume] each throw a TypeError before they change or log
    anything: the state is exactly what it was. *)
Theorem no_track_selected_throws w :
  _currentAudio (this w) = None →
  _playAudio w = (Throw TypeError, w)
  ∧ _pauseAudio w = (Throw TypeError, w)
  ∧ _toggleAudioPlayback w = (Throw TypeError, w)
  ∧ (∀ volume, _setAudioVolume volume w = (Throw TypeError, w))
  ∧ (∀ second, _setAudioCurrentTime second w = (Throw TypeError, w))
  ∧ _mute w = (Throw TypeError, w)
  ∧ _unmute w = (Throw TypeError, w)
  ∧ _toggleAudioVolume w = (Throw TypeError, w).
Proof.
  intros Hc.
  repeat split; intros;
    first [ by apply currentAudio_none
          | unfold _unmute; rewrite bind_run; cbn [gets]; by apply currentAudio_none ].
Qed.

Lemma no_track_selected_throws_witness :
  _currentAudio (this (mounted abc)) = None
  ∧ _toggleAudioPlayback (mounted abc) = (Throw TypeError, mounted abc).
Proof.
  split; [reflexivity|].
  exact (proj1 (proj2 (proj2 (no_track_selected_throws (mounted abc) eq_refl)))).
Defined.

(** X8.  [_unmute] before any [_mute] silences the track and throws.
    While [_lastAudioVolume] is still [null], [_unmute] hands [null] to
    [_setAudioVolume]: the division makes it 0, so the volume of the
    current handle becomes 0, and the log line then fails on
    [null.toString()] with a TypeError; nothing is logged and the fields
    keep their values.  [_toggleAudioVolume] does the same when the
    volume is already 0, as after the volume bar was moved to 0. *)
Theorem unmute_before_mute_silences_and_throws w h a :
  _currentAudio (this w) = Some h → audios w !! h = Some a →
  _lastAudioVolume (this w) = Null →
  _unmute w = (Throw TypeError, with_audios (λ l, <[h := Audio.set_volume 0 a]> l) w)
  ∧ (PrimFloat.ltb 0 (Audio.volume a) = false → _toggleAudioVolume w = _unmute w).
Proof.
  intros Hc Ha Hl. split.
  - unfold _unmute. rewrite bind_run. cbn [gets]. rewrite Hl.
    unfold _setAudioVolume. rewrite bind_run. unfold currentAudio. rewrite Hc.
    rewrite bind_run. unfold audio_assign. rewrite Ha. reflexivity.
  - intros Hv. by rewrite (toggleAudioVolume_run w h a Hc Ha), Hv.
Qed.

Lemma unmute_before_mute_silences_and_throws_witness :
  outcome _unmute (playing_first abc) = Throw TypeError
  ∧ handle_volume (playing_first abc) = Some (75 / 100)%float
  ∧ handle_volume (after _unmute (playing_first abc)) = Some 0%float
  ∧ _toggleAudioVolume (after (_setAudioVolume (Num 0)) (playing_first abc))
    = _unmute (after (_setAudioVolume (Num 0)) (playing_first abc)).
Proof.
  pose proof (unmute_before_mute_silences_and_throws (playing_first abc) 0
                (selected_audio "a.mp3") eq_refl eq_refl eq_refl) as [H _].
  pose proof (unmute_before_mute_silences_and_throws
                (after (_setAudioVolume (Num 0)) (playing_first abc)) 0
                (Audio.set_volume 0 (selected_audio "a.mp3"))
                ltac:(vm_compute; reflexivity) ltac:(vm_compute; reflexivity)
                ltac:(vm_compute; reflexivity)) as [_ H0].
  unfold outcome, after at 1. rewrite H. cbn [fst snd].
  split; [reflexivity|]. split; [vm_compute; reflexivity|].
  split; [vm_compute; reflexivity|]. exact (H0 eq_refl).
Defined.

(** X9.  Muting twice forgets the volume.  [_mute] stores the present
    volume in [_lastAudioVolume] before it sets 0; called on a track that
    is already muted it stores 0, so [_unmute] afterwards leaves the track
    silent: the volume that was set before the first [_mute] is lost. *)
Theorem mute_twice_forgets_volume w h a :
  _currentAudio (this w) = Some h → audios w !! h = Some a →
  let w' := after _unmute (after _mute (after _mute w)) in
  handle_volume w' = Some 0%float ∧ _lastAudioVolume (this w') = Num 0.
Proof.
  intros Hc Ha w'. subst w'.
  destruct (mute_volume w h a Hc Ha) as (Hc1 & _ & a1 & Ha1 & Hv1).
  destruct (mute_volume _ h a1 Hc1 Ha1) as (Hc2 & Hl2 & a2 & Ha2 & Hv2).
  destruct (unmute_volume _ h a2 Hc2 Ha2) as (Ht & a3 & Ha3 & Hv3).
  rewrite Hl2, Hv1 in Hv3. cbn [ToNumber] in Hv3.
  destruct zero_percent as (Hz1 & Hz2 & Hz3). rewrite Hz2, Hz1, Hz3 in Hv3.
  split.
  - unfold handle_volume, current. rewrite Ht, Hc2. cbn. by rewrite Ha3, <- Hv3.
  - by rewrite Ht, Hl2, Hv1, Hz2.
Qed.

Lemma mute_twice_forgets_volume_witness :
  handle_volume (at_40 abc) = Some (percent 40)
  ∧ handle_volume (after _unmute (after _mute (after _mute (at_40 abc)))) = Some 0%float.
Proof.
  split; [vm_compute; reflexivity|].
  exact (proj1 (mute_twice_forgets_volume (at_40 abc) 0
                  (Audio.set_volume (percent 40) (selected_audio "a.mp3"))
                  eq_refl eq_refl)).
Defined.

(** X10.  The first skip on a new player passes over the first track.
    While [_currentAudioIndex] is [null] it counts as 0 in arithmetic:
    [_skipPrevious] looks at index -1, finds nothing and does nothing at
    all; [_skipNext] looks at index 1, and if that entry is truthy it
    selects track 1, not track 0. *)
Theorem skip_before_any_selection w :
  handle_exists w → _currentAudioIndex (this w) = None →
  _skipPrevious w = (Normal tt, w)
  ∧ (∀ t, entry (srcs (_options (this w))) 1 = Some t → truthy (Some t) = true →
       _skipNext w
       = (Normal tt, with_console (λ c, c ++ [SkipNext]) (selected 1 (resolve t) w))).
Proof.
  intros Hw Hi. split.
  - rewrite skipPrevious_run. cbv zeta. rewrite Hi. reflexivity.
  - intros t Ht Htruthy. rewrite skipNext_run. cbv zeta. rewrite Hi.
    change (index_number None + 1) with 1. rewrite Ht, Htruthy, bind_run.
    by rewrite (setCurrentAudio_run w 1 t Hw Ht).
Qed.

Lemma skip_before_any_selection_witness :
  _currentAudioIndex (this (mounted abc)) = None
  ∧ _skipPrevious (mounted abc) = (Normal tt, mounted abc)
  ∧ _currentAudioIndex (this (after _skipNext (mounted abc))) = Some 1
  ∧ (Audio.src <$> current (after _skipNext (mounted abc))) = Some "b.mp3".
Proof.
  assert (Hw : handle_exists (mounted abc))
    by (intros h Hh; vm_compute in Hh; discriminate Hh).
  pose proof (skip_before_any_selection (mounted abc) Hw eq_refl) as [Hp Hn].
  split; [reflexivity|]. split; [exact Hp|].
  unfold after. rewrite (Hn (SrcString "b.mp3") eq_refl eq_refl). cbn [snd].
  split; vm_compute; reflexivity.
Defined.

(** X11.  [_toggleAudioPlayback] flips the paused flag of the current
    handle.  With a track selected it returns normally, the current
    handle is paused afterwards exactly if it was not before, and a
    second call brings every audio element and every field of the player
    back to what they were; only the console has grown, by one line per
    call. *)
Theorem toggleAudioPlayback_flips w h a :
  _currentAudio (this w) = Some h → audios w !! h = Some a →
  let w1 := after _toggleAudioPlayback w in
  let w2 := after _toggleAudioPlayback w1 in
  outcome _toggleAudioPlayback w = Normal tt
  ∧ Audio.paused <$> current w1 = Some (negb (Audio.paused a))
  ∧ audios w2 = audios w ∧ this w2 = this w ∧ elements w2 = elements w
  ∧ length (console w2) = (length (console w) + 2)%nat.
Proof.
  intros Hc Ha w1 w2. subst w2 w1. unfold outcome, after.
  rewrite (toggleAudioPlayback_run w h a Hc Ha). cbn [fst snd].
  set (a1 := Audio.set_paused (negb (Audio.paused a)) a).
  assert (Hlt : (h < length (audios w))%nat) by (by eapply lookup_lt_Some).
  erewrite (toggleAudioPlayback_run _ h a1); [|exact Hc|];
    [|cbn [audios with_audios with_console]; by apply list_lookup_insert_eq].
  cbn [snd this audios elements console with_audios with_console].
  split; [done|]. split.
  { unfold current. cbn [this with_audios with_console audios]. rewrite Hc. cbn.
    by rewrite list_lookup_insert_eq. }
  split.
  { rewrite list_insert_insert_eq. subst a1.
    replace (negb (Audio.paused (Audio.set_paused (negb (Audio.paused a)) a)))
      with (Audio.paused a) by (by destruct a as [? ? [|] ? ? ?]).
    rewrite set_paused_back. by apply list_insert_id. }
  split; [done|]. split; [done|].
  rewrite !length_app. cbn. lia.
Qed.

Lemma toggleAudioPlayback_flips_witness :
  Audio.paused <$> current (playing_first abc) = Some true
  ∧ Audio.paused <$> current (after _toggleAudioPlayback (playing_first abc)) = Some false
  ∧ audios (after _toggleAudioPlayback (after _toggleAudioPlayback (playing_first abc)))
    = audios (playing_first abc).
Proof.
  pose proof (toggleAudioPlayback_flips (playing_first abc) 0 (selected_audio "a.mp3")
                eq_refl eq_refl) as (_ & H1 & H2 & _).
  split; [reflexivity|]. split; [exact H1|exact H2].
Defined.

(** X12.  A volume the media element refuses leaves everything as it
    was.  With a track selected, [_setAudioVolume(x)] for a number whose
    hundredth lies outside [0, 1] throws an IndexSizeError, and for one
    whose hundredth is not finite a TypeError; the volume is unchanged
    and nothing is logged. *)
Theorem setAudioVolume_refused w h a (x : float) :
  _currentAudio (this w) = Some h → audios w !! h = Some a →
  accepted (x / 100)%float = false →
  _setAudioVolume (Num x) w
  = (Throw (if is_finite (x / 100)%float then IndexSizeError else TypeError), w).
Proof.
  intros Hc Ha Hx. unfold _setAudioVolume.
  rewrite bind_run. unfold currentAudio. rewrite Hc.
  rewrite bind_run. unfold audio_assign. rewrite Ha. cbn [ToNumber].
  unfold Audio.assign_volume. unfold accepted in Hx.
  destruct (is_finite (x / 100)%float); cbn [negb andb] in *; [|done].
  by rewrite Hx.
Qed.

Lemma setAudioVolume_refused_witness :
  _setAudioVolume (Num 150) (playing_first abc) = (Throw IndexSizeError, playing_first abc)
  ∧ _setAudioVolume (Num (-1)) (playing_first abc)
    = (Throw IndexSizeError, playing_first abc)
  ∧ _setAudioVolume (Num nan) (playing_first abc) = (Throw TypeError, playing_first abc).
Proof.
  split; [|split].
  - exact (setAudioVolume_refused (playing_first abc) 0 (selected_audio "a.mp3") 150
             eq_refl eq_refl eq_refl).
  - exact (setAudioVolume_refused (playing_first abc) 0 (selected_audio "a.mp3") (-1)
             eq_refl eq_refl eq_refl).
  - exact (setAudioVolume_refused (playing_first abc) 0 (selected_audio "a.mp3") nan
             eq_refl eq_refl eq_refl).
Defined.

(** X13.  The volume bar sets the volume of the current track.  In every
    state a player reaches, once a track is selected, an [input] event on
    the volume bar at a whole position [k] from 0 to 100 is handled
    without an exception, leaves the current handle at volume [k / 100],
    and logs that one line. *)
Theorem volume_bar_sets_volume options page os k :
  let w := after (run_all os) (constructor options page).2 in
  is_Some (_currentAudio (this w)) → 0 ≤ k ≤ 100 →
  ∃ r, outcome (control "audioVolumeControls" "audioVolumeBar") w = Normal r
       ∧ handle_volume (after (dispatch r "input" (of_Z k)) w) = Some (percent k)
       ∧ console (after (dispatch r "input" (of_Z k)) w)
         = console w ++ [AudioVolumeChangedTo (of_Z k)].
Proof.
  intros w [h Hc] Hk.
  destruct (wired_constructor options page os) as (_ & Hbar & _). fold w in Hbar.
  apply wired_callbacks in Hbar as (r & Hr & Hcb). exists r. split; [exact Hr|].
  destruct (run_all_playback_wf options page os) as (Hw & _). fold w in Hw.
  destruct (Hw h Hc) as [a Ha].
  unfold after. rewrite (dispatch_single w r "input" (of_Z k) volume_input Hcb).
  cbn [ui_listener].
  rewrite (setAudioVolume_run w h a (Audio.set_volume (percent k) a) (of_Z k) Hc Ha)
    by (apply assign_volume_accepted, percent_accepted, Hk).
  cbn [snd]. split; [|done].
  unfold handle_volume, current. cbn [this with_console with_audios audios]. rewrite Hc.
  cbn. rewrite list_lookup_insert_eq by (by eapply lookup_lt_Some). done.
Qed.

Lemma volume_bar_sets_volume_witness :
  handle_volume
    (after (dispatch 4 "input" (of_Z 40))
       (after (run_all [call_setCurrentAudio 0]) (constructor abc (Some [])).2))
  = Some (percent 40).
Proof.
  assert (Hc : is_Some (_currentAudio (this
            (after (run_all [call_setCurrentAudio 0]) (constructor abc (Some [])).2))))
    by (exists 0%nat; vm_compute; reflexivity).
  destruct (volume_bar_sets_volume abc (Some []) [call_setCurrentAudio 0] 40 Hc
              ltac:(lia)) as (r & Hr & Hv & _).
  vm_compute in Hr. injection Hr as <-. exact Hv.
Defined.

(** X14.  A control used before a track is selected only reports a
    TypeError.  In every state a player reaches in which [_currentAudio]
    is still [null], a click on the mute button or on the play button, and
    an input on the volume bar or on the scrub bar, throw inside the
    listener; the exception is reported as uncaught, and nothing else of
    the state changes. *)
Theorem controls_before_selection_report_TypeError options page os value group name event :
  let w := after (run_all os) (constructor options page).2 in
  _currentAudio (this w) = None →
  (group, name, event) ∈
    [("audioVolumeControls", "audioVolumeMuteControl", "click");
     ("audioVolumeControls", "audioVolumeBar", "input");
     ("audioControls", "audioPlaybackProgressControl", "input");
     ("audioControls", "audioTogglePlaybackControl", "click")] →
  ∃ r, outcome (control group name) w = Normal r
       ∧ dispatch r event value w
         = (Normal tt, with_console (λ c, c ++ [Uncaught TypeError]) w).
Proof.
  intros w Hc Hin.
  destruct (wired_constructor options page os) as (H1 & H2 & H3 & _ & H5 & _).
  fold w in H1, H2, H3, H5.
  assert (Hcases : ∃ cb, wired w group name event = Some [cb]
                         ∧ ∀ v, ui_listener cb v w = (Throw TypeError, w)).
  { repeat (apply elem_of_cons in Hin as [[= -> -> ->]|Hin]);
      [exists mute_click|exists volume_input|exists progress_input|exists toggle_click|];
      [split; [done|intros v; cbn [ui_listener]; by apply currentAudio_none]..|].
    by apply elem_of_nil in Hin. }
  destruct Hcases as (cb & Hwired & Hthrow).
  apply wired_callbacks in Hwired as (r & Hr & Hcb). exists r. split; [exact Hr|].
  by rewrite (dispatch_single w r event value cb Hcb), Hthrow.
Qed.

Lemma controls_before_selection_report_TypeError_witness :
  dispatch 9 "click" 0%float (after (run_all []) (constructor abc (Some [])).2)
  = (Normal tt,
     with_console (λ c, c ++ [Uncaught TypeError])
       (after (run_all []) (constructor abc (Some [])).2)).
Proof.
  assert (Hc : _currentAudio (this (after (run_all []) (constructor abc (Some [])).2))
               = None) by (vm_compute; reflexivity).
  destruct (controls_before_selection_report_TypeError abc (Some []) [] 0%float
              "audioControls" "audioTogglePlaybackControl" "click" Hc) as (r & Hr & Hd).
  { do 3 (apply elem_of_cons; right). apply elem_of_cons. by left. }
  vm_compute in Hr. injection Hr as <-. exact Hd.
Defined.

(** * Composing elements *)

Section Composing.

Implicit Types (w : World) (e : Element.t) (cs : list ElementOptions).








End Composing.

Section Events.

Implicit Types (w : World) (h : handle) (a : Audio.t).

Lemma control_run w group name :
  control group name w = (outcome (control group name) w, w).
Proof.
  unfold outcome, control. rewrite bind_run. cbn [gets].
  rewrite bind_run. unfold property at 1 3.
  destruct (get group (_elements (this w))) as [g|]; [|done].
  cbn [mret M_ret]. rewrite bind_run. unfold element_get.
  destruct (elements w !! g) as [e|]; [|done].
  unfold property. by destruct (get name (Element.children e)).
Qed.

Lemma control_structure w w' group name :
  structure w' = structure w →
  outcome (control group name) w' = outcome (control group name) w.
Proof.
  intros H. pose proof H as Hels. unfold structure in Hels. injection Hels as Hels _ _.
  rewrite !control_outcome, Hels.
  destruct (get group (_elements (this w))) as [g|]; [|done].
  pose proof (structure_lookup w w' g H) as Hg.
  destruct (elements w' !! g) as [e'|], (elements w !! g) as [e|];
    cbn in Hg; try done.
  injection Hg as _ _ _ _ _ Hc _. by rewrite Hc.
Qed.

(** The scrub bar of a player, however it was constructed and whatever
    happened since. *)
Lemma scrub_bar options page os :
  let w := after (run_all os) (constructor options page).2 in
  outcome audioPlaybackProgressControl w = Normal 7%nat ∧ is_Some (elements w !! 7%nat).
Proof.
  intros w. pose proof (run_all_same_structure os (constructor options page).2) as H.
  fold w in H. unfold same_structure in H. split.
  - change audioPlaybackProgressControl
      with (control "audioControls" "audioPlaybackProgressControl").
    rewrite (control_structure _ w _ _ H).
    destruct page as [l|]; vm_compute; reflexivity.
  - destruct (structure_fixed _ w 7%nat
                (fixed (Element.on "input" progress_input
                          (Element.new "input"
                             [("class", "audio-playback-progress-control");
                              ("type", "range"); ("min", "0"); ("value", "0")]))) H)
      as (e & He & _); [|by eexists].
    destruct page as [l|]; vm_compute; reflexivity.
Qed.

Lemma fire_single w h a event cb :
  audios w !! h = Some a →
  filter (λ l : string * audio_callback, l.1 = event) (Audio.listeners a) = [(event, cb)] →
  fire h event w
  = match audio_listener cb h w with
    | (Throw e, w') => (Normal tt, with_console (λ c, c ++ [Uncaught e]) w')
    | (Normal _, w') => (Normal tt, w')
    end.
Proof.
  intros Ha Hl. unfold fire. rewrite bind_run. cbn [gets]. rewrite Ha.
  cbn [fmap option_fmap option_map default from_option id]. rewrite Hl.
  cbn [each snd]. rewrite bind_run. unfold reported.
  by destruct (audio_listener cb h w) as [[[]|e] w'].
Qed.

Lemma progress_control_run w :
  audioPlaybackProgressControl w = (outcome audioPlaybackProgressControl w, w).
Proof. apply (control_run w "audioControls" "audioPlaybackProgressControl"). Qed.

Lemma timeupdate_run w r e h a :
  outcome audioPlaybackProgressControl w = Normal r → elements w !! r = Some e →
  audios w !! h = Some a →
  audio_listener audio_timeupdate h w
  = (Normal tt,
     with_elements
       (λ l, <[r := Element.setAttribute "value" (NumeralOf (Audio.currentTime a)) e]> l)
       w).
Proof.
  intros Hr He Ha. cbn [audio_listener].
  rewrite bind_run, progress_control_run, Hr, bind_run.
  unfold audio_get. rewrite Ha. unfold element_update. by rewrite He.
Qed.


End Events.

Section Naming.




End Naming.



(** X16.  A [timeupdate] of any audio element moves the scrub bar.  In
    every state a player reaches, when the browser fires [timeupdate] at
    an audio element the player created, the current one or one that has
    been replaced since, the listener runs without an exception and
    writes that element's position into the [value] attribute of the
    scrub bar; nothing else changes. *)
Theorem timeupdate_moves_scrub_bar options page os h a :
  let w := after (run_all os) (constructor options page).2 in
  audios w !! h = Some a →
  ∃ r e, outcome (control "audioControls" "audioPlaybackProgressControl") w = Normal r
         ∧ elements w !! r = Some e
         ∧ fire h "timeupdate" w
           = (Normal tt,
              with_elements
                (λ l, <[r := Element.setAttribute "value"
                               (NumeralOf (Audio.currentTime a)) e]> l) w).
Proof.
  intros w Ha.
  destruct (scrub_bar options page os) as (Hr & e & He). fold w in Hr, He.
  exists 7%nat, e. split; [exact Hr|]. split; [exact He|].
  destruct (run_all_playback_wf options page os) as (_ & _ & Hl). fold w in Hl.
  rewrite (fire_single w h a "timeupdate" audio_timeupdate Ha)
    by (by rewrite (Hl h a Ha)).
  by rewrite (timeupdate_run w 7 e h a Hr He Ha).
Qed.

Lemma timeupdate_moves_scrub_bar_witness :
  audios (after (run_all [call_setCurrentAudio 0; call_setAudioCurrentTime 12])
            (constructor abc (Some [])).2) !! 0%nat
  = Some (Audio.set_currentTime 12 (selected_audio "a.mp3"))
  ∧ outcome (fire 0 "timeupdate")
      (after (run_all [call_setCurrentAudio 0; call_setAudioCurrentTime 12])
         (constructor abc (Some [])).2)
    = Normal tt.
Proof.
  assert (Ha : audios (after (run_all [call_setCurrentAudio 0; call_setAudioCurrentTime 12])
                         (constructor abc (Some [])).2) !! 0%nat
               = Some (Audio.set_currentTime 12 (selected_audio "a.mp3")))
    by (vm_compute; reflexivity).
  split; [exact Ha|].
  destruct (timeupdate_moves_scrub_bar abc (Some [])
              [call_setCurrentAudio 0; call_setAudioCurrentTime 12] 0 _ Ha)
    as (r & e & _ & _ & Hf).
  unfold outcome. by rewrite Hf.
Defined.

Section Children.

Implicit Types (e : Element.t).



End Children.

Section Appending.

Implicit Types (w : World) (e p : Element.t).


End Appending.





(** X19.  [loadedmetadata] sets the maximum of the scrub bar from the
    current handle, not from the element the event is fired at.  When the
    browser fires [loadedmetadata] at an audio element that carries the
    player's listeners, the listener sets the [value] attribute of the
    scrub bar to 0 and its [max] attribute to the duration of whatever
    handle is current at that moment, also when the event comes from an
    element that has been replaced since; nothing else changes. *)
Theorem loadedmetadata_sets_max_from_current_handle w target a hc ac r e :
  outcome audioPlaybackProgressControl w = Normal r → elements w !! r = Some e →
  audios w !! target = Some a → Audio.listeners a = attached →
  _currentAudio (this w) = Some hc → audios w !! hc = Some ac →
  fire target "loadedmetadata" w
  = (Normal tt,
     with_elements
       (λ l, <[r := Element.setAttribute "max" (NumeralOf (Audio.duration ac))
                      (Element.setAttribute "value" (Text "0") e)]> l) w).
Proof.
  intros Hr He Ha Hl Hc Hac.
  rewrite (fire_single w target a "loadedmetadata" audio_loadedmetadata Ha)
    by (by rewrite Hl).
  cbn [audio_listener].
  rewrite bind_run, progress_control_run, Hr.
  rewrite bind_run. unfold element_update at 1. rewrite He.
  rewrite bind_run. unfold currentAudio. cbn [this with_elements]. rewrite Hc.
  rewrite bind_run. unfold audio_get. cbn [audios with_elements]. rewrite Hac.
  unfold element_update. cbn [elements with_elements].
  rewrite list_lookup_insert_eq by (by eapply lookup_lt_Some).
  unfold with_elements. cbn [this audios elements container console].
  by rewrite list_insert_insert_eq.
Qed.

Lemma loadedmetadata_sets_max_from_current_handle_witness :
  (λ e, get "max" (HTMLElement.attributes (Element.htmlElement e)))
    <$> elements (after (fire 0 "loadedmetadata") two_loaded) !! 7%nat
  = Some (Some (NumeralOf 240)).
Proof.
  unfold after.
  erewrite (loadedmetadata_sets_max_from_current_handle two_loaded 0 _ 1 _ 7 _);
    [|vm_compute; reflexivity..].
  vm_compute. reflexivity.
Defined.

(** X20.  What the player shows never follows the track.  In a page
    that has the container, whatever the options and whatever operations
    ran: the cover image has its class and, [value] and [max] aside, no
    other attribute, so no source is ever set on it; the title element
    has no text and no children; and the play button holds both the play
    icon and the pause icon, in this order, whether the track is playing
    or not. *)
Theorem display_is_never_updated options l os :
  let w := after (run_all os) (constructor options (Some l)).2 in
  outcome (control "audioCoverImageContainer" "audioCoverImage") w = Normal 1%nat
  ∧ get "audioTitle" (_elements (this w)) = Some 2%nat
  ∧ outcome (control "audioControls" "audioTogglePlaybackControl") w = Normal 9%nat
  ∧ ∃ image title toggle play pause,
      elements w !! 1%nat = Some image
      ∧ other_attributes image = [("class", Text "audio-cover-image")]
      ∧ elements w !! 2%nat = Some title
      ∧ HTMLElement.innerText (Element.htmlElement title) = EmptyString
      ∧ HTMLElement.childNodes (Element.htmlElement title) = []
      ∧ elements w !! 9%nat = Some toggle
      ∧ HTMLElement.childNodes (Element.htmlElement toggle) = [13%nat; 14%nat]
      ∧ elements w !! 13%nat = Some play
      ∧ HTMLElement.innerText (Element.htmlElement play) = "play_arrow"
      ∧ elements w !! 14%nat = Some pause
      ∧ HTMLElement.innerText (Element.htmlElement pause) = "pause".
Proof.
  intros w. pose proof (run_all_same_structure os (constructor options (Some l)).2) as H.
  fold w in H. unfold same_structure in H.
  split; [rewrite (control_structure _ w _ _ H); vm_compute; reflexivity|].
  split.
  { assert (Hels : _elements (this w) = _elements (this (constructor options (Some l)).2))
      by exact (f_equal (λ s, s.1.1) H).
    rewrite Hels. vm_compute. reflexivity. }
  split; [rewrite (control_structure _ w _ _ H); vm_compute; reflexivity|].
  destruct (structure_fixed _ w 1%nat
              (fixed (Element.new "img" [("class", "audio-cover-image")])) H)
    as (image & Himage & Fimage); [vm_compute; reflexivity|].
  destruct (structure_fixed _ w 2%nat
              (fixed (Element.new "span" [("class", "audio-title")])) H)
    as (title & Htitle & Ftitle); [vm_compute; reflexivity|].
  destruct (structure_fixed _ w 9%nat
              (fixed (Element.addChild "pauseIcon" 14%nat
                        (Element.addChild "playIcon" 13%nat
                           (Element.on "click" toggle_click
                              (Element.new "button"
                                 [("class", "audio-toggle-playback-control")]))))) H)
    as (toggle & Htoggle & Ftoggle); [vm_compute; reflexivity|].
  destruct (structure_fixed _ w 13%nat
              (fixed (Element.setText "play_arrow"
                        (Element.new "span" [("class", "material-symbols-rounded")]))) H)
    as (play & Hplay & Fplay); [vm_compute; reflexivity|].
  destruct (structure_fixed _ w 14%nat
              (fixed (Element.setText "pause"
                        (Element.new "span" [("class", "material-symbols-rounded")]))) H)
    as (pause & Hpause & Fpause); [vm_compute; reflexivity|].
  exists image, title, toggle, play, pause.
  unfold fixed in Fimage, Ftitle, Ftoggle, Fplay, Fpause.
  injection Fimage as _ Ai _ _ _ _ _. injection Ftitle as _ _ Tt Ct _ _ _.
  injection Ftoggle as _ _ _ Cg _ _ _. injection Fplay as _ _ Tp _ _ _ _.
  injection Fpause as _ _ Tq _ _ _ _.
  repeat (split; [done|]). done.
Qed.

(** * The earlier revisions *)

Section EarlierRevisions.

Implicit Types (s : Earlier.state).

Lemma earlier_setCurrentAudio_run s i t :
  entry (Earlier._srcs s) i = Some t →
  Earlier.setCurrentAudio i s
  = (Normal tt,
     Earlier.mk (Earlier._srcs s) (Earlier.element (length (Earlier.audios s)))
       (Earlier.audios s ++ [Earlier.mk_audio (resolve t) true ["canplay"]])).
Proof. intros Ht. unfold Earlier.setCurrentAudio. by rewrite Ht. Qed.

Lemma earlier_fire_canplay s h a :
  Earlier.audios s !! h = Some a → Earlier.listeners a = ["canplay"] →
  Earlier.fire h "canplay" s = (Earlier._playAudio s).2.
Proof. intros Ha Hl. unfold Earlier.fire. by rewrite Ha, Hl. Qed.

Lemma earlier_select_and_play s i t :
  entry (Earlier._srcs s) i = Some t →
  Earlier.fire (length (Earlier.audios s)) "canplay" (Earlier.setCurrentAudio i s).2
  = Earlier.mk (Earlier._srcs s) (Earlier.element (length (Earlier.audios s)))
      (Earlier.audios s ++ [Earlier.mk_audio (resolve t) false ["canplay"]]).
Proof.
  intros Ht. rewrite (earlier_setCurrentAudio_run s i t Ht). cbn [snd].
  erewrite earlier_fire_canplay; [|apply lookup_snoc|reflexivity].
  unfold Earlier._playAudio, Earlier.set_paused. cbn. f_equal.
  rewrite alter_app_r_alt by done. by rewrite Nat.sub_diag.
Qed.

Lemma length_snoc {A : Type} (l : list A) (x : A) : length (l ++ [x]) = S (length l).
Proof. rewrite length_app. cbn. lia. Qed.

End EarlierRevisions.

(** X21.  In the earlier revisions a new track plays over the old one.
    [setCurrentAudio] there does not pause the handle it replaces, and
    the [canplay] listener starts playback unconditionally: after a track
    is selected and can play, and a second track is selected and can
    play, both audio elements are playing. *)
Theorem earlier_tracks_overlap s i j ti tj :
  entry (Earlier._srcs s) i = Some ti → entry (Earlier._srcs s) j = Some tj →
  let first := length (Earlier.audios s) in
  let s1 := Earlier.fire first "canplay" (Earlier.setCurrentAudio i s).2 in
  let s2 := Earlier.fire (S first) "canplay" (Earlier.setCurrentAudio j s1).2 in
  Earlier.paused <$> Earlier.audios s2 !! first = Some false
  ∧ Earlier.paused <$> Earlier.audios s2 !! S first = Some false.
Proof.
  intros Hi Hj. cbv zeta.
  rewrite (earlier_select_and_play s i ti Hi).
  set (s1 := Earlier.mk _ _ _).
  replace (S (length (Earlier.audios s))) with (length (Earlier.audios s1))
    by apply length_snoc.
  rewrite (earlier_select_and_play s1 j tj Hj). cbn [Earlier.audios]. split.
  - rewrite lookup_app_l by (subst s1; cbn; rewrite length_snoc; lia).
    subst s1. cbn [Earlier.audios]. by rewrite lookup_snoc.
  - by rewrite lookup_snoc.
Qed.

Lemma earlier_tracks_overlap_witness :
  Earlier.paused <$>
    Earlier.audios
      (Earlier.fire 1 "canplay"
         (Earlier.setCurrentAudio 1
            (Earlier.fire 0 "canplay"
               (Earlier.setCurrentAudio 0 (Earlier.constructor false (srcs abc))).2)).2)
    !! 0%nat
  = Some false
  ∧ Earlier.paused <$>
      Earlier.audios
        (Earlier.fire 1 "canplay"
           (Earlier.setCurrentAudio 1
              (Earlier.fire 0 "canplay"
                 (Earlier.setCurrentAudio 0 (Earlier.constructor false (srcs abc))).2)).2)
      !! 1%nat
    = Some false.
Proof.
  exact (earlier_tracks_overlap (Earlier.constructor false (srcs abc)) 0 1
           (SrcString "a.mp3") (SrcString "b.mp3") eq_refl eq_refl).
Defined.

(** X22.  In the earlier revisions [canplay] starts the current track,
    whichever element can play.  The listener calls [this._playAudio()],
    which plays [_currentAudio]: when a second track is selected before
    the first could play, a [canplay] of the first element starts the
    second and leaves the first paused. *)
Theorem earlier_canplay_starts_current s i j ti tj :
  entry (Earlier._srcs s) i = Some ti → entry (Earlier._srcs s) j = Some tj →
  let first := length (Earlier.audios s) in
  let s2 := Earlier.fire first "canplay"
              (Earlier.setCurrentAudio j (Earlier.setCurrentAudio i s).2).2 in
  Earlier.paused <$> Earlier.audios s2 !! first = Some true
  ∧ Earlier.paused <$> Earlier.audios s2 !! S first = Some false.
Proof.
  intros Hi Hj. cbv zeta.
  rewrite (earlier_setCurrentAudio_run s i ti Hi). cbn [snd].
  rewrite earlier_setCurrentAudio_run with (t := tj) by exact Hj.
  cbn [snd Earlier.audios Earlier._srcs].
  set (l1 := Earlier.audios s ++ [Earlier.mk_audio (resolve ti) true ["canplay"]]).
  assert (Hl1 : l1 !! length (Earlier.audios s)
                = Some (Earlier.mk_audio (resolve ti) true ["canplay"]))
    by apply lookup_snoc.
  assert (Hlen : length l1 = S (length (Earlier.audios s))) by apply length_snoc.
  erewrite earlier_fire_canplay;
    [|cbn [Earlier.audios]; rewrite lookup_app_l by lia; exact Hl1|reflexivity].
  unfold Earlier._playAudio, Earlier.set_paused.
  cbn [Earlier._currentAudio Earlier.audios Earlier._srcs snd].
  rewrite alter_app_r_alt by done. rewrite Nat.sub_diag. cbn [alter list_alter].
  split.
  - rewrite lookup_app_l by lia. by rewrite Hl1.
  - by rewrite <- Hlen, lookup_snoc.
Qed.

Lemma earlier_canplay_starts_current_witness :
  Earlier.paused <$>
    Earlier.audios
      (Earlier.fire 0 "canplay"
         (Earlier.setCurrentAudio 1
            (Earlier.setCurrentAudio 0 (Earlier.constructor true (srcs abc))).2).2)
    !! 0%nat
  = Some true
  ∧ Earlier.paused <$>
      Earlier.audios
        (Earlier.fire 0 "canplay"
           (Earlier.setCurrentAudio 1
              (Earlier.setCurrentAudio 0 (Earlier.constructor true (srcs abc))).2).2)
      !! 1%nat
    = Some false.
Proof.
  exact (earlier_canplay_starts_current (Earlier.constructor true (srcs abc)) 0 1
           (SrcString "a.mp3") (SrcString "b.mp3") eq_refl eq_refl).
Defined.
